(** * CDF 9/7 wavelet core: level bookkeeping, constants and buffer owner

    A shallow embedding of the CDF97 header of the compressor and of the
    behaviour its design document prescribes for the member functions.

    From the header itself: the helper functions [num_of_xforms],
    [num_of_partitions] and [calc_approx_detail_len], the [RTNType]
    outcomes, the data members of class [CDF97] and its lifting constants.

    The header declares the member functions of [CDF97] without bodies.
    Their definitions here follow the design document and are marked as
    such: gather and scatter, the four lifting kernels, the one-level
    passes, the level drivers, ingest, release and the eight transforms.

    The same passes are stated once more over any sample arithmetic
    ([Scheme]): at the binary64 operations they are the passes of [CDF97],
    at the real numbers they are the transform in exact arithmetic, for
    which reconstruction is exact.

    From the driver source: the sample counts of [super_resolution] and the
    function [main] (its option loop, the decision what to run, the
    configuration it builds and the calls it dispatches), with the calls
    into the compressor library kept as a list of actions.

    Conventions.
    - [size_t] is a 64-bit unsigned integer: a [Z] in [0, 2^64), every
      arithmetic result reduced by [wrap].
    - [double] is IEEE-754 binary64: the primitive [float] of Rocq, whose
      operations round to nearest-even as the C++ ones do.
    - [std::array<size_t, N>] is a tuple; [std::vector<double>] a list,
      read with [!!!] and updated in place with [<[i := x]>]. *)

From Stdlib Require Import ZArith Lia List Bool Reals Lra PrimFloat String Ascii.
From stdpp Require Import base list.
From Equations Require Import Equations.
Import ListNotations.

#[local] Open Scope Z_scope.
#[local] Set Warnings "-inexact-float".

(* ===================================================================== *)
(** * Part I. The embedding                                               *)
(* ===================================================================== *)

(** ** Machine integers *)

(** [std::numeric_limits<size_t>::max()] *)
Definition max_size : Z := 2 ^ 64 - 1.

(** Reduction of an integer result to [size_t]. *)
Definition wrap (z : Z) : Z := z mod 2 ^ 64.

(** The values a [size_t] variable can hold. *)
Definition is_size_t (z : Z) : Prop := 0 <= z <= max_size.

(** ** [num_of_partitions]

    <<
    size_t num_of_parts = 0;
    while (len > 1) { num_of_parts++; len -= len / 2; }
    return num_of_parts;
    >>

    The loop is a recursion on its two variables; it is well founded
    because [len] decreases. *)

Equations? num_of_partitions_loop (len num_of_parts : Z) : Z
  by wf (Z.to_nat len) lt :=
  num_of_partitions_loop len num_of_parts with Z_lt_dec 1 len := {
    | left _ =>
        num_of_partitions_loop (wrap (len - len / 2)) (wrap (num_of_parts + 1));
    | right _ => num_of_parts }.
Proof.
  unfold wrap.
  assert (Hhalf : 0 < len - len / 2 < len).
  { pose proof (Z.div_lt_upper_bound len 2 len).
    pose proof (Z.div_str_pos len 2). lia. }
  pose proof (Z.mod_le (len - len / 2) (2 ^ 64)).
  pose proof (Z.mod_pos_bound (len - len / 2) (2 ^ 64)).
  lia.
Defined.

Definition num_of_partitions (len : Z) : Z := num_of_partitions_loop len 0.

(** The loop of [num_of_partitions] as a transition system on the pair
    [(len, num_of_parts)], used to state its termination. *)
Definition partition_guard (s : Z * Z) : bool := 1 <? fst s.

Definition partition_body (s : Z * Z) : Z * Z :=
  (wrap (fst s - fst s / 2), wrap (snd s + 1)).

Definition partition_step (s' s : Z * Z) : Prop :=
  partition_guard s = true /\ s' = partition_body s.

(** ** [calc_approx_detail_len]

    <<
    size_t low_len = orig_len, high_len = 0;
    for (size_t i = 0; i < lev; i++) { high_len = low_len / 2; low_len -= high_len; }
    return {low_len, high_len};
    >> *)

Fixpoint calc_approx_detail_len_loop (iters : nat) (low_len high_len : Z) : Z * Z :=
  match iters with
  | O => (low_len, high_len)
  | S iters' =>
      let high_len := low_len / 2 in
      let low_len := wrap (low_len - high_len) in
      calc_approx_detail_len_loop iters' low_len high_len
  end.

Definition calc_approx_detail_len (orig_len lev : Z) : Z * Z :=
  calc_approx_detail_len_loop (Z.to_nat lev) orig_len 0.

(** ** The sub-band recurrence of the design document

    [a_0 = L], [d_0 = 0], [d_(i+1) = floor (a_i / 2)],
    [a_(i+1) = a_i - d_(i+1)]. *)

Fixpoint approx_len (L : Z) (i : nat) : Z :=
  match i with
  | O => L
  | S j => approx_len L j - approx_len L j / 2
  end.

Definition detail_len (L : Z) (i : nat) : Z :=
  match i with
  | O => 0
  | S j => approx_len L j / 2
  end.

(** [ceil (a / 2)] on integers. *)
Definition ceil_half (a : Z) : Z := (a + 1) / 2.

(** One halving step [L <- L - floor (L / 2)]. *)
Definition halve (L : Z) : Z := L - L / 2.

(** ** [num_of_xforms]

    <<
    const auto f = std::log2(double(len) / 8.0);
    const auto num = f < 0.0 ? size_t{0} : static_cast<size_t>(f) + 1;
    return std::min(num, size_t{6});
    >>

    [std::log2] has no counterpart among the primitive float operations, so
    in this one function the [double] values are the real numbers they
    stand for: [double(len)] is [IZR len] and [std::log2] is the logarithm
    in base 2. *)

Definition std_log2 (x : R) : R := (ln x / ln 2)%R.

(** [static_cast<size_t>] of a [double]: truncation toward zero. *)
Definition static_cast_size_t (f : R) : Z :=
  if Rle_dec 0 f then Int_part f else - Int_part (- f).

Definition num_of_xforms (len : Z) : Z :=
  let f := std_log2 (IZR len / 8) in
  let num := if Rlt_dec f 0 then 0 else wrap (static_cast_size_t f + 1) in
  Z.min num 6.

(** The level count of the design document,
    [f(L) = min (6, max (0, floor (log2 (L / 8)) + 1))]. *)
Definition xforms_formula (L : Z) : Z :=
  Z.min 6 (Z.max 0 (Int_part (std_log2 (IZR L / 8)) + 1)).

(** The same count on integers only, for evaluation. *)
Definition num_of_xforms_int (len : Z) : Z :=
  if len <? 8 then 0 else Z.min (Z.log2 (len / 8) + 1) 6.

(** ** Outcomes *)

Inductive RTNType : Set :=
| Good
| WrongDims
| BitstreamWrongLen
| IOError
| InvalidParam
| QzLevelTooBig
| EmptyStream
| BitBudgetMet
| VersionMismatch
| ZSTDMismatch
| ZSTDError
| SliceVolumeMismatch
| QzModeMismatch
| SetBPPBeforeDims
| DataRangeNotSet
| CompModeUnknown
| Error.

(** ** Class [CDF97] *)

#[global] Instance float_inhabited : Inhabited float := populate 0%float.

Module CDF97.

Abbreviation vecd_type := (list float) (only parsing).
Abbreviation dims_type := (Z * Z * Z)%type (only parsing).

(** *** Private data members *)

Record t : Type := mk {
  m_data_buf : vecd_type;   (* holds the entire input data *)
  m_dims : dims_type;       (* dimension of the data volume *)
  m_qcc_buf : vecd_type;
  m_slice_buf : vecd_type }.

(** A freshly constructed object: empty vectors, [m_dims = {0, 0, 0}]. *)
Definition fresh : t := mk [] (0, 0, 0) [] [].

(** *** Coefficients and constants (default member initialisers) *)

Definition h : list float :=
  [0.602949018236; 0.266864118443; -0.078223266529; -0.016864118443;
   0.026748757411]%float.

Definition h_at (i : nat) : float := h !!! i.

Definition r0 : float := (h_at 0 - 2.0 * h_at 4 * h_at 1 / h_at 3)%float.
Definition r1 : float := (h_at 2 - h_at 4 - h_at 4 * h_at 1 / h_at 3)%float.
Definition s0 : float := (h_at 1 - h_at 3 - h_at 3 * r0 / r1)%float.
Definition t0 : float := (h_at 0 - 2.0 * (h_at 2 - h_at 4))%float.
Definition ALPHA : float := (h_at 4 / h_at 3)%float.
Definition BETA : float := (h_at 3 / r1)%float.
Definition GAMMA : float := (r1 / s0)%float.
Definition DELTA : float := (s0 / t0)%float.
Definition EPSILON : float := (sqrt 2.0 * t0)%float.
Definition INV_EPSILON : float := (1.0 / EPSILON)%float.

(** The QccPack coefficients, present in the header as a comment only. *)
Module QccPack.
Definition ALPHA : float := (-1.58615986717275)%float.
Definition BETA : float := (-0.05297864003258)%float.
Definition GAMMA : float := 0.88293362717904%float.
Definition DELTA : float := 0.44350482244527%float.
Definition EPSILON : float := 1.14960430535816%float.
End QccPack.

(** *** Gather and scatter *)

#[local] Open Scope nat_scope.

(** Modelled from the spec: the bodies of [m_gather_even], [m_gather_odd],
    [m_scatter_even] and [m_scatter_odd] are not in the header.  Gather
    produces a destination range of the same length in which the
    even-indexed source elements come first, in their order, followed by the
    odd-indexed ones; the two variants differ by the split point only.  The
    source range [begin, end) is the list [src]; the result is the
    destination range. *)
Definition gather_split (low_count high_count : nat) (src : vecd_type) : vecd_type :=
  ((fun i => src !!! (2 * i)) <$> seq 0 low_count) ++
  ((fun i => src !!! (2 * i + 1)) <$> seq 0 high_count).

(** Modelled from the spec: gather for an even length, split at [len / 2]. *)
Definition m_gather_even (src : vecd_type) : vecd_type :=
  let len := length src in
  gather_split (len / 2) (len / 2) src.

(** Modelled from the spec: gather for an odd length, split at
    [len / 2 + 1]. *)
Definition m_gather_odd (src : vecd_type) : vecd_type :=
  let len := length src in
  gather_split (len / 2 + 1) (len / 2) src.

(** Modelled from the spec: scatter is the inverse; positions
    [0, low_count) become the even indices and the positions from
    [low_count] on become the odd indices. *)
Definition scatter_split (low_count high_count : nat) (src : vecd_type) : vecd_type :=
  (fun j => if Nat.even j then src !!! (j / 2) else src !!! (low_count + j / 2))
    <$> seq 0 (low_count + high_count).

(** Modelled from the spec: scatter for an even length. *)
Definition m_scatter_even (src : vecd_type) : vecd_type :=
  let len := length src in
  scatter_split (len / 2) (len / 2) src.

(** Modelled from the spec: scatter for an odd length. *)
Definition m_scatter_odd (src : vecd_type) : vecd_type :=
  let len := length src in
  scatter_split (len / 2 + 1) (len / 2) src.

(** Modelled from the spec: gather on a range of any length; the variant
    is chosen by the parity of the length. *)
Definition gather (src : vecd_type) : vecd_type :=
  if Nat.even (length src) then m_gather_even src else m_gather_odd src.

(** Modelled from the spec: scatter on a range of any length. *)
Definition scatter (src : vecd_type) : vecd_type :=
  if Nat.even (length src) then m_scatter_even src else m_scatter_odd src.

(** *** Lifting kernels *)

(** [s[2i+1] += c * (s[2i] + s[2i+2])] for [i = 0 .. count-1]. *)
Definition predict_inner (c : float) (count : nat) (s : vecd_type) : vecd_type :=
  fold_left
    (fun s i =>
       let left := s !!! (2 * i) in
       let mid := s !!! (2 * i + 1) in
       let right := s !!! (2 * i + 2) in
       <[2 * i + 1 := (mid + c * (left + right))%float]> s)
    (seq 0 count) s.

(** [s[2i] += c * (s[2i-1] + s[2i+1])] for [i = 1 .. count]. *)
Definition update_inner (c : float) (count : nat) (s : vecd_type) : vecd_type :=
  fold_left
    (fun s i =>
       let left := s !!! (2 * i - 1) in
       let mid := s !!! (2 * i) in
       let right := s !!! (2 * i + 1) in
       <[2 * i := (mid + c * (left + right))%float]> s)
    (seq 1 count) s.

(** [s[i] += 2 * c * s[j]], the mirrored neighbour at an end of the array. *)
Definition mirror (c : float) (i j : nat) (s : vecd_type) : vecd_type :=
  let mid := s !!! i in
  let neighbour := s !!! j in
  <[i := (mid + 2 * c * neighbour)%float]> s.

(** Modelled from the spec: the stencils of the four QccPack kernels, which
    the header declares without their bodies.  Even length [n = 2m]: the odd
    positions are predicted for [i = 0 .. m-2] and the last one, [s[n-1]],
    takes the mirrored neighbour; the even positions are updated starting
    with the mirrored [s[0]], then [i = 1 .. m-1]. *)
Definition predict_even (c : float) (n : nat) (s : vecd_type) : vecd_type :=
  mirror c (n - 1) (n - 2) (predict_inner c (n / 2 - 1) s).

(** Modelled from the spec: the update stencil for an even length. *)
Definition update_even (c : float) (n : nat) (s : vecd_type) : vecd_type :=
  update_inner c (n / 2 - 1) (mirror c 0 1 s).

(** Modelled from the spec: odd length [n = 2m + 1]; the prediction runs
    over [i = 0 .. m-1] with no tail correction. *)
Definition predict_odd (c : float) (n : nat) (s : vecd_type) : vecd_type :=
  predict_inner c (n / 2) s.

(** Modelled from the spec: the update stencil for an odd length, mirrored
    at both ends. *)
Definition update_odd (c : float) (n : nat) (s : vecd_type) : vecd_type :=
  mirror c (2 * (n / 2)) (2 * (n / 2) - 1) (update_inner c (n / 2 - 1) (mirror c 0 1 s)).

(** Even positions times [a], odd positions times [b]. *)
Definition scale (a b : float) (n : nat) (s : vecd_type) : vecd_type :=
  fold_left
    (fun s i =>
       let mid := s !!! i in
       let factor := if Nat.even i then a else b in
       <[i := (mid * factor)%float]> s)
    (seq 0 n) s.

(** Modelled from the spec: even-length analysis, four lifting steps with
    [ALPHA], [BETA], [GAMMA], [DELTA], then the scaling of the even
    positions by [INV_EPSILON] and of the odd ones by [- EPSILON]. *)
Definition QccWAVCDF97AnalysisSymmetricEvenEven (signal : vecd_type) (signal_length : nat)
  : vecd_type :=
  let n := signal_length in
  let s := predict_even ALPHA n signal in
  let s := update_even BETA n s in
  let s := predict_even GAMMA n s in
  let s := update_even DELTA n s in
  scale INV_EPSILON (- EPSILON)%float n s.

(** Modelled from the spec: odd-length analysis, the same steps on the
    stencils mirrored at both ends. *)
Definition QccWAVCDF97AnalysisSymmetricOddEven (signal : vecd_type) (signal_length : nat)
  : vecd_type :=
  let n := signal_length in
  let s := predict_odd ALPHA n signal in
  let s := update_odd BETA n s in
  let s := predict_odd GAMMA n s in
  let s := update_odd DELTA n s in
  scale INV_EPSILON (- EPSILON)%float n s.

(** Modelled from the spec: even-length synthesis; unscale (even positions
    by [EPSILON], odd ones by [- INV_EPSILON]), then undo delta, gamma,
    beta, alpha with the same stencils and negated coefficients. *)
Definition QccWAVCDF97SynthesisSymmetricEvenEven (signal : vecd_type) (signal_length : nat)
  : vecd_type :=
  let n := signal_length in
  let s := scale EPSILON (- INV_EPSILON)%float n signal in
  let s := update_even (- DELTA)%float n s in
  let s := predict_even (- GAMMA)%float n s in
  let s := update_even (- BETA)%float n s in
  predict_even (- ALPHA)%float n s.

(** Modelled from the spec: odd-length synthesis. *)
Definition QccWAVCDF97SynthesisSymmetricOddEven (signal : vecd_type) (signal_length : nat)
  : vecd_type :=
  let n := signal_length in
  let s := scale EPSILON (- INV_EPSILON)%float n signal in
  let s := update_odd (- DELTA)%float n s in
  let s := predict_odd (- GAMMA)%float n s in
  let s := update_odd (- BETA)%float n s in
  predict_odd (- ALPHA)%float n s.

(** *** One level on a run *)

(** Modelled from the spec: one level of analysis on a run of length
    [L >= 2] lifts with the kernel of the run's parity and gathers into
    [low | high]; synthesis scatters, then lifts with the synthesis kernel.
    A run shorter than 2 is passed through.  The scratch the C++ code
    gathers into is dead between two calls, so the pass is a function of
    the run. *)
Definition m_dwt1d_one_level (array : vecd_type) : vecd_type :=
  let array_len := length array in
  if array_len <? 2 then array
  else if Nat.even array_len
       then m_gather_even (QccWAVCDF97AnalysisSymmetricEvenEven array array_len)
       else m_gather_odd (QccWAVCDF97AnalysisSymmetricOddEven array array_len).

(** Modelled from the spec: one level of synthesis on a run. *)
Definition m_idwt1d_one_level (array : vecd_type) : vecd_type :=
  let array_len := length array in
  if array_len <? 2 then array
  else if Nat.even array_len
       then QccWAVCDF97SynthesisSymmetricEvenEven (m_scatter_even array) array_len
       else QccWAVCDF97SynthesisSymmetricOddEven (m_scatter_odd array) array_len.

(** *** Runs inside the flat buffer *)

(** The [n] samples at [start], [start + stride], ... *)
Definition read_run (buf : vecd_type) (start stride n : nat) : vecd_type :=
  (fun i => buf !!! (start + i * stride)) <$> seq 0 n.

(** Writing a run back in place; a store past the end of the vector, which
    the C++ code never performs on a matching shape, is dropped. *)
Definition write_run (buf : vecd_type) (start stride : nat) (run : vecd_type) : vecd_type :=
  fold_left (fun b i => <[start + i * stride := run !!! i]> b) (seq 0 (length run)) buf.

Definition on_run (pass : vecd_type -> vecd_type) (start stride n : nat) (buf : vecd_type)
  : vecd_type :=
  write_run buf start stride (pass (read_run buf start stride n)).

(** [for (i = 0; i < n; i++) body i] on the buffer. *)
Definition for_each (n : nat) (body : nat -> vecd_type -> vecd_type) (buf : vecd_type)
  : vecd_type :=
  fold_left (fun b i => body i b) (seq 0 n) buf.

(** *** One level on a plane and on a volume *)

(** Modelled from the spec: on the [(lx, ly)] corner of a plane with row
    stride [dx], analysis runs the 1D pass along every row, then along
    every column; synthesis runs columns first, then rows.  [plane] is the
    offset of the plane in the buffer. *)
Definition m_dwt2d_one_level (dx plane : nat) (len_xy : nat * nat) (buf : vecd_type)
  : vecd_type :=
  let '(lx, ly) := len_xy in
  let buf := for_each ly (fun y => on_run m_dwt1d_one_level (plane + y * dx) 1 lx) buf in
  for_each lx (fun x => on_run m_dwt1d_one_level (plane + x) dx ly) buf.

(** Modelled from the spec: one level of synthesis on a plane, columns
    first, then rows. *)
Definition m_idwt2d_one_level (dx plane : nat) (len_xy : nat * nat) (buf : vecd_type)
  : vecd_type :=
  let '(lx, ly) := len_xy in
  let buf := for_each lx (fun x => on_run m_idwt1d_one_level (plane + x) dx ly) buf in
  for_each ly (fun y => on_run m_idwt1d_one_level (plane + y * dx) 1 lx) buf.

(** The three axis passes over the [(lx, ly, lz)] corner of a volume with
    strides [(1, dx, dx * dy)]. *)
Definition along_x (pass : vecd_type -> vecd_type) (dx dy : nat) (len_xyz : nat * nat * nat)
  : vecd_type -> vecd_type :=
  let '(lx, ly, lz) := len_xyz in
  for_each lz (fun z => for_each ly (fun y => on_run pass (z * (dx * dy) + y * dx) 1 lx)).

Definition along_y (pass : vecd_type -> vecd_type) (dx dy : nat) (len_xyz : nat * nat * nat)
  : vecd_type -> vecd_type :=
  let '(lx, ly, lz) := len_xyz in
  for_each lz (fun z => for_each lx (fun x => on_run pass (z * (dx * dy) + x) dx ly)).

Definition along_z (pass : vecd_type -> vecd_type) (dx dy : nat) (len_xyz : nat * nat * nat)
  : vecd_type -> vecd_type :=
  let '(lx, ly, lz) := len_xyz in
  for_each ly (fun y => for_each lx (fun x => on_run pass (y * dx + x) (dx * dy) lz)).

(** Modelled from the spec: analysis applies the 1D pass along x, then y,
    then z; synthesis reverses. *)
Definition m_dwt3d_one_level (dx dy : nat) (len_xyz : nat * nat * nat) (vol : vecd_type)
  : vecd_type :=
  let vol := along_x m_dwt1d_one_level dx dy len_xyz vol in
  let vol := along_y m_dwt1d_one_level dx dy len_xyz vol in
  along_z m_dwt1d_one_level dx dy len_xyz vol.

(** Modelled from the spec: one level of synthesis on a volume, along z,
    then y, then x. *)
Definition m_idwt3d_one_level (dx dy : nat) (len_xyz : nat * nat * nat) (vol : vecd_type)
  : vecd_type :=
  let vol := along_z m_idwt1d_one_level dx dy len_xyz vol in
  let vol := along_y m_idwt1d_one_level dx dy len_xyz vol in
  along_x m_idwt1d_one_level dx dy len_xyz vol.

(** *** Level drivers *)

(** The low-pass length of an axis of length [len] after [lev] levels. *)
Definition approx_at (len : Z) (lev : nat) : nat :=
  Z.to_nat (fst (calc_approx_detail_len len (Z.of_nat lev))).

(** Levels [0, 1, ..., n-1] in analysis order, and reversed for synthesis. *)
Definition analysis_levels (n : Z) : list nat := seq 0 (Z.to_nat n).
Definition synthesis_levels (n : Z) : list nat := rev (seq 0 (Z.to_nat n)).

(** Modelled from the spec: [num_of_xforms] levels on one axis, level [k]
    on the prefix of length [L_k], [L_0 = array_len],
    [L_(k+1) = ceil (L_k / 2)]. *)
Definition m_dwt1d (array : nat) (array_len num_of_xforms : Z) (buf : vecd_type)
  : vecd_type :=
  fold_left
    (fun b lev => on_run m_dwt1d_one_level array 1 (approx_at array_len lev) b)
    (analysis_levels num_of_xforms) buf.

(** Modelled from the spec: the same schedule in reverse order with the
    synthesis pass. *)
Definition m_idwt1d (array : nat) (array_len num_of_xforms : Z) (buf : vecd_type)
  : vecd_type :=
  fold_left
    (fun b lev => on_run m_idwt1d_one_level array 1 (approx_at array_len lev) b)
    (synthesis_levels num_of_xforms) buf.

(** Modelled from the spec: [num_of_xforms] levels on the shared low-pass
    corner of a plane, both axes advancing by the ceiling rule. *)
Definition m_dwt2d (dx plane : nat) (len_xy : Z * Z) (num_of_xforms : Z) (buf : vecd_type)
  : vecd_type :=
  fold_left
    (fun b lev =>
       m_dwt2d_one_level dx plane (approx_at (fst len_xy) lev, approx_at (snd len_xy) lev) b)
    (analysis_levels num_of_xforms) buf.

(** Modelled from the spec: the 2D schedule in reverse order. *)
Definition m_idwt2d (dx plane : nat) (len_xy : Z * Z) (num_of_xforms : Z) (buf : vecd_type)
  : vecd_type :=
  fold_left
    (fun b lev =>
       m_idwt2d_one_level dx plane (approx_at (fst len_xy) lev, approx_at (snd len_xy) lev) b)
    (synthesis_levels num_of_xforms) buf.

(** The low-pass corner of a volume at level [lev]. *)
Definition corner (dims : dims_type) (lev : nat) : nat * nat * nat :=
  let '(dx, dy, dz) := dims in
  (approx_at dx lev, approx_at dy lev, approx_at dz lev).

(** Modelled from the spec: [levels] levels of the 3D one-level pass, level
    [k] on the common low-pass corner [(lx_k, ly_k, lz_k)]. *)
Definition dwt3d_levels (dims : dims_type) (levels : Z) (vol : vecd_type) : vecd_type :=
  let '(dx, dy, _) := dims in
  fold_left
    (fun v lev => m_dwt3d_one_level (Z.to_nat dx) (Z.to_nat dy) (corner dims lev) v)
    (analysis_levels levels) vol.

(** Modelled from the spec: the 3D schedule in reverse order. *)
Definition idwt3d_levels (dims : dims_type) (levels : Z) (vol : vecd_type) : vecd_type :=
  let '(dx, dy, _) := dims in
  fold_left
    (fun v lev => m_idwt3d_one_level (Z.to_nat dx) (Z.to_nat dy) (corner dims lev) v)
    (synthesis_levels levels) vol.

(** *** Input and output *)

#[local] Open Scope Z_scope.

(** The scratch sizes after ingest: the lift scratch holds
    [2 * max (dx, dy, dz)] samples, the plane scratch is empty until the
    first wavelet-packet call. *)
Definition lift_scratch (dims : dims_type) : vecd_type :=
  let '(dx, dy, dz) := dims in
  repeat 0%float (Z.to_nat (2 * Z.max (Z.max dx dy) dz)).

Definition volume (dims : dims_type) : Z :=
  let '(dx, dy, dz) := dims in dx * dy * dz.

Section Ingest.

(** The sample type of the caller and its value conversion to [double]. *)
Context {T : Type} (to_double : T -> float).

(** Modelled from the spec: [copy_data] is declared in the header only.  It
    verifies [len = dx * dy * dz], sizes the owned buffer to [len],
    value-converts each source sample and resets the scratch; a length
    mismatch is reported as [WrongDims].  The source pointer [buf] is the
    map from an offset to the sample stored there. *)
Definition copy_data (buf : nat -> T) (len : Z) (dims : dims_type) (self : t)
  : RTNType * t :=
  if negb (len =? volume dims) then (WrongDims, self)
  else
    (Good,
     {| m_data_buf := (fun i => to_double (buf i)) <$> seq 0 (Z.to_nat len);
        m_dims := dims;
        m_qcc_buf := lift_scratch dims;
        m_slice_buf := [] |}).

End Ingest.

(** Modelled from the spec: [take_data] is the same, but adopts a
    ready-made sequence of doubles, whose size is the length checked. *)
Definition take_data (buf : vecd_type) (dims : dims_type) (self : t) : RTNType * t :=
  if negb (Z.of_nat (length buf) =? volume dims) then (WrongDims, self)
  else
    (Good,
     {| m_data_buf := buf;
        m_dims := dims;
        m_qcc_buf := lift_scratch dims;
        m_slice_buf := [] |}).

(** Modelled from the spec: an immutable reference to the current doubles
    (the accessors are declared in the header only). *)
Definition view_data (self : t) : vecd_type := m_data_buf self.

(** Modelled from the spec: release hands the buffer back and clears the
    shape and the scratch. *)
Definition release_data (self : t) : vecd_type * t := (m_data_buf self, fresh).

(** Modelled from the spec: the current [(dx, dy, dz)]. *)
Definition get_dims (self : t) : dims_type := m_dims self.

(** *** Action items *)

Definition with_data (xform : vecd_type -> vecd_type) (self : t) : t :=
  {| m_data_buf := xform (m_data_buf self);
     m_dims := m_dims self;
     m_qcc_buf := m_qcc_buf self;
     m_slice_buf := m_slice_buf self |}.

(** Modelled from the spec: the plane scratch is allocated to [dx * dy]
    samples by the first wavelet-packet call and never shrunk. *)
Definition with_slice_buf (self : t) : t :=
  let '(dx, dy, _) := m_dims self in
  {| m_data_buf := m_data_buf self;
     m_dims := m_dims self;
     m_qcc_buf := m_qcc_buf self;
     m_slice_buf :=
       if (Z.of_nat (length (m_slice_buf self)) <? dx * dy)
       then repeat 0%float (Z.to_nat (dx * dy))
       else m_slice_buf self |}.

(** Modelled from the spec: the eight public transforms are declared in
    the header only.  1D runs [f(dx)] levels; 2D runs
    [min (f(dx), f(dy))] levels; 3D dyadic runs
    [min (f(dx), f(dy), f(dz))] levels, each a 3D one-level pass on the
    common low-pass corner; 3D wavelet-packet runs
    [max] of the three partition counts levels, the axis passes skipping a
    run of length 1.  [f] is [num_of_xforms]. *)
Definition dwt1d (self : t) : t :=
  let '(dx, _, _) := m_dims self in
  with_data (m_dwt1d 0 dx (num_of_xforms dx)) self.

(** Modelled from the spec: inverse 1D multi-level transform. *)
Definition idwt1d (self : t) : t :=
  let '(dx, _, _) := m_dims self in
  with_data (m_idwt1d 0 dx (num_of_xforms dx)) self.

(** Modelled from the spec: forward 2D transform, [min (f(dx), f(dy))]
    levels. *)
Definition dwt2d (self : t) : t :=
  let '(dx, dy, _) := m_dims self in
  let num_xforms_xy := Z.min (num_of_xforms dx) (num_of_xforms dy) in
  with_data (m_dwt2d (Z.to_nat dx) 0 (dx, dy) num_xforms_xy) self.

(** Modelled from the spec: inverse 2D transform. *)
Definition idwt2d (self : t) : t :=
  let '(dx, dy, _) := m_dims self in
  let num_xforms_xy := Z.min (num_of_xforms dx) (num_of_xforms dy) in
  with_data (m_idwt2d (Z.to_nat dx) 0 (dx, dy) num_xforms_xy) self.

(** Modelled from the spec: [K = min (f(dx), f(dy), f(dz))]. *)
Definition dyadic_levels (dims : dims_type) : Z :=
  let '(dx, dy, dz) := dims in
  Z.min (Z.min (num_of_xforms dx) (num_of_xforms dy)) (num_of_xforms dz).

(** Modelled from the spec: [K] is the largest of the three partition
    counts. *)
Definition packet_levels (dims : dims_type) : Z :=
  let '(dx, dy, dz) := dims in
  Z.max (Z.max (num_of_partitions dx) (num_of_partitions dy)) (num_of_partitions dz).

(** Modelled from the spec: forward 3D dyadic transform. *)
Definition dwt3d_dyadic (self : t) : t :=
  with_data (dwt3d_levels (m_dims self) (dyadic_levels (m_dims self))) self.

(** Modelled from the spec: inverse 3D dyadic transform. *)
Definition idwt3d_dyadic (self : t) : t :=
  with_data (idwt3d_levels (m_dims self) (dyadic_levels (m_dims self))) self.

(** Modelled from the spec: forward 3D wavelet-packet transform; an axis
    whose current length is 1 is left alone by the pass on its runs. *)
Definition dwt3d_wavelet_packet (self : t) : t :=
  with_data (dwt3d_levels (m_dims self) (packet_levels (m_dims self))) (with_slice_buf self).

(** Modelled from the spec: inverse 3D wavelet-packet transform. *)
Definition idwt3d_wavelet_packet (self : t) : t :=
  with_data (idwt3d_levels (m_dims self) (packet_levels (m_dims self))) (with_slice_buf self).

(** *** Sequences of transform calls on an instance *)

Inductive action : Set :=
| Dwt1d | Idwt1d
| Dwt2d | Idwt2d
| Dwt3dWaveletPacket | Idwt3dWaveletPacket
| Dwt3dDyadic | Idwt3dDyadic.

Definition perform (a : action) : t -> t :=
  match a with
  | Dwt1d => dwt1d
  | Idwt1d => idwt1d
  | Dwt2d => dwt2d
  | Idwt2d => idwt2d
  | Dwt3dWaveletPacket => dwt3d_wavelet_packet
  | Idwt3dWaveletPacket => idwt3d_wavelet_packet
  | Dwt3dDyadic => dwt3d_dyadic
  | Idwt3dDyadic => idwt3d_dyadic
  end.

Definition perform_all (actions : list action) (self : t) : t :=
  fold_left (fun s a => perform a s) actions self.

(** A loaded instance: the result of a successful ingest into any
    instance, followed by any transform calls. *)
Inductive loaded : t -> Prop :=
| loaded_copy {T : Type} (to_double : T -> float) buf len dims self0 self :
    is_size_t len ->
    copy_data to_double buf len dims self0 = (Good, self) ->
    loaded self
| loaded_take buf dims self0 self :
    take_data buf dims self0 = (Good, self) ->
    loaded self
| loaded_perform a self :
    loaded self ->
    loaded (perform a self).

End CDF97.

(** ** The transforms over any sample arithmetic

    The member functions of [CDF97] touch the samples through addition,
    multiplication, negation and the lifting constants only.  [Scheme]
    states the same passes over a sample type [D] that carries these
    operations.  At the binary64 operations it is the code of [CDF97]; at
    the real numbers it is the transform in exact arithmetic. *)

#[global] Instance R_inhabited : Inhabited R := populate 0%R.

Module Scheme.

(** The operations on samples and the six lifting constants. *)
Record arithmetic (D : Type) : Type := mk_arithmetic {
  add : D -> D -> D;
  mul : D -> D -> D;
  opp : D -> D;
  two : D;
  ALPHA : D;
  BETA : D;
  GAMMA : D;
  DELTA : D;
  EPSILON : D;
  INV_EPSILON : D }.

Arguments add {D} _ _ _.
Arguments mul {D} _ _ _.
Arguments opp {D} _ _.
Arguments two {D} _.
Arguments ALPHA {D} _.
Arguments BETA {D} _.
Arguments GAMMA {D} _.
Arguments DELTA {D} _.
Arguments EPSILON {D} _.
Arguments INV_EPSILON {D} _.

Section Passes.

Context {D : Type} `{!Inhabited D} (A : arithmetic D).

#[local] Open Scope nat_scope.

(** Modelled from the spec: gather, as [CDF97.gather_split]. *)
Definition gather_split (low_count high_count : nat) (src : list D) : list D :=
  ((fun i => src !!! (2 * i)) <$> seq 0 low_count) ++
  ((fun i => src !!! (2 * i + 1)) <$> seq 0 high_count).

(** Modelled from the spec: gather for an even length. *)
Definition m_gather_even (src : list D) : list D :=
  let len := length src in
  gather_split (len / 2) (len / 2) src.

(** Modelled from the spec: gather for an odd length. *)
Definition m_gather_odd (src : list D) : list D :=
  let len := length src in
  gather_split (len / 2 + 1) (len / 2) src.

(** Modelled from the spec: scatter, as [CDF97.scatter_split]. *)
Definition scatter_split (low_count high_count : nat) (src : list D) : list D :=
  (fun j => if Nat.even j then src !!! (j / 2) else src !!! (low_count + j / 2))
    <$> seq 0 (low_count + high_count).

(** Modelled from the spec: scatter for an even length. *)
Definition m_scatter_even (src : list D) : list D :=
  let len := length src in
  scatter_split (len / 2) (len / 2) src.

(** Modelled from the spec: scatter for an odd length. *)
Definition m_scatter_odd (src : list D) : list D :=
  let len := length src in
  scatter_split (len / 2 + 1) (len / 2) src.

(** [s[2i+1] += c * (s[2i] + s[2i+2])] for [i = 0 .. count-1]. *)
Definition predict_inner (c : D) (count : nat) (s : list D) : list D :=
  fold_left
    (fun s i =>
       let left := s !!! (2 * i) in
       let mid := s !!! (2 * i + 1) in
       let right := s !!! (2 * i + 2) in
       <[2 * i + 1 := add A mid (mul A c (add A left right))]> s)
    (seq 0 count) s.

(** [s[2i] += c * (s[2i-1] + s[2i+1])] for [i = 1 .. count]. *)
Definition update_inner (c : D) (count : nat) (s : list D) : list D :=
  fold_left
    (fun s i =>
       let left := s !!! (2 * i - 1) in
       let mid := s !!! (2 * i) in
       let right := s !!! (2 * i + 1) in
       <[2 * i := add A mid (mul A c (add A left right))]> s)
    (seq 1 count) s.

(** [s[i] += 2 * c * s[j]]. *)
Definition mirror (c : D) (i j : nat) (s : list D) : list D :=
  let mid := s !!! i in
  let neighbour := s !!! j in
  <[i := add A mid (mul A (mul A (two A) c) neighbour)]> s.

(** Modelled from the spec: the prediction stencil for an even length. *)
Definition predict_even (c : D) (n : nat) (s : list D) : list D :=
  mirror c (n - 1) (n - 2) (predict_inner c (n / 2 - 1) s).

(** Modelled from the spec: the update stencil for an even length. *)
Definition update_even (c : D) (n : nat) (s : list D) : list D :=
  update_inner c (n / 2 - 1) (mirror c 0 1 s).

(** Modelled from the spec: the prediction stencil for an odd length. *)
Definition predict_odd (c : D) (n : nat) (s : list D) : list D :=
  predict_inner c (n / 2) s.

(** Modelled from the spec: the update stencil for an odd length. *)
Definition update_odd (c : D) (n : nat) (s : list D) : list D :=
  mirror c (2 * (n / 2)) (2 * (n / 2) - 1) (update_inner c (n / 2 - 1) (mirror c 0 1 s)).

(** Even positions times [a], odd positions times [b]. *)
Definition scale (a b : D) (n : nat) (s : list D) : list D :=
  fold_left
    (fun s i =>
       let mid := s !!! i in
       let factor := if Nat.even i then a else b in
       <[i := mul A mid factor]> s)
    (seq 0 n) s.

(** Modelled from the spec: even-length analysis. *)
Definition QccWAVCDF97AnalysisSymmetricEvenEven (signal : list D) (signal_length : nat)
  : list D :=
  let n := signal_length in
  let s := predict_even (ALPHA A) n signal in
  let s := update_even (BETA A) n s in
  let s := predict_even (GAMMA A) n s in
  let s := update_even (DELTA A) n s in
  scale (INV_EPSILON A) (opp A (EPSILON A)) n s.

(** Modelled from the spec: odd-length analysis. *)
Definition QccWAVCDF97AnalysisSymmetricOddEven (signal : list D) (signal_length : nat)
  : list D :=
  let n := signal_length in
  let s := predict_odd (ALPHA A) n signal in
  let s := update_odd (BETA A) n s in
  let s := predict_odd (GAMMA A) n s in
  let s := update_odd (DELTA A) n s in
  scale (INV_EPSILON A) (opp A (EPSILON A)) n s.

(** Modelled from the spec: even-length synthesis. *)
Definition QccWAVCDF97SynthesisSymmetricEvenEven (signal : list D) (signal_length : nat)
  : list D :=
  let n := signal_length in
  let s := scale (EPSILON A) (opp A (INV_EPSILON A)) n signal in
  let s := update_even (opp A (DELTA A)) n s in
  let s := predict_even (opp A (GAMMA A)) n s in
  let s := update_even (opp A (BETA A)) n s in
  predict_even (opp A (ALPHA A)) n s.

(** Modelled from the spec: odd-length synthesis. *)
Definition QccWAVCDF97SynthesisSymmetricOddEven (signal : list D) (signal_length : nat)
  : list D :=
  let n := signal_length in
  let s := scale (EPSILON A) (opp A (INV_EPSILON A)) n signal in
  let s := update_odd (opp A (DELTA A)) n s in
  let s := predict_odd (opp A (GAMMA A)) n s in
  let s := update_odd (opp A (BETA A)) n s in
  predict_odd (opp A (ALPHA A)) n s.

(** Modelled from the spec: one level of analysis on a run. *)
Definition m_dwt1d_one_level (array : list D) : list D :=
  let array_len := length array in
  if array_len <? 2 then array
  else if Nat.even array_len
       then m_gather_even (QccWAVCDF97AnalysisSymmetricEvenEven array array_len)
       else m_gather_odd (QccWAVCDF97AnalysisSymmetricOddEven array array_len).

(** Modelled from the spec: one level of synthesis on a run. *)
Definition m_idwt1d_one_level (array : list D) : list D :=
  let array_len := length array in
  if array_len <? 2 then array
  else if Nat.even array_len
       then QccWAVCDF97SynthesisSymmetricEvenEven (m_scatter_even array) array_len
       else QccWAVCDF97SynthesisSymmetricOddEven (m_scatter_odd array) array_len.

(** The [n] samples at [start], [start + stride], ... *)
Definition read_run (buf : list D) (start stride n : nat) : list D :=
  (fun i => buf !!! (start + i * stride)) <$> seq 0 n.

(** Writing a run back in place. *)
Definition write_run (buf : list D) (start stride : nat) (run : list D) : list D :=
  fold_left (fun b i => <[start + i * stride := run !!! i]> b) (seq 0 (length run)) buf.

Definition on_run (pass : list D -> list D) (start stride n : nat) (buf : list D)
  : list D :=
  write_run buf start stride (pass (read_run buf start stride n)).

(** [for (i = 0; i < n; i++) body i] on the buffer. *)
Definition for_each (n : nat) (body : nat -> list D -> list D) (buf : list D)
  : list D :=
  fold_left (fun b i => body i b) (seq 0 n) buf.

(** Modelled from the spec: one level of analysis on a plane, rows first,
    then columns. *)
Definition m_dwt2d_one_level (dx plane : nat) (len_xy : nat * nat) (buf : list D)
  : list D :=
  let '(lx, ly) := len_xy in
  let buf := for_each ly (fun y => on_run m_dwt1d_one_level (plane + y * dx) 1 lx) buf in
  for_each lx (fun x => on_run m_dwt1d_one_level (plane + x) dx ly) buf.

(** Modelled from the spec: one level of synthesis on a plane, columns
    first, then rows. *)
Definition m_idwt2d_one_level (dx plane : nat) (len_xy : nat * nat) (buf : list D)
  : list D :=
  let '(lx, ly) := len_xy in
  let buf := for_each lx (fun x => on_run m_idwt1d_one_level (plane + x) dx ly) buf in
  for_each ly (fun y => on_run m_idwt1d_one_level (plane + y * dx) 1 lx) buf.

(** The three axis passes over the [(lx, ly, lz)] corner of a volume. *)
Definition along_x (pass : list D -> list D) (dx dy : nat) (len_xyz : nat * nat * nat)
  : list D -> list D :=
  let '(lx, ly, lz) := len_xyz in
  for_each lz (fun z => for_each ly (fun y => on_run pass (z * (dx * dy) + y * dx) 1 lx)).

Definition along_y (pass : list D -> list D) (dx dy : nat) (len_xyz : nat * nat * nat)
  : list D -> list D :=
  let '(lx, ly, lz) := len_xyz in
  for_each lz (fun z => for_each lx (fun x => on_run pass (z * (dx * dy) + x) dx ly)).

Definition along_z (pass : list D -> list D) (dx dy : nat) (len_xyz : nat * nat * nat)
  : list D -> list D :=
  let '(lx, ly, lz) := len_xyz in
  for_each ly (fun y => for_each lx (fun x => on_run pass (y * dx + x) (dx * dy) lz)).

(** Modelled from the spec: one level of analysis on a volume, along x,
    then y, then z. *)
Definition m_dwt3d_one_level (dx dy : nat) (len_xyz : nat * nat * nat) (vol : list D)
  : list D :=
  let vol := along_x m_dwt1d_one_level dx dy len_xyz vol in
  let vol := along_y m_dwt1d_one_level dx dy len_xyz vol in
  along_z m_dwt1d_one_level dx dy len_xyz vol.

(** Modelled from the spec: one level of synthesis on a volume, along z,
    then y, then x. *)
Definition m_idwt3d_one_level (dx dy : nat) (len_xyz : nat * nat * nat) (vol : list D)
  : list D :=
  let vol := along_z m_idwt1d_one_level dx dy len_xyz vol in
  let vol := along_y m_idwt1d_one_level dx dy len_xyz vol in
  along_x m_idwt1d_one_level dx dy len_xyz vol.

(** Modelled from the spec: the level schedule on one axis. *)
Definition m_dwt1d (array : nat) (array_len num_of_xforms : Z) (buf : list D)
  : list D :=
  fold_left
    (fun b lev => on_run m_dwt1d_one_level array 1 (CDF97.approx_at array_len lev) b)
    (CDF97.analysis_levels num_of_xforms) buf.

(** Modelled from the spec: the same schedule in reverse order. *)
Definition m_idwt1d (array : nat) (array_len num_of_xforms : Z) (buf : list D)
  : list D :=
  fold_left
    (fun b lev => on_run m_idwt1d_one_level array 1 (CDF97.approx_at array_len lev) b)
    (CDF97.synthesis_levels num_of_xforms) buf.

(** Modelled from the spec: the level schedule on a plane. *)
Definition m_dwt2d (dx plane : nat) (len_xy : Z * Z) (num_of_xforms : Z) (buf : list D)
  : list D :=
  fold_left
    (fun b lev =>
       m_dwt2d_one_level dx plane
         (CDF97.approx_at (fst len_xy) lev, CDF97.approx_at (snd len_xy) lev) b)
    (CDF97.analysis_levels num_of_xforms) buf.

(** Modelled from the spec: the 2D schedule in reverse order. *)
Definition m_idwt2d (dx plane : nat) (len_xy : Z * Z) (num_of_xforms : Z) (buf : list D)
  : list D :=
  fold_left
    (fun b lev =>
       m_idwt2d_one_level dx plane
         (CDF97.approx_at (fst len_xy) lev, CDF97.approx_at (snd len_xy) lev) b)
    (CDF97.synthesis_levels num_of_xforms) buf.

(** Modelled from the spec: the level schedule on a volume. *)
Definition dwt3d_levels (dims : Z * Z * Z) (levels : Z) (vol : list D) : list D :=
  let '(dx, dy, _) := dims in
  fold_left
    (fun v lev => m_dwt3d_one_level (Z.to_nat dx) (Z.to_nat dy) (CDF97.corner dims lev) v)
    (CDF97.analysis_levels levels) vol.

(** Modelled from the spec: the 3D schedule in reverse order. *)
Definition idwt3d_levels (dims : Z * Z * Z) (levels : Z) (vol : list D) : list D :=
  let '(dx, dy, _) := dims in
  fold_left
    (fun v lev => m_idwt3d_one_level (Z.to_nat dx) (Z.to_nat dy) (CDF97.corner dims lev) v)
    (CDF97.synthesis_levels levels) vol.

(** Modelled from the spec: what each of the eight transforms does to the
    data buffer of an instance of shape [dims]. *)
Definition perform (a : CDF97.action) (dims : Z * Z * Z) (buf : list D) : list D :=
  let '(dx, dy, _) := dims in
  match a with
  | CDF97.Dwt1d => m_dwt1d 0 dx (num_of_xforms dx) buf
  | CDF97.Idwt1d => m_idwt1d 0 dx (num_of_xforms dx) buf
  | CDF97.Dwt2d =>
      m_dwt2d (Z.to_nat dx) 0 (dx, dy) (Z.min (num_of_xforms dx) (num_of_xforms dy)) buf
  | CDF97.Idwt2d =>
      m_idwt2d (Z.to_nat dx) 0 (dx, dy) (Z.min (num_of_xforms dx) (num_of_xforms dy)) buf
  | CDF97.Dwt3dWaveletPacket => dwt3d_levels dims (CDF97.packet_levels dims) buf
  | CDF97.Idwt3dWaveletPacket => idwt3d_levels dims (CDF97.packet_levels dims) buf
  | CDF97.Dwt3dDyadic => dwt3d_levels dims (CDF97.dyadic_levels dims) buf
  | CDF97.Idwt3dDyadic => idwt3d_levels dims (CDF97.dyadic_levels dims) buf
  end.

End Passes.

(** The four decomposition modes with their forward and inverse calls. *)
Inductive mode : Set := OneD | TwoD | Dyadic3D | WaveletPacket3D.

Definition forward (m : mode) : CDF97.action :=
  match m with
  | OneD => CDF97.Dwt1d
  | TwoD => CDF97.Dwt2d
  | Dyadic3D => CDF97.Dwt3dDyadic
  | WaveletPacket3D => CDF97.Dwt3dWaveletPacket
  end.

Definition inverse (m : mode) : CDF97.action :=
  match m with
  | OneD => CDF97.Idwt1d
  | TwoD => CDF97.Idwt2d
  | Dyadic3D => CDF97.Idwt3dDyadic
  | WaveletPacket3D => CDF97.Idwt3dWaveletPacket
  end.

(** A valid shape: every extent is a positive [size_t]. *)
Definition valid_shape (dims : Z * Z * Z) : Prop :=
  let '(dx, dy, dz) := dims in
  (1 <= dx <= max_size) /\ (1 <= dy <= max_size) /\ (1 <= dz <= max_size).

End Scheme.

(** The arithmetic of the C++ code: binary64 with the constants of the
    header. *)
Definition binary64 : Scheme.arithmetic float :=
  {| Scheme.add := PrimFloat.add;
     Scheme.mul := PrimFloat.mul;
     Scheme.opp := PrimFloat.opp;
     Scheme.two := 2%float;
     Scheme.ALPHA := CDF97.ALPHA;
     Scheme.BETA := CDF97.BETA;
     Scheme.GAMMA := CDF97.GAMMA;
     Scheme.DELTA := CDF97.DELTA;
     Scheme.EPSILON := CDF97.EPSILON;
     Scheme.INV_EPSILON := CDF97.INV_EPSILON |}.

(** Exact arithmetic: the real numbers, the constants given by the same
    closed forms of the same decimal coefficients. *)
Module Exact.

#[local] Open Scope R_scope.

Definition h : list R :=
  [0.602949018236; 0.266864118443; -0.078223266529; -0.016864118443;
   0.026748757411].

Definition h_at (i : nat) : R := h !!! i.

Definition r0 : R := h_at 0 - 2 * h_at 4 * h_at 1 / h_at 3.
Definition r1 : R := h_at 2 - h_at 4 - h_at 4 * h_at 1 / h_at 3.
Definition s0 : R := h_at 1 - h_at 3 - h_at 3 * r0 / r1.
Definition t0 : R := h_at 0 - 2 * (h_at 2 - h_at 4).
Definition ALPHA : R := h_at 4 / h_at 3.
Definition BETA : R := h_at 3 / r1.
Definition GAMMA : R := r1 / s0.
Definition DELTA : R := s0 / t0.
Definition EPSILON : R := R_sqrt.sqrt 2 * t0.
Definition INV_EPSILON : R := 1 / EPSILON.

Definition arithmetic : Scheme.arithmetic R :=
  {| Scheme.add := Rplus;
     Scheme.mul := Rmult;
     Scheme.opp := Ropp;
     Scheme.two := 2;
     Scheme.ALPHA := ALPHA;
     Scheme.BETA := BETA;
     Scheme.GAMMA := GAMMA;
     Scheme.DELTA := DELTA;
     Scheme.EPSILON := EPSILON;
     Scheme.INV_EPSILON := INV_EPSILON |}.

End Exact.

(** ** The reconstruction tolerance of the design document

    [|x - xhat| <= 1e-10 * max (|x|, 1)] on doubles. *)
Definition within_tolerance (x xhat : float) : bool :=
  let bound := if PrimFloat.leb 1 (PrimFloat.abs x) then PrimFloat.abs x else 1%float in
  PrimFloat.leb (PrimFloat.abs (x - xhat)) (1e-10 * bound).

(** ** Vocabulary for reasoning on in-place passes *)

Section InPlace.

Context {D : Type} `{!Inhabited D}.

#[local] Open Scope nat_scope.

(** A loop that stores [g s i] at position [w i] for every [i] of [l]. *)
Definition sweep (w : nat -> nat) (g : list D -> nat -> D) (l : list nat) (s : list D)
  : list D :=
  fold_left (fun s i => <[w i := g s i]> s) l s.

(** The positions of the run of [n] samples at [start] with [stride]. *)
Definition in_run (start stride n : nat) (j : nat) : Prop :=
  exists i, i < n /\ j = start + i * stride.

(** A pass that works inside the positions [P] of the buffer: it keeps the
    length, leaves the other positions alone, and what it stores in [P]
    depends on the samples in [P] only. *)
Definition local (P : nat -> Prop) (pass : list D -> list D) : Prop :=
  (forall x, length (pass x) = length x) /\
  (forall x j, ~ P j -> pass x !!! j = x !!! j) /\
  (forall x x' j, length x = length x' -> (forall i, P i -> x !!! i = x' !!! i) ->
                  P j -> pass x !!! j = pass x' !!! j).

(** One lifting step in closed form: the sample at [j] takes the sum of
    its two neighbours, the single neighbour counted twice at an end. *)
Definition stencil (A : Scheme.arithmetic D) (c : D) (n : nat) (s : list D) (j : nat) : D :=
  if j =? 0 then Scheme.mul A (Scheme.mul A (Scheme.two A) c) (s !!! 1)
  else if j =? n - 1 then Scheme.mul A (Scheme.mul A (Scheme.two A) c) (s !!! (n - 2))
  else Scheme.mul A c (Scheme.add A (s !!! (j - 1)) (s !!! (j + 1))).

Definition lifted (A : Scheme.arithmetic D) (odd : bool) (c : D) (n : nat) (s : list D)
  (j : nat) : D :=
  if Bool.eqb (Nat.odd j) odd then Scheme.add A (s !!! j) (stencil A c n s j) else s !!! j.

(** The laws of the sample arithmetic that make every lifting step and the
    scaling undone by the step with the negated or inverted constant. *)
Definition reversible (A : Scheme.arithmetic D) : Prop :=
  (forall c x y,
      Scheme.add A (Scheme.add A x (Scheme.mul A c y)) (Scheme.mul A (Scheme.opp A c) y) = x) /\
  (forall c x y,
      Scheme.add A (Scheme.add A x (Scheme.mul A (Scheme.mul A (Scheme.two A) c) y))
        (Scheme.mul A (Scheme.mul A (Scheme.two A) (Scheme.opp A c)) y) = x) /\
  (forall x, Scheme.mul A (Scheme.mul A x (Scheme.INV_EPSILON A)) (Scheme.EPSILON A) = x) /\
  (forall x, Scheme.mul A (Scheme.mul A x (Scheme.opp A (Scheme.EPSILON A)))
               (Scheme.opp A (Scheme.INV_EPSILON A)) = x).

End InPlace.

(** ** Perfect reconstruction as the design document states it

    For a mode and an instance: every sample of the buffer comes back from
    the forward transform followed by the inverse transform within the
    tolerance. *)
Definition reconstructs_within_tolerance (m : Scheme.mode) (self : CDF97.t) : Prop :=
  Forall2 (fun x xhat => within_tolerance x xhat = true)
    (CDF97.view_data self)
    (CDF97.view_data
       (CDF97.perform (Scheme.inverse m) (CDF97.perform (Scheme.forward m) self))).

(** ** Closed forms for the helper functions *)

(** [ceil (a / b)] for a positive [b]. *)
Definition ceil_div (a b : Z) : Z := (a + b - 1) / b.

(** The total length of the high-pass parts that levels [1 .. k] split off
    an axis of length [L]. *)
Fixpoint detail_total (L : Z) (k : nat) : Z :=
  match k with
  | O => 0
  | S j => detail_total L j + snd (calc_approx_detail_len L (Z.of_nat (S j)))
  end.

(** ** [super_resolution]: the sample counts

    <<
    size_t lr_num=1;
    for(uint i=0;i<N;i++)
        lr_num+=lr_dims[i];
    ...
    size_t hr_num=lr_num*pow(scale,N);
    >>

    The calls to [system], [writefile] and [readfile] are outside the
    embedding; what is embedded is the number of samples written and the
    number read back.  As in [num_of_xforms], the [double] product is the
    real number it stands for. *)

Definition lr_num (lr_dims : list Z) : Z :=
  fold_left (fun lr_num d => wrap (lr_num + d)) lr_dims 1.

Definition hr_num (lr_dims : list Z) (scale : Z) : Z :=
  static_cast_size_t (IZR (lr_num lr_dims) * IZR scale ^ length lr_dims)%R.

(** ** The command-line driver [main] *)

Module Cli.

Definition SZ_FLOAT : Z := 0.
Definition SZ_DOUBLE : Z := 1.
Definition SZ_UINT8 : Z := 2.
Definition SZ_INT8 : Z := 3.
Definition SZ_UINT16 : Z := 4.
Definition SZ_INT16 : Z := 5.
Definition SZ_UINT32 : Z := 6.
Definition SZ_INT32 : Z := 7.
Definition SZ_UINT64 : Z := 8.
Definition SZ_INT64 : Z := 9.

(** *** C strings *)

(** [s[k]]: the character at [k], the terminating NUL at [k = strlen s];
    reading past the terminator is undefined ([None]). *)
Definition char_at (s : string) (k : nat) : option ascii :=
  match String.get k s with
  | Some c => Some c
  | None => if (k =? String.length s)%nat then Some zero else None
  end.

(** A C string holds no NUL before its terminator. *)
Fixpoint c_string (s : string) : bool :=
  match s with
  | EmptyString => true
  | String c s' => negb (Ascii.eqb c zero) && c_string s'
  end.

(** [s[0] != '-'] (index 0 is always readable). *)
Definition no_dash (s : string) : bool :=
  match char_at s 0 with
  | Some c => negb (Ascii.eqb c "-")
  | None => true
  end.

(** *** The local variables of [main] *)

Inductive ptr_var : Set :=
| inPath | cmpPath | conPath | decPath
| errBoundMode | errBound | absErrorBound | relErrorBound | pwrErrorBound
| psnrErrorBound | normErrorBound | tuningTarget.

Inductive bool_var : Set :=
| binaryOutput | compression | decompression | delCmpPath | sz2mode | qoz
| testLorenzo.

Inductive int_var : Set :=
| printCmpResults | dataType | width | r1 | r2 | r3 | r4.

Definition ptr_var_eqb (x y : ptr_var) : bool :=
  match x, y with
  | inPath, inPath | cmpPath, cmpPath | conPath, conPath | decPath, decPath
  | errBoundMode, errBoundMode | errBound, errBound
  | absErrorBound, absErrorBound | relErrorBound, relErrorBound
  | pwrErrorBound, pwrErrorBound | psnrErrorBound, psnrErrorBound
  | normErrorBound, normErrorBound | tuningTarget, tuningTarget => true
  | _, _ => false
  end.

Definition bool_var_eqb (x y : bool_var) : bool :=
  match x, y with
  | binaryOutput, binaryOutput | compression, compression
  | decompression, decompression | delCmpPath, delCmpPath
  | sz2mode, sz2mode | qoz, qoz | testLorenzo, testLorenzo => true
  | _, _ => false
  end.

Definition int_var_eqb (x y : int_var) : bool :=
  match x, y with
  | printCmpResults, printCmpResults | dataType, dataType | width, width
  | r1, r1 | r2, r2 | r3, r3 | r4, r4 => true
  | _, _ => false
  end.

(** The values of the locals; a [char *] is [None] when it is [nullptr]. *)
Record locals : Type := mk_locals {
  ptrs : ptr_var -> option string;
  bools : bool_var -> bool;
  ints : int_var -> Z }.

Definition setp (x : ptr_var) (v : option string) (st : locals) : locals :=
  mk_locals (fun y => if ptr_var_eqb x y then v else ptrs st y) (bools st) (ints st).

Definition setb (x : bool_var) (v : bool) (st : locals) : locals :=
  mk_locals (ptrs st) (fun y => if bool_var_eqb x y then v else bools st y) (ints st).

Definition seti (x : int_var) (v : Z) (st : locals) : locals :=
  mk_locals (ptrs st) (bools st) (fun y => if int_var_eqb x y then v else ints st y).

Definition is_null (x : ptr_var) (st : locals) : bool :=
  match ptrs st x with None => true | Some _ => false end.

(** The initialisers at the top of [main]. *)
Definition initial : locals :=
  mk_locals
    (fun _ => None)
    (fun x => match x with binaryOutput => true | _ => false end)
    (fun x => match x with width => -1 | dataType => SZ_FLOAT | _ => 0 end).

(** *** Outcomes *)

(** What the program prints before it exits. *)
Inductive text : Set :=
| UsageText | UsageSz2Text | VersionText
| ErrNoInput | ErrWrongMode | ErrWrongTarget | ErrUnsupportedType
| ErrNeedOriginal.

(** A step either goes on, or calls [exit(0)] after printing, or has
    undefined behaviour. *)
Inductive outcome (A : Type) : Type :=
| Continue (a : A)
| Exit0 (printed : list text)
| UndefinedBehaviour.
Arguments Continue {A} a.
Arguments Exit0 {A} printed.
Arguments UndefinedBehaviour {A}.

(** [usage()] prints the help text and exits. *)
Definition usage {A : Type} : outcome A := Exit0 [UsageText].
Definition usage_sz2 {A : Type} : outcome A := Exit0 [UsageSz2Text].

(** *** The option loop *)

(** The test at the head of the loop body,
    <<
    if (argv[i][0] != '-' || argv[i][2]) {
        if (argv[i][1] == 'h' && argv[i][2] == '2') usage_sz2(); else usage();
    }
    >>
    It lets through exactly a dash followed by one character, which it
    returns. *)
Definition option_char (arg : string) : outcome ascii :=
  let rejected : outcome ascii :=
    match char_at arg 1 with
    | None => UndefinedBehaviour
    | Some c1 =>
        if Ascii.eqb c1 "h" then
          match char_at arg 2 with
          | None => UndefinedBehaviour
          | Some c2 => if Ascii.eqb c2 "2" then usage_sz2 else usage
          end
        else usage
    end in
  if no_dash arg then rejected
  else
    match char_at arg 2 with
    | None => UndefinedBehaviour
    | Some c2 =>
        if negb (Ascii.eqb c2 zero) then rejected
        else
          match char_at arg 1 with
          | None => UndefinedBehaviour
          | Some c1 => Continue c1
          end
    end.

Section Driver.

(** [sscanf(s, "%d", &v) == 1] and [sscanf(s, "%zu", &v) == 1] with the
    value stored, [atof], and the table [QoZ::EB_STR] come from outside the
    file. *)
Context (scan_d scan_zu : string -> option Z).
Context (atof : string -> float).

Inductive EB : Set :=
| EB_ABS | EB_REL | EB_PSNR | EB_L2NORM | EB_ABS_AND_REL | EB_ABS_OR_REL.

Inductive TUNING_TARGET : Set :=
| TUNING_TARGET_RD | TUNING_TARGET_CR | TUNING_TARGET_SSIM | TUNING_TARGET_AC.

Context (EB_STR : EB -> string).

(** The body of the [for] loop over [argv[i]], [argv[i+1]], ...; [args] is
    what is left of [argv] from index [i] on. *)
Fixpoint parse_args (args : list string) (st : locals) : outcome locals :=
  match args with
  | [] => Continue st
  | arg :: rest =>
    match option_char arg with
    | UndefinedBehaviour => UndefinedBehaviour
    | Exit0 t => Exit0 t
    | Continue c =>
      match c with
      | "h"%char => usage
      | "v"%char => Exit0 [VersionText]
      | "b"%char => parse_args rest (setb binaryOutput true st)
      | "t"%char => parse_args rest (setb binaryOutput false st)
      | "a"%char => parse_args rest (seti printCmpResults 1 st)
      | "z"%char =>
          let st := setb compression true st in
          match rest with
          | [] => Continue st
          | p :: rest' =>
              if no_dash p then parse_args rest' (setp cmpPath (Some p) st)
              else parse_args rest (setp cmpPath None st)
          end
      | "x"%char =>
          let st := setb decompression true (setb sz2mode true st) in
          match rest with
          | [] => Continue st
          | p :: rest' =>
              if no_dash p then parse_args rest' (setp decPath (Some p) st)
              else parse_args rest (setp decPath None st)
          end
      | "f"%char => parse_args rest (seti dataType SZ_FLOAT st)
      | "d"%char => parse_args rest (seti dataType SZ_DOUBLE st)
      | "I"%char =>
          match rest with
          | [] => usage
          | w :: rest' =>
              match scan_d w with
              | None => usage
              | Some v =>
                  let st := seti width v st in
                  if v =? 32 then parse_args rest' (seti dataType SZ_INT32 st)
                  else if v =? 64 then parse_args rest' (seti dataType SZ_INT64 st)
                  else usage
              end
          end
      | "i"%char =>
          match rest with
          | [] => usage
          | p :: rest' => parse_args rest' (setp inPath (Some p) st)
          end
      | "q"%char => parse_args rest (setb qoz true st)
      | "l"%char => parse_args rest (setb testLorenzo true st)
      | "o"%char =>
          match rest with
          | [] => usage
          | p :: rest' => parse_args rest' (setp decPath (Some p) st)
          end
      | "s"%char =>
          let st := setb sz2mode true st in
          match rest with
          | [] => usage
          | p :: rest' => parse_args rest' (setp cmpPath (Some p) st)
          end
      | "c"%char =>
          match rest with
          | [] => usage
          | p :: rest' => parse_args rest' (setp conPath (Some p) st)
          end
      | "1"%char =>
          match rest with
          | a1 :: rest' =>
              match scan_zu a1 with
              | Some v1 => parse_args rest' (seti r1 v1 st)
              | None => usage
              end
          | _ => usage
          end
      | "2"%char =>
          match rest with
          | a1 :: a2 :: rest' =>
              match scan_zu a1, scan_zu a2 with
              | Some v1, Some v2 => parse_args rest' (seti r2 v2 (seti r1 v1 st))
              | _, _ => usage
              end
          | _ => usage
          end
      | "3"%char =>
          match rest with
          | a1 :: a2 :: a3 :: rest' =>
              match scan_zu a1, scan_zu a2, scan_zu a3 with
              | Some v1, Some v2, Some v3 =>
                  parse_args rest' (seti r3 v3 (seti r2 v2 (seti r1 v1 st)))
              | _, _, _ => usage
              end
          | _ => usage
          end
      | "4"%char =>
          match rest with
          | a1 :: a2 :: a3 :: a4 :: rest' =>
              match scan_zu a1, scan_zu a2, scan_zu a3, scan_zu a4 with
              | Some v1, Some v2, Some v3, Some v4 =>
                  parse_args rest'
                    (seti r4 v4 (seti r3 v3 (seti r2 v2 (seti r1 v1 st))))
              | _, _, _, _ => usage
              end
          | _ => usage
          end
      | "M"%char =>
          match rest with
          | [] => usage
          | m :: rest' =>
              let st := setp errBoundMode (Some m) st in
              match rest' with
              | [] => Continue st
              | e :: rest'' =>
                  if no_dash e then parse_args rest'' (setp errBound (Some e) st)
                  else parse_args rest' st
              end
          end
      | "A"%char =>
          match rest with
          | [] => usage
          | p :: rest' => parse_args rest' (setp absErrorBound (Some p) st)
          end
      | "R"%char =>
          match rest with
          | [] => usage
          | p :: rest' => parse_args rest' (setp relErrorBound (Some p) st)
          end
      | "N"%char =>
          match rest with
          | [] => usage
          | p :: rest' => parse_args rest' (setp normErrorBound (Some p) st)
          end
      | "S"%char =>
          match rest with
          | [] => usage
          | p :: rest' => parse_args rest' (setp psnrErrorBound (Some p) st)
          end
      | "T"%char =>
          match rest with
          | [] => usage
          | p :: rest' => parse_args rest' (setp tuningTarget (Some p) st)
          end
      | _ => usage
      end
    end
  end.

(** *** After the loop: what to run *)

(** <<
    if ((inPath == nullptr) && (cmpPath == nullptr)) { printf(...); usage(); exit(0); }
    if (!sz2mode && inPath != nullptr && cmpPath != nullptr) compression = true;
    if (cmpPath != nullptr && decPath != nullptr) decompression = true;
    char cmpPathTmp[1024];
    if (inPath != nullptr && cmpPath == nullptr && decPath != nullptr) {
        compression = true; decompression = true;
        sprintf(cmpPathTmp, "%s.qoz.tmp", inPath);
        cmpPath = cmpPathTmp; delCmpPath = true;
    }
    if (inPath == nullptr||errBoundMode == nullptr) compression = false;
    if (!compression && !decompression) { usage(); exit(0); }
    >>
    [sprintf] overruns the 1024-byte buffer when the path, the 8-character
    suffix and the terminator do not fit. *)
Definition cmpPathTmp_overrun (path : string) : bool :=
  (1024 <? String.length path + 9)%nat.

Definition decide_modes (st : locals) : outcome locals :=
  if is_null inPath st && is_null cmpPath st then Exit0 [ErrNoInput; UsageText]
  else
    let st :=
      if negb (bools st sz2mode) && negb (is_null inPath st) && negb (is_null cmpPath st)
      then setb compression true st else st in
    let st :=
      if negb (is_null cmpPath st) && negb (is_null decPath st)
      then setb decompression true st else st in
    let with_tmp : outcome locals :=
      match ptrs st inPath, ptrs st cmpPath, ptrs st decPath with
      | Some path, None, Some _ =>
          if cmpPathTmp_overrun path then UndefinedBehaviour
          else
            Continue
              (setb delCmpPath true
                 (setp cmpPath (Some (String.append path ".qoz.tmp"))
                    (setb decompression true (setb compression true st))))
      | _, _, _ => Continue st
      end in
    match with_tmp with
    | Continue st =>
        let st :=
          if is_null inPath st || is_null errBoundMode st
          then setb compression false st else st in
        if negb (bools st compression) && negb (bools st decompression) then usage
        else Continue st
    | other => other
    end.

(** *** The configuration *)

(** What [main] does to [conf]: the arguments of its constructor, the file
    handed to [loadcfg], and the members it assigns ([None]: left as the
    constructor or [loadcfg] set it). *)
Record Config : Type := mk_Config {
  dims : list Z;
  loadcfg : option string;
  QoZ : option Z;
  conf_testLorenzo : option Z;
  conf_relErrorBound : option float;
  conf_absErrorBound : option float;
  conf_psnrErrorBound : option float;
  l2normErrorBound : option float;
  errorBoundMode : option EB;
  conf_tuningTarget : option TUNING_TARGET }.

(** <<
    if (r2 == 0) conf = QoZ::Config(r1);
    else if (r3 == 0) conf = QoZ::Config(r2, r1);
    else if (r4 == 0) conf = QoZ::Config(r3, r2, r1);
    else conf = QoZ::Config(r4, r3, r2, r1);
    >> *)
Definition config_dims (st : locals) : list Z :=
  if ints st r2 =? 0 then [ints st r1]
  else if ints st r3 =? 0 then [ints st r2; ints st r1]
  else if ints st r4 =? 0 then [ints st r3; ints st r2; ints st r1]
  else [ints st r4; ints st r3; ints st r2; ints st r1].

(** The constructor, [loadcfg] and the two flags. *)
Definition make_config (st : locals) : Config :=
  {| dims := config_dims st;
     loadcfg := if bools st compression then ptrs st conPath else None;
     QoZ := if bools st qoz then Some 1 else None;
     conf_testLorenzo := if bools st testLorenzo then Some 1 else None;
     conf_relErrorBound := None;
     conf_absErrorBound := None;
     conf_psnrErrorBound := None;
     l2normErrorBound := None;
     errorBoundMode := None;
     conf_tuningTarget := None |}.

(** [if (p != nullptr) member = atof(p);] *)
Definition assign_atof (p : option string) (member : option float) : option float :=
  match p with
  | Some s => Some (atof s)
  | None => member
  end.

(** The block [if (errBoundMode != nullptr) { ... }]: first the bounds given
    by [-R], [-A], [-S], [-N], then the mode and the bound that followed
    [-M]. *)
Definition set_error_bound (st : locals) (conf : Config) : outcome Config :=
  match ptrs st errBoundMode with
  | None => Continue conf
  | Some mode =>
      let rel := assign_atof (ptrs st relErrorBound) (conf_relErrorBound conf) in
      let abs := assign_atof (ptrs st absErrorBound) (conf_absErrorBound conf) in
      let psnr := assign_atof (ptrs st psnrErrorBound) (conf_psnrErrorBound conf) in
      let norm := assign_atof (ptrs st normErrorBound) (l2normErrorBound conf) in
      let bound := ptrs st errBound in
      let finish rel abs psnr norm eb :=
        Continue
          {| dims := dims conf;
             loadcfg := loadcfg conf;
             QoZ := QoZ conf;
             conf_testLorenzo := conf_testLorenzo conf;
             conf_relErrorBound := rel;
             conf_absErrorBound := abs;
             conf_psnrErrorBound := psnr;
             l2normErrorBound := norm;
             errorBoundMode := Some eb;
             conf_tuningTarget := conf_tuningTarget conf |} in
      if String.eqb mode (EB_STR EB_ABS) then
        finish rel (assign_atof bound abs) psnr norm EB_ABS
      else if String.eqb mode (EB_STR EB_REL) || String.eqb mode "VR_REL" then
        finish (assign_atof bound rel) abs psnr norm EB_REL
      else if String.eqb mode (EB_STR EB_PSNR) then
        finish rel abs (assign_atof bound psnr) norm EB_PSNR
      else if String.eqb mode (EB_STR EB_L2NORM) then
        finish rel abs psnr (assign_atof bound norm) EB_L2NORM
      else if String.eqb mode (EB_STR EB_ABS_AND_REL) then
        finish rel abs psnr norm EB_ABS_AND_REL
      else if String.eqb mode (EB_STR EB_ABS_OR_REL) then
        finish rel abs psnr norm EB_ABS_OR_REL
      else Exit0 [ErrWrongMode; UsageText]
  end.

(** The block [if (tuningTarget != nullptr) { ... }]. *)
Definition set_tuning_target (st : locals) (conf : Config) : outcome Config :=
  match ptrs st tuningTarget with
  | None => Continue conf
  | Some target =>
      let finish tt :=
        Continue
          {| dims := dims conf;
             loadcfg := loadcfg conf;
             QoZ := QoZ conf;
             conf_testLorenzo := conf_testLorenzo conf;
             conf_relErrorBound := conf_relErrorBound conf;
             conf_absErrorBound := conf_absErrorBound conf;
             conf_psnrErrorBound := conf_psnrErrorBound conf;
             l2normErrorBound := l2normErrorBound conf;
             errorBoundMode := errorBoundMode conf;
             conf_tuningTarget := Some tt |} in
      if String.eqb target "PSNR" then finish TUNING_TARGET_RD
      else if String.eqb target "CR" then finish TUNING_TARGET_CR
      else if String.eqb target "SSIM" then finish TUNING_TARGET_SSIM
      else if String.eqb target "AC" then finish TUNING_TARGET_AC
      else Exit0 [ErrWrongTarget; UsageText]
  end.

(** *** Running the compressor *)

(** The calls [main] makes: [compress<T>] and [decompress<T>], the type [T]
    given by the value of [dataType], and [remove]. *)
Inductive action : Type :=
| Compress (type : Z) (inPath cmpPath : option string) (conf : Config)
| Decompress (type : Z) (inPath cmpPath decPath : option string) (conf : Config)
    (binaryOutput : bool) (printCmpResults : Z)
| Remove (path : option string).

(** How [main] ends. *)
Inductive ending : Type :=
| Returned
| Exited (printed : list text)
| Undefined.

(** The types the two dispatch chains know. *)
Definition supported (type : Z) : bool :=
  (type =? SZ_FLOAT) || (type =? SZ_DOUBLE) || (type =? SZ_INT32) || (type =? SZ_INT64).

(** The two blocks [if (compression) { ... }], [if (decompression) { ... }]
    and the final [remove]. *)
Definition dispatch (st : locals) (conf : Config) : list action * ending :=
  let type := ints st dataType in
  let after_compress : list action * ending :=
    if bools st compression then
      if supported type
      then ([Compress type (ptrs st inPath) (ptrs st cmpPath) conf], Returned)
      else ([], Exited [ErrUnsupportedType; UsageText])
    else ([], Returned) in
  match after_compress with
  | (done, Returned) =>
      if bools st decompression then
        if negb (ints st printCmpResults =? 0) && is_null inPath st
        then (done, Exited [ErrNeedOriginal])
        else if supported type then
          let decompress :=
            Decompress type (ptrs st inPath) (ptrs st cmpPath) (ptrs st decPath) conf
              (bools st binaryOutput) (ints st printCmpResults) in
          (done ++ [decompress] ++
             (if bools st delCmpPath then [Remove (ptrs st cmpPath)] else []),
           Returned)
        else (done, Exited [ErrUnsupportedType; UsageText])
      else
        (done ++ (if bools st delCmpPath then [Remove (ptrs st cmpPath)] else []),
         Returned)
  | stopped => stopped
  end.

(** [main]: [argv] is the argument vector, [argc] its length. *)
Definition main (argv : list string) : list action * ending :=
  match argv with
  | [_] => ([], Exited [UsageText])
  | _ =>
    match parse_args (tl argv) initial with
    | UndefinedBehaviour => ([], Undefined)
    | Exit0 t => ([], Exited t)
    | Continue st =>
      match decide_modes st with
      | UndefinedBehaviour => ([], Undefined)
      | Exit0 t => ([], Exited t)
      | Continue st =>
        match set_error_bound st (make_config st) with
        | UndefinedBehaviour => ([], Undefined)
        | Exit0 t => ([], Exited t)
        | Continue conf =>
          match set_tuning_target st conf with
          | UndefinedBehaviour => ([], Undefined)
          | Exit0 t => ([], Exited t)
          | Continue conf => dispatch st conf
          end
        end
      end
    end
  end.

End Driver.

(** *** Stand-ins for evaluating [main] on concrete command lines *)

(** The mode names as the help text of the program lists them. *)
Definition sample_EB_STR (eb : EB) : string :=
  match eb with
  | EB_ABS => "ABS"
  | EB_REL => "REL"
  | EB_PSNR => "PSNR"
  | EB_L2NORM => "NORM"
  | EB_ABS_AND_REL => "ABS_AND_REL"
  | EB_ABS_OR_REL => "ABS_OR_REL"
  end.

(** The value of a string of decimal digits, on which [sscanf] with [%d] or
    [%zu] stores that value and returns 1; [None] on any other string. *)
Fixpoint scan_digits (s : string) (acc : Z) : option Z :=
  match s with
  | EmptyString => Some acc
  | String c s' =>
      let d := Z.of_N (N_of_ascii c) - 48 in
      if (0 <=? d) && (d <=? 9) then scan_digits s' (10 * acc + d) else None
  end.

Definition sample_scan (s : string) : option Z :=
  match s with
  | EmptyString => None
  | _ => scan_digits s 0
  end.

End Cli.

(** ** Proof automation *)


(* ===================================================================== *)
(** * Part II. Properties                                                 *)
(* ===================================================================== *)

(** ** Arithmetic of one halving step *)

Lemma wrap_small z : is_size_t z -> wrap z = z.
Proof. unfold is_size_t, max_size, wrap. intros H. apply Z.mod_small. lia. Qed.

Lemma halve_ceil a : halve a = ceil_half a.
Proof.
  unfold halve, ceil_half.
  pose proof (Z.div_mod a 2 ltac:(lia)) as Ha.
  pose proof (Z.mod_pos_bound a 2 ltac:(lia)) as Hb.
  pose proof (Z.div_mod (a + 1) 2 ltac:(lia)) as Hc.
  pose proof (Z.mod_pos_bound (a + 1) 2 ltac:(lia)) as Hd.
  lia.
Qed.

Lemma halve_bounds a : 1 <= a -> 1 <= halve a <= a.
Proof.
  intros H. unfold halve.
  pose proof (Z.div_mod a 2 ltac:(lia)).
  pose proof (Z.mod_pos_bound a 2 ltac:(lia)). lia.
Qed.

Lemma halve_decreases a : 1 < a -> 0 < halve a < a.
Proof.
  intros H. unfold halve.
  pose proof (Z.div_mod a 2 ltac:(lia)).
  pose proof (Z.mod_pos_bound a 2 ltac:(lia)). lia.
Qed.

Lemma halve_pow2 a (k : nat) :
  0 <= a <= 2 ^ Z.of_nat (S k) -> 0 <= halve a <= 2 ^ Z.of_nat k.
Proof.
  intros H. unfold halve.
  replace (Z.of_nat (S k)) with (Z.of_nat k + 1) in H by lia.
  rewrite Z.pow_add_r in H by lia. change (2 ^ 1) with 2 in H.
  pose proof (Z.div_mod a 2 ltac:(lia)).
  pose proof (Z.mod_pos_bound a 2 ltac:(lia)). lia.
Qed.

Lemma wrap_halve a : is_size_t a -> wrap (a - a / 2) = halve a /\ is_size_t (halve a).
Proof.
  intros H. assert (Hs : is_size_t (halve a)).
  { unfold is_size_t in *. unfold halve.
    pose proof (Z.div_mod a 2 ltac:(lia)).
    pose proof (Z.mod_pos_bound a 2 ltac:(lia)). lia. }
  split; [apply (wrap_small _ Hs) | exact Hs].
Qed.

(** ** The partition loop *)

Lemma approx_len_iter L i : approx_len L i = Nat.iter i halve L.
Proof. induction i as [|i IH]; simpl; [reflexivity | now rewrite IH]. Qed.

Lemma iter_halve_shift n L : Nat.iter (S n) halve L = Nat.iter n halve (halve L).
Proof. induction n as [|n IH]; [reflexivity |]. simpl in *. now rewrite IH. Qed.

Lemma num_of_partitions_loop_done len parts :
  len <= 1 -> num_of_partitions_loop len parts = parts.
Proof.
  intros H. simp num_of_partitions_loop.
  destruct (Z_lt_dec 1 len); [lia | reflexivity].
Qed.

Lemma num_of_partitions_loop_more len parts :
  1 < len ->
  num_of_partitions_loop len parts =
  num_of_partitions_loop (wrap (len - len / 2)) (wrap (parts + 1)).
Proof.
  intros H. rewrite num_of_partitions_loop_equation_1.
  destruct (Z_lt_dec 1 len); [reflexivity | lia].
Qed.

(** With [len <= 2^k] the loop runs [n <= k] times, [n] being the first
    index at which the halving sequence is at most 1, and adds [n] to the
    counter. *)
Lemma num_of_partitions_loop_spec (k : nat) : forall len parts,
  0 <= len <= 2 ^ Z.of_nat k -> is_size_t len ->
  0 <= parts -> parts + Z.of_nat k <= max_size ->
  exists n : nat,
    (n <= k)%nat /\
    num_of_partitions_loop len parts = parts + Z.of_nat n /\
    Nat.iter n halve len <= 1 /\
    (forall m, (m < n)%nat -> 1 < Nat.iter m halve len).
Proof.
  induction k as [|k IH]; intros len parts Hlen Hsz Hp Hk.
  - exists O. simpl in Hlen. rewrite num_of_partitions_loop_done by lia.
    repeat split; simpl; try lia.
  - destruct (Z_lt_dec 1 len) as [Hgt|Hle].
    + destruct (wrap_halve len Hsz) as [Hw Hs].
      rewrite num_of_partitions_loop_more by assumption.
      rewrite Hw, (wrap_small (parts + 1)) by (unfold is_size_t; lia).
      destruct (IH (halve len) (parts + 1)) as (n & Hn & Hrun & Hstop & Hbefore);
        [apply halve_pow2; lia | assumption | lia | lia |].
      exists (S n). rewrite Hrun, iter_halve_shift.
      repeat split; [lia | lia | assumption |].
      intros [|m] Hm; [simpl; lia |].
      rewrite iter_halve_shift. apply Hbefore. lia.
    + exists O. rewrite num_of_partitions_loop_done by lia.
      repeat split; simpl; lia.
Qed.

Lemma num_of_partitions_spec len :
  is_size_t len ->
  exists n : nat,
    (n <= 64)%nat /\
    num_of_partitions len = Z.of_nat n /\
    Nat.iter n halve len <= 1 /\
    (forall m, (m < n)%nat -> 1 < Nat.iter m halve len).
Proof.
  intros Hsz. unfold num_of_partitions.
  destruct (num_of_partitions_loop_spec 64 len 0) as (n & H1 & H2 & H3 & H4);
    try assumption; try (unfold is_size_t, max_size in *; simpl; lia).
  exists n. rewrite H2. repeat split; try assumption. 
Qed.

Lemma partition_loop_unfold s :
  num_of_partitions_loop (fst s) (snd s) =
  if partition_guard s
  then num_of_partitions_loop (fst (partition_body s)) (snd (partition_body s))
  else snd s.
Proof.
  unfold partition_guard. destruct (Z.ltb_spec 1 (fst s)).
  - now rewrite num_of_partitions_loop_more.
  - now rewrite num_of_partitions_loop_done.
Qed.

Lemma iter_body_shift n s :
  Nat.iter (S n) partition_body s = Nat.iter n partition_body (partition_body s).
Proof. induction n as [|n IH]; [reflexivity |]. simpl in *. now rewrite IH. Qed.

(** The function value is the counter of the first state, along the
    iterates of the loop body, in which the guard fails. *)
Lemma partition_run (k : nat) : forall s,
  0 <= fst s <= 2 ^ Z.of_nat k -> is_size_t (fst s) ->
  exists n : nat,
    (n <= k)%nat /\
    partition_guard (Nat.iter n partition_body s) = false /\
    (forall m, (m < n)%nat -> partition_guard (Nat.iter m partition_body s) = true) /\
    num_of_partitions_loop (fst s) (snd s) = snd (Nat.iter n partition_body s).
Proof.
  induction k as [|k IH]; intros s Hlen Hsz.
  - exists O. simpl in Hlen. rewrite partition_loop_unfold.
    assert (Hg : partition_guard s = false) by (apply Z.ltb_ge; lia).
    rewrite Hg. repeat split; simpl; try assumption; lia.
  - rewrite partition_loop_unfold.
    destruct (partition_guard s) eqn:Hg.
    + apply Z.ltb_lt in Hg.
      destruct (wrap_halve (fst s) Hsz) as [Hw Hs].
      destruct (IH (partition_body s)) as (n & Hn & Hstop & Hbefore & Hrun).
      { simpl. rewrite Hw. apply halve_pow2. lia. }
      { simpl. now rewrite Hw. }
      exists (S n). rewrite !iter_body_shift.
      repeat split; [lia | assumption | | assumption].
      intros [|m] Hm; [simpl; apply Z.ltb_lt; lia |].
      rewrite iter_body_shift. apply Hbefore. lia.
    + exists O. repeat split; simpl; try assumption; lia.
Qed.

Lemma partition_step_wf : well_founded partition_step.
Proof.
  apply (well_founded_lt_compat _ (fun s => Z.to_nat (fst s))).
  intros s' s [Hg ->]. apply Z.ltb_lt in Hg. simpl.
  unfold wrap.
  pose proof (halve_decreases (fst s) Hg) as Hd. unfold halve in Hd.
  pose proof (Z.mod_le (fst s - fst s / 2) (2 ^ 64)).
  pose proof (Z.mod_pos_bound (fst s - fst s / 2) (2 ^ 64)).
  lia.
Qed.

(** ** The sub-band length loop *)

Lemma approx_len_shift L n : approx_len (halve L) n = approx_len L (S n).
Proof. now rewrite !approx_len_iter, iter_halve_shift. Qed.

Lemma approx_len_size L n : is_size_t L -> is_size_t (approx_len L n).
Proof.
  intros H. induction n as [|n IH]; [assumption |].
  simpl. apply (wrap_halve _ IH).
Qed.

Lemma approx_len_pos L n : 1 <= L -> 1 <= approx_len L n.
Proof.
  intros H. induction n as [|n IH]; [assumption |].
  simpl. apply (halve_bounds _ IH).
Qed.

Lemma approx_len_one n : approx_len 1 n = 1.
Proof. induction n as [|n IH]; [reflexivity |]. simpl. now rewrite IH. Qed.

Lemma calc_approx_detail_len_loop_spec n : forall low high,
  is_size_t low ->
  calc_approx_detail_len_loop n low high =
  (approx_len low n, match n with O => high | S j => approx_len low j / 2 end).
Proof.
  induction n as [|n IH]; intros low high Hsz; [reflexivity |].
  destruct (wrap_halve low Hsz) as [Hw Hs].
  cbn [calc_approx_detail_len_loop]. rewrite Hw, IH by assumption.
  rewrite approx_len_shift. f_equal.
  destruct n as [|n]; [reflexivity |]. now rewrite approx_len_shift.
Qed.

Lemma calc_approx_detail_len_spec L k :
  is_size_t L ->
  calc_approx_detail_len L k = (approx_len L (Z.to_nat k), detail_len L (Z.to_nat k)).
Proof.
  intros H. unfold calc_approx_detail_len.
  now rewrite calc_approx_detail_len_loop_spec.
Qed.

(** ** Claims on the level bookkeeping *)

(** Claim C3. For every original axis length [L] and level count [k],
    [calc_approx_detail_len L k] is the pair [(a_k, d_k)] of the recurrence
    [a_0 = L], [d_0 = 0], [d_(i+1) = floor (a_i / 2)],
    [a_(i+1) = a_i - d_(i+1) = ceil (a_i / 2)]; after one level an axis of
    length [L] splits into a low-pass prefix of length [ceil (L / 2)] and a
    high-pass suffix of length [floor (L / 2)]. *)
Theorem calc_approx_detail_len_recurrence (L k : Z) :
  is_size_t L -> is_size_t k ->
  calc_approx_detail_len L k = (approx_len L (Z.to_nat k), detail_len L (Z.to_nat k)) /\
  (forall i : nat,
      detail_len L (S i) = approx_len L i / 2 /\
      approx_len L (S i) = approx_len L i - detail_len L (S i) /\
      approx_len L (S i) = ceil_half (approx_len L i)) /\
  calc_approx_detail_len L 1 = (ceil_half L, L / 2).
Proof.
  intros HL Hk. split; [| split].
  - now apply calc_approx_detail_len_spec.
  - intros i. repeat split. simpl. apply halve_ceil.
  - rewrite calc_approx_detail_len_spec by assumption.
    simpl. now rewrite <- halve_ceil.
Qed.

Lemma calc_approx_detail_len_recurrence_witness :
  is_size_t 17 /\ is_size_t 3 /\ calc_approx_detail_len 17 3 = (3, 2).
Proof.
  assert (H17 : is_size_t 17) by (unfold is_size_t, max_size; lia).
  assert (H3 : is_size_t 3) by (unfold is_size_t, max_size; lia).
  split; [exact H17 | split; [exact H3 |]].
  destruct (calc_approx_detail_len_recurrence 17 3 H17 H3) as [Heq _].
  rewrite Heq. reflexivity.
Defined.

(** Claim C4. For every axis length [L], [num_of_partitions L] is the number
    of iterations of the step [L <- L - floor (L / 2)] needed until
    [L <= 1]: after that many steps the length is at most 1, after fewer it
    still exceeds 1; in particular it is 0 for [L <= 1]. *)
Theorem num_of_partitions_counts_halvings (L : Z) :
  is_size_t L ->
  0 <= num_of_partitions L /\
  Nat.iter (Z.to_nat (num_of_partitions L)) halve L <= 1 /\
  (forall m : nat, (m < Z.to_nat (num_of_partitions L))%nat -> 1 < Nat.iter m halve L) /\
  (L <= 1 -> num_of_partitions L = 0).
Proof.
  intros HL.
  destruct (num_of_partitions_spec L HL) as (n & Hn & Hrun & Hstop & Hbefore).
  rewrite Hrun, Nat2Z.id. repeat split; try assumption; try lia.
  intros Hle. destruct n as [|n]; [reflexivity |].
  specialize (Hbefore O ltac:(lia)). simpl in Hbefore. lia.
Qed.

Lemma num_of_partitions_counts_halvings_witness :
  is_size_t 5 /\ num_of_partitions 5 = 3 /\
  Nat.iter (Z.to_nat (num_of_partitions 5)) halve 5 <= 1.
Proof.
  assert (H5 : is_size_t 5) by (unfold is_size_t, max_size; lia).
  split; [exact H5 | split; [reflexivity |]].
  apply (num_of_partitions_counts_halvings 5 H5).
Defined.

(** Claim C9. [num_of_partitions] terminates for every [size_t] input: the
    step relation of its loop is well founded, because whenever the guard
    [len > 1] holds the body strictly decreases [len]; the guard fails after
    at most 64 iterations of the body and the counter reached there is the
    value returned.  For [len = 0] and [len = 1] that value is 0. *)
Theorem num_of_partitions_terminates (len : Z) :
  is_size_t len ->
  Acc partition_step (len, 0) /\
  (forall parts, partition_guard (len, parts) = true ->
                 0 <= fst (partition_body (len, parts)) < len) /\
  (exists n : nat,
      (n <= 64)%nat /\
      partition_guard (Nat.iter n partition_body (len, 0)) = false /\
      (forall m, (m < n)%nat ->
                 partition_guard (Nat.iter m partition_body (len, 0)) = true) /\
      num_of_partitions len = snd (Nat.iter n partition_body (len, 0))) /\
  num_of_partitions 0 = 0 /\ num_of_partitions 1 = 0.
Proof.
  intros Hsz. split; [apply partition_step_wf | split; [| split]].
  - intros parts Hg. apply Z.ltb_lt in Hg. simpl in *.
    destruct (wrap_halve len Hsz) as [-> _].
    pose proof (halve_decreases len Hg). lia.
  - apply (partition_run 64 (len, 0)); simpl; [| assumption].
    unfold is_size_t, max_size in Hsz. lia.
  - split; reflexivity.
Qed.

Lemma num_of_partitions_terminates_witness :
  is_size_t 1000 /\ Acc partition_step (1000, 0) /\ num_of_partitions 1000 = 10.
Proof.
  assert (H : is_size_t 1000) by (unfold is_size_t, max_size; lia).
  split; [exact H | split; [| reflexivity]].
  apply (num_of_partitions_terminates 1000 H).
Defined.

(** Claim C10. For every axis length [L >= 1]:
    [calc_approx_detail_len L 0 = (L, 0)]; the low-pass length returned by
    [calc_approx_detail_len L k] is at least 1 for every [k]; after exactly
    [num_of_partitions L] levels the low-pass length is 1; and length 1 is a
    fixed point, [calc_approx_detail_len 1 k = (1, 0)] for every [k]. *)
Theorem calc_approx_detail_len_partitions (L : Z) :
  1 <= L <= max_size ->
  calc_approx_detail_len L 0 = (L, 0) /\
  (forall k, 1 <= fst (calc_approx_detail_len L k)) /\
  fst (calc_approx_detail_len L (num_of_partitions L)) = 1 /\
  (forall k, calc_approx_detail_len 1 k = (1, 0)).
Proof.
  intros HL.
  assert (Hsz : is_size_t L) by (unfold is_size_t; lia).
  split; [reflexivity | split; [| split]].
  - intros k. rewrite calc_approx_detail_len_spec by assumption.
    simpl. apply approx_len_pos. lia.
  - rewrite calc_approx_detail_len_spec by assumption. simpl.
    destruct (num_of_partitions_spec L Hsz) as (n & _ & Hrun & Hstop & _).
    rewrite Hrun, Nat2Z.id. rewrite <- approx_len_iter in Hstop.
    pose proof (approx_len_pos L n ltac:(lia)).
    lia.
  - intros k. rewrite calc_approx_detail_len_spec
      by (unfold is_size_t, max_size; lia).
    rewrite approx_len_one. f_equal.
    destruct (Z.to_nat k) as [|j]; [reflexivity |].
    simpl. now rewrite approx_len_one.
Qed.

Lemma calc_approx_detail_len_partitions_witness :
  1 <= 12 <= max_size /\
  fst (calc_approx_detail_len 12 (num_of_partitions 12)) = 1.
Proof.
  assert (H : 1 <= 12 <= max_size) by (unfold max_size; lia).
  split; [exact H |].
  apply (calc_approx_detail_len_partitions 12 H).
Defined.

(** ** Gather and scatter *)

Section GatherScatter.

#[local] Open Scope nat_scope.

Lemma even_half j : Nat.even j = true -> 2 * (j / 2) = j.
Proof.
  intros H. apply Nat.even_spec in H. destruct H as [k ->].
  rewrite (Nat.mul_comm 2 k), Nat.div_mul by lia. lia.
Qed.

Lemma odd_half j : Nat.even j = false -> 2 * (j / 2) + 1 = j.
Proof.
  intros H. assert (Ho : Nat.odd j = true) by (unfold Nat.odd; now rewrite H).
  apply Nat.odd_spec in Ho. destruct Ho as [k ->].
  replace (2 * k + 1) with (1 + k * 2) by lia.
  rewrite Nat.div_add by lia. simpl. lia.
Qed.

Lemma even_double i : Nat.even (2 * i) = true.
Proof. apply Nat.even_spec. now exists i. Qed.

Lemma even_double_succ i : Nat.even (2 * i + 1) = false.
Proof.
  assert (H : Nat.odd (2 * i + 1) = true) by (apply Nat.odd_spec; now exists i).
  unfold Nat.odd in H. now destruct (Nat.even (2 * i + 1)).
Qed.

Lemma half_double i : 2 * i / 2 = i.
Proof. rewrite (Nat.mul_comm 2 i). apply Nat.div_mul. lia. Qed.

Lemma half_double_succ i : (2 * i + 1) / 2 = i.
Proof.
  replace (2 * i + 1) with (1 + i * 2) by lia.
  rewrite Nat.div_add by lia. reflexivity.
Qed.

Lemma split_point n : (n + 1) / 2 + n / 2 = n.
Proof.
  destruct (Nat.even n) eqn:He.
  - pose proof (even_half n He) as H. rewrite <- H at 1.
    rewrite half_double_succ. lia.
  - pose proof (odd_half n He) as H.
    assert (H2 : n + 1 = 2 * (n / 2 + 1)) by lia.
    rewrite H2 at 1. rewrite half_double. lia.
Qed.

Lemma split_point_near n : n / 2 <= (n + 1) / 2 <= n / 2 + 1.
Proof.
  pose proof (split_point n). destruct (Nat.even n) eqn:He.
  - pose proof (even_half n He). lia.
  - pose proof (odd_half n He). lia.
Qed.

Lemma split_point_even n : Nat.even n = true -> (n + 1) / 2 = n / 2.
Proof. intros He. pose proof (split_point n). pose proof (even_half n He). lia. Qed.

Lemma split_point_odd n : Nat.even n = false -> (n + 1) / 2 = n / 2 + 1.
Proof. intros He. pose proof (split_point n). pose proof (odd_half n He). lia. Qed.

Lemma gather_unfold src :
  CDF97.gather src =
  CDF97.gather_split ((length src + 1) / 2) (length src / 2) src.
Proof.
  unfold CDF97.gather, CDF97.m_gather_even, CDF97.m_gather_odd.
  destruct (Nat.even (length src)) eqn:He; cbv zeta.
  - now rewrite split_point_even.
  - now rewrite split_point_odd.
Qed.

Lemma scatter_unfold src :
  CDF97.scatter src =
  CDF97.scatter_split ((length src + 1) / 2) (length src / 2) src.
Proof.
  unfold CDF97.scatter, CDF97.m_scatter_even, CDF97.m_scatter_odd.
  destruct (Nat.even (length src)) eqn:He; cbv zeta.
  - now rewrite split_point_even.
  - now rewrite split_point_odd.
Qed.

Lemma length_gather_split low high src :
  length (CDF97.gather_split low high src) = low + high.
Proof.
  unfold CDF97.gather_split.
  now rewrite length_app, !length_fmap, !length_seq.
Qed.

Lemma length_scatter_split low high src :
  length (CDF97.scatter_split low high src) = low + high.
Proof. unfold CDF97.scatter_split. now rewrite length_fmap, length_seq. Qed.

Lemma lookup_gather_low low high src i :
  i < low -> CDF97.gather_split low high src !! i = Some (src !!! (2 * i)).
Proof.
  intros Hi. unfold CDF97.gather_split.
  rewrite lookup_app_l by (now rewrite length_fmap, length_seq).
  rewrite list_lookup_fmap, lookup_seq_lt by assumption. reflexivity.
Qed.

Lemma lookup_gather_high low high src i :
  i < high -> CDF97.gather_split low high src !! (low + i) = Some (src !!! (2 * i + 1)).
Proof.
  intros Hi. unfold CDF97.gather_split.
  rewrite lookup_app_r by (rewrite length_fmap, length_seq; lia).
  rewrite length_fmap, length_seq.
  replace (low + i - low) with i by lia.
  rewrite list_lookup_fmap, lookup_seq_lt by assumption. reflexivity.
Qed.

Lemma lookup_scatter low high src j :
  j < low + high ->
  CDF97.scatter_split low high src !! j =
  Some (if Nat.even j then src !!! (j / 2) else src !!! (low + j / 2)).
Proof.
  intros Hj. unfold CDF97.scatter_split.
  rewrite list_lookup_fmap, lookup_seq_lt by assumption. reflexivity.
Qed.

Lemma total_of_lookup (l : list float) i x : l !! i = Some x -> l !!! i = x.
Proof. intros H. now apply list_lookup_total_correct. Qed.

Lemma scatter_gather_split low high src :
  low = (length src + 1) / 2 -> high = length src / 2 ->
  CDF97.scatter_split low high (CDF97.gather_split low high src) = src.
Proof.
  intros Hlow Hhigh. pose proof (split_point (length src)) as Hn.
  pose proof (split_point_near (length src)) as Hnear.
  apply (list_eq_same_length _ _ (length src));
    [reflexivity | rewrite length_scatter_split; lia |].
  intros j x y Hj Hx Hy.
  rewrite lookup_scatter in Hx by lia.
  apply total_of_lookup in Hy. subst y.
  apply (inj Some) in Hx. subst x.
  destruct (Nat.even j) eqn:He.
  - pose proof (even_half j He) as Hh.
    rewrite (total_of_lookup _ _ _ (lookup_gather_low low high src (j / 2) ltac:(lia))).
    now rewrite Hh.
  - pose proof (odd_half j He) as Hh.
    rewrite (total_of_lookup _ _ _ (lookup_gather_high low high src (j / 2) ltac:(lia))).
    now rewrite Hh.
Qed.

Lemma gather_scatter_split low high src :
  low = (length src + 1) / 2 -> high = length src / 2 ->
  CDF97.gather_split low high (CDF97.scatter_split low high src) = src.
Proof.
  intros Hlow Hhigh. pose proof (split_point (length src)) as Hn.
  pose proof (split_point_near (length src)) as Hnear.
  apply (list_eq_same_length _ _ (length src));
    [reflexivity | rewrite length_gather_split; lia |].
  intros i x y Hi Hx Hy.
  apply total_of_lookup in Hy. subst y.
  destruct (Nat.lt_ge_cases i low) as [Hlt|Hge].
  - rewrite lookup_gather_low in Hx by assumption. apply (inj Some) in Hx. subst x.
    rewrite (total_of_lookup _ _ _ (lookup_scatter low high src (2 * i) ltac:(lia))).
    now rewrite even_double, half_double.
  - replace i with (low + (i - low)) in Hx by lia.
    rewrite lookup_gather_high in Hx by lia. apply (inj Some) in Hx. subst x.
    rewrite (total_of_lookup _ _ _
               (lookup_scatter low high src (2 * (i - low) + 1) ltac:(lia))).
    rewrite even_double_succ, half_double_succ. f_equal. lia.
Qed.

End GatherScatter.

(** Claim C8. For every source range of length [n], gather places the
    even-indexed source elements, in their order, at the destination
    positions [0, ceil (n / 2)) and the odd-indexed ones, in their order, at
    [ceil (n / 2), n); scatter sends the positions [0, ceil (n / 2)) to the
    even indices and the rest to the odd indices; scatter after gather and
    gather after scatter both restore the original sequence exactly. *)
Theorem gather_scatter_inverse (src : list float) :
  let n := length src in
  let split := ((n + 1) / 2)%nat in
  length (CDF97.gather src) = n /\
  (forall i, (2 * i < n)%nat ->
             (i < split)%nat /\ CDF97.gather src !! i = src !! (2 * i)%nat) /\
  (forall i, (2 * i + 1 < n)%nat ->
             (split <= split + i < n)%nat /\
             CDF97.gather src !! (split + i)%nat = src !! (2 * i + 1)%nat) /\
  length (CDF97.scatter src) = n /\
  (forall i, (i < split)%nat -> CDF97.scatter src !! (2 * i)%nat = src !! i) /\
  (forall i, (split <= i < n)%nat ->
             CDF97.scatter src !! (2 * (i - split) + 1)%nat = src !! i) /\
  CDF97.scatter (CDF97.gather src) = src /\
  CDF97.gather (CDF97.scatter src) = src.
Proof.
  intros n split.
  pose proof (split_point n) as Hn. pose proof (split_point_near n) as Hnear.
  fold split in Hn, Hnear.
  assert (Hlg : length (CDF97.gather src) = n).
  { rewrite gather_unfold, length_gather_split. exact Hn. }
  assert (Hls : length (CDF97.scatter src) = n).
  { rewrite scatter_unfold, length_scatter_split. exact Hn. }
  repeat match goal with |- _ /\ _ => split end; try assumption.
  - intros i Hi. split; [lia |].
    rewrite gather_unfold. fold n split.
    rewrite lookup_gather_low by lia.
    symmetry. apply list_lookup_lookup_total_lt. lia.
  - intros i Hi. split; [lia |].
    rewrite gather_unfold. fold n split.
    rewrite lookup_gather_high by lia.
    symmetry. apply list_lookup_lookup_total_lt. lia.
  - intros i Hi. rewrite scatter_unfold. fold n split.
    rewrite lookup_scatter by lia.
    rewrite even_double, half_double.
    symmetry. apply list_lookup_lookup_total_lt. lia.
  - intros i Hi. rewrite scatter_unfold. fold n split.
    rewrite lookup_scatter by lia.
    rewrite even_double_succ, half_double_succ.
    replace (split + (i - split))%nat with i by lia.
    symmetry. apply list_lookup_lookup_total_lt. lia.
  - rewrite scatter_unfold, Hlg, gather_unfold.
    now apply scatter_gather_split.
  - rewrite gather_unfold, Hls, scatter_unfold.
    now apply gather_scatter_split.
Qed.

Lemma gather_scatter_inverse_witness :
  CDF97.gather [1; 2; 3; 4; 5]%float = [1; 3; 5; 2; 4]%float /\
  CDF97.scatter (CDF97.gather [1; 2; 3; 4; 5]%float) = [1; 2; 3; 4; 5]%float.
Proof.
  split; [reflexivity |].
  apply (gather_scatter_inverse [1; 2; 3; 4; 5]%float).
Defined.

(** ** The buffer owner *)

Lemma fold_left_length {A} (f : list float -> A -> list float) (l : list A) :
  (forall b a, length (f b a) = length b) ->
  forall buf, length (fold_left f l buf) = length buf.
Proof.
  intros Hf. induction l as [|a l IH]; intros buf; [reflexivity |].
  simpl. now rewrite IH, Hf.
Qed.

Lemma length_write_run buf start stride run :
  length (CDF97.write_run buf start stride run) = length buf.
Proof.
  unfold CDF97.write_run. apply fold_left_length.
  intros b i. apply length_insert.
Qed.

Lemma length_on_run pass start stride n buf :
  length (CDF97.on_run pass start stride n buf) = length buf.
Proof. apply length_write_run. Qed.

Lemma length_for_each n body :
  (forall i b, length (body i b) = length b) ->
  forall buf, length (CDF97.for_each n body buf) = length buf.
Proof.
  intros Hb buf. unfold CDF97.for_each. apply fold_left_length.
  intros b i. apply Hb.
Qed.

Lemma length_along_x pass dx dy len_xyz vol :
  length (CDF97.along_x pass dx dy len_xyz vol) = length vol.
Proof.
  destruct len_xyz as [[lx ly] lz]. unfold CDF97.along_x.
  apply length_for_each. intros z b. apply length_for_each.
  intros y b'. apply length_on_run.
Qed.

Lemma length_along_y pass dx dy len_xyz vol :
  length (CDF97.along_y pass dx dy len_xyz vol) = length vol.
Proof.
  destruct len_xyz as [[lx ly] lz]. unfold CDF97.along_y.
  apply length_for_each. intros z b. apply length_for_each.
  intros x b'. apply length_on_run.
Qed.

Lemma length_along_z pass dx dy len_xyz vol :
  length (CDF97.along_z pass dx dy len_xyz vol) = length vol.
Proof.
  destruct len_xyz as [[lx ly] lz]. unfold CDF97.along_z.
  apply length_for_each. intros y b. apply length_for_each.
  intros x b'. apply length_on_run.
Qed.

Lemma length_m_dwt2d_one_level dx plane len_xy buf :
  length (CDF97.m_dwt2d_one_level dx plane len_xy buf) = length buf.
Proof.
  destruct len_xy as [lx ly]. unfold CDF97.m_dwt2d_one_level.
  rewrite !length_for_each; [reflexivity | |]; intros; apply length_on_run.
Qed.

Lemma length_m_idwt2d_one_level dx plane len_xy buf :
  length (CDF97.m_idwt2d_one_level dx plane len_xy buf) = length buf.
Proof.
  destruct len_xy as [lx ly]. unfold CDF97.m_idwt2d_one_level.
  rewrite !length_for_each; [reflexivity | |]; intros; apply length_on_run.
Qed.

Lemma length_m_dwt3d_one_level dx dy len_xyz vol :
  length (CDF97.m_dwt3d_one_level dx dy len_xyz vol) = length vol.
Proof.
  unfold CDF97.m_dwt3d_one_level.
  now rewrite length_along_z, length_along_y, length_along_x.
Qed.

Lemma length_m_idwt3d_one_level dx dy len_xyz vol :
  length (CDF97.m_idwt3d_one_level dx dy len_xyz vol) = length vol.
Proof.
  unfold CDF97.m_idwt3d_one_level.
  now rewrite length_along_x, length_along_y, length_along_z.
Qed.

Lemma length_m_dwt1d array array_len levels buf :
  length (CDF97.m_dwt1d array array_len levels buf) = length buf.
Proof. apply fold_left_length. intros b lev. apply length_on_run. Qed.

Lemma length_m_idwt1d array array_len levels buf :
  length (CDF97.m_idwt1d array array_len levels buf) = length buf.
Proof. apply fold_left_length. intros b lev. apply length_on_run. Qed.

Lemma length_m_dwt2d dx plane len_xy levels buf :
  length (CDF97.m_dwt2d dx plane len_xy levels buf) = length buf.
Proof. apply fold_left_length. intros b lev. apply length_m_dwt2d_one_level. Qed.

Lemma length_m_idwt2d dx plane len_xy levels buf :
  length (CDF97.m_idwt2d dx plane len_xy levels buf) = length buf.
Proof. apply fold_left_length. intros b lev. apply length_m_idwt2d_one_level. Qed.

Lemma length_dwt3d_levels dims levels vol :
  length (CDF97.dwt3d_levels dims levels vol) = length vol.
Proof.
  destruct dims as [[dx dy] dz]. apply fold_left_length.
  intros b lev. apply length_m_dwt3d_one_level.
Qed.

Lemma length_idwt3d_levels dims levels vol :
  length (CDF97.idwt3d_levels dims levels vol) = length vol.
Proof.
  destruct dims as [[dx dy] dz]. apply fold_left_length.
  intros b lev. apply length_m_idwt3d_one_level.
Qed.

Lemma with_slice_buf_data self :
  CDF97.m_data_buf (CDF97.with_slice_buf self) = CDF97.m_data_buf self /\
  CDF97.m_dims (CDF97.with_slice_buf self) = CDF97.m_dims self.
Proof.
  unfold CDF97.with_slice_buf.
  destruct (CDF97.m_dims self) as [[dx dy] dz]. simpl. now split.
Qed.

(** Every transform keeps the shape and the buffer length. *)
Lemma perform_preserves a self :
  CDF97.get_dims (CDF97.perform a self) = CDF97.get_dims self /\
  length (CDF97.view_data (CDF97.perform a self)) = length (CDF97.view_data self).
Proof.
  unfold CDF97.get_dims, CDF97.view_data.
  destruct (with_slice_buf_data self) as [Hsd Hsm].
  destruct a; cbn [CDF97.perform].
  - unfold CDF97.dwt1d. destruct (CDF97.m_dims self) as [[dx dy] dz] eqn:Hd.
    split; cbn [CDF97.m_dims CDF97.m_data_buf CDF97.with_data];
      [exact Hd | apply length_m_dwt1d].
  - unfold CDF97.idwt1d. destruct (CDF97.m_dims self) as [[dx dy] dz] eqn:Hd.
    split; cbn [CDF97.m_dims CDF97.m_data_buf CDF97.with_data];
      [exact Hd | apply length_m_idwt1d].
  - unfold CDF97.dwt2d. destruct (CDF97.m_dims self) as [[dx dy] dz] eqn:Hd.
    split; cbn [CDF97.m_dims CDF97.m_data_buf CDF97.with_data];
      [exact Hd | apply length_m_dwt2d].
  - unfold CDF97.idwt2d. destruct (CDF97.m_dims self) as [[dx dy] dz] eqn:Hd.
    split; cbn [CDF97.m_dims CDF97.m_data_buf CDF97.with_data];
      [exact Hd | apply length_m_idwt2d].
  - unfold CDF97.dwt3d_wavelet_packet.
    split; cbn [CDF97.m_dims CDF97.m_data_buf CDF97.with_data];
      [exact Hsm | now rewrite length_dwt3d_levels, Hsd].
  - unfold CDF97.idwt3d_wavelet_packet.
    split; cbn [CDF97.m_dims CDF97.m_data_buf CDF97.with_data];
      [exact Hsm | now rewrite length_idwt3d_levels, Hsd].
  - unfold CDF97.dwt3d_dyadic.
    split; cbn [CDF97.m_dims CDF97.m_data_buf CDF97.with_data];
      [reflexivity | apply length_dwt3d_levels].
  - unfold CDF97.idwt3d_dyadic.
    split; cbn [CDF97.m_dims CDF97.m_data_buf CDF97.with_data];
      [reflexivity | apply length_idwt3d_levels].
Qed.

Lemma perform_all_preserves actions : forall self,
  CDF97.get_dims (CDF97.perform_all actions self) = CDF97.get_dims self /\
  length (CDF97.view_data (CDF97.perform_all actions self)) =
  length (CDF97.view_data self).
Proof.
  induction actions as [|a actions IH]; intros self; [now split |].
  unfold CDF97.perform_all in *. simpl.
  destruct (IH (CDF97.perform a self)) as [Hd Hl].
  destruct (perform_preserves a self) as [Hd' Hl'].
  split; congruence.
Qed.

Lemma copy_data_good {T} (to_double : T -> float) buf len dims self self' :
  CDF97.copy_data to_double buf len dims self = (Good, self') ->
  len = CDF97.volume dims /\
  self' = CDF97.mk ((fun i => to_double (buf i)) <$> seq 0 (Z.to_nat len)) dims
                   (CDF97.lift_scratch dims) [].
Proof.
  unfold CDF97.copy_data. destruct (Z.eqb_spec len (CDF97.volume dims)); simpl.
  - intros [= <-]. now split.
  - discriminate.
Qed.

Lemma take_data_good buf dims self self' :
  CDF97.take_data buf dims self = (Good, self') ->
  Z.of_nat (length buf) = CDF97.volume dims /\
  self' = CDF97.mk buf dims (CDF97.lift_scratch dims) [].
Proof.
  unfold CDF97.take_data.
  destruct (Z.eqb_spec (Z.of_nat (length buf)) (CDF97.volume dims)); simpl.
  - intros [= <-]. now split.
  - discriminate.
Qed.

Lemma loaded_length self :
  CDF97.loaded self ->
  Z.of_nat (length (CDF97.view_data self)) = CDF97.volume (CDF97.get_dims self).
Proof.
  induction 1 as [T to_double buf len dims self0 self Hsz Hc
                 | buf dims self0 self Ht
                 | a self Hl IH].
  - apply copy_data_good in Hc. destruct Hc as [Hlen ->].
    unfold CDF97.view_data, CDF97.get_dims. simpl.
    rewrite length_fmap, length_seq. unfold is_size_t in Hsz. lia.
  - apply take_data_good in Ht. destruct Ht as [Hlen ->]. exact Hlen.
  - destruct (perform_preserves a self) as [-> ->]. exact IH.
Qed.

(** Claim C6. [copy_data] (and likewise [take_data]) returns [WrongDims]
    if and only if the length differs from [dx * dy * dz]; otherwise it
    returns [Good], the owned buffer has that length and holds the converted
    source samples (for [take_data]: the adopted sequence), the shape is the
    declared one and the scratch is reset; the resulting state does not
    depend on the state before the call. *)
Theorem ingest_checks_dims {T : Type} (to_double : T -> float) (buf : nat -> T)
    (len dx dy dz : Z) (owned : list float) (self : CDF97.t) :
  is_size_t len ->
  (fst (CDF97.copy_data to_double buf len (dx, dy, dz) self) = WrongDims <->
   len <> dx * dy * dz) /\
  (len = dx * dy * dz ->
   exists self',
     (forall prior, CDF97.copy_data to_double buf len (dx, dy, dz) prior = (Good, self')) /\
     Z.of_nat (length (CDF97.view_data self')) = len /\
     (forall i, (i < Z.to_nat len)%nat ->
                CDF97.view_data self' !! i = Some (to_double (buf i))) /\
     CDF97.get_dims self' = (dx, dy, dz) /\
     CDF97.m_qcc_buf self' = CDF97.lift_scratch (dx, dy, dz) /\
     CDF97.m_slice_buf self' = []) /\
  (fst (CDF97.take_data owned (dx, dy, dz) self) = WrongDims <->
   Z.of_nat (length owned) <> dx * dy * dz) /\
  (Z.of_nat (length owned) = dx * dy * dz ->
   exists self',
     (forall prior, CDF97.take_data owned (dx, dy, dz) prior = (Good, self')) /\
     CDF97.view_data self' = owned /\
     CDF97.get_dims self' = (dx, dy, dz) /\
     CDF97.m_qcc_buf self' = CDF97.lift_scratch (dx, dy, dz) /\
     CDF97.m_slice_buf self' = []).
Proof.
  intros Hsz. unfold CDF97.copy_data, CDF97.take_data.
  cbn [CDF97.volume].
  repeat match goal with |- _ /\ _ => split end.
  - destruct (Z.eqb_spec len (dx * dy * dz)); simpl; split; intros H;
      try discriminate; try assumption; try reflexivity; contradiction.
  - intros Heq.
    rewrite (proj2 (Z.eqb_eq len (dx * dy * dz)) Heq). simpl.
    eexists. split; [intros prior; reflexivity |].
    unfold CDF97.view_data, CDF97.get_dims. simpl.
    repeat match goal with |- _ /\ _ => split end; try reflexivity.
    + rewrite length_fmap, length_seq. unfold is_size_t in Hsz. lia.
    + intros i Hi. now rewrite list_lookup_fmap, lookup_seq_lt.
  - destruct (Z.eqb_spec (Z.of_nat (length owned)) (dx * dy * dz)); simpl;
      split; intros H; try discriminate; try assumption; try reflexivity;
      contradiction.
  - intros Heq.
    rewrite (proj2 (Z.eqb_eq (Z.of_nat (length owned)) (dx * dy * dz)) Heq). simpl.
    eexists. split; [intros prior; reflexivity |].
    repeat split.
Qed.

Lemma ingest_checks_dims_witness :
  is_size_t 6 /\
  CDF97.copy_data (fun x : float => x)
    (fun i => [1.5; -2; 0; 4; 8; 16]%float !!! i) 6 (3, 2, 1) CDF97.fresh =
  (Good, CDF97.mk [1.5; -2; 0; 4; 8; 16]%float (3, 2, 1) [0; 0; 0; 0; 0; 0]%float []) /\
  fst (CDF97.copy_data (fun x : float => x)
         (fun i => [1.5; -2; 0; 4; 8; 16]%float !!! i) 6 (3, 2, 2) CDF97.fresh) = WrongDims.
Proof.
  assert (H6 : is_size_t 6) by (unfold is_size_t, max_size; lia).
  split; [exact H6 | split; [reflexivity |]].
  destruct (ingest_checks_dims (fun x : float => x)
              (fun i => [1.5; -2; 0; 4; 8; 16]%float !!! i) 6 3 2 2 [] CDF97.fresh H6)
    as [Hwrong _].
  apply Hwrong. lia.
Defined.

(** Claim C7. For every loaded volume the owned buffer length equals
    [dx * dy * dz], it is unchanged by any number of forward or inverse
    transform calls in any mode, and [get_dims] returns the same
    [(dx, dy, dz)] before and after the calls. *)
Theorem transforms_keep_length_and_dims (self : CDF97.t) (actions : list CDF97.action) :
  CDF97.loaded self ->
  Z.of_nat (length (CDF97.view_data self)) = CDF97.volume (CDF97.get_dims self) /\
  Z.of_nat (length (CDF97.view_data (CDF97.perform_all actions self))) =
    CDF97.volume (CDF97.get_dims self) /\
  length (CDF97.view_data (CDF97.perform_all actions self)) =
    length (CDF97.view_data self) /\
  CDF97.get_dims (CDF97.perform_all actions self) = CDF97.get_dims self.
Proof.
  intros Hl. pose proof (loaded_length self Hl) as Hlen.
  destruct (perform_all_preserves actions self) as [Hd Hn].
  repeat split; try assumption. now rewrite Hn.
Qed.

Lemma transforms_keep_length_and_dims_witness :
  let self := CDF97.mk [1; 2; 3; 4; 5; 6]%float (3, 2, 1) [0; 0; 0; 0; 0; 0]%float [] in
  let actions := [CDF97.Dwt3dWaveletPacket; CDF97.Idwt2d; CDF97.Dwt1d] in
  CDF97.loaded self /\
  CDF97.get_dims (CDF97.perform_all actions self) = (3, 2, 1) /\
  length (CDF97.view_data (CDF97.perform_all actions self)) = 6%nat.
Proof.
  intros self actions.
  assert (Hl : CDF97.loaded self).
  { apply (CDF97.loaded_take [1; 2; 3; 4; 5; 6]%float (3, 2, 1) CDF97.fresh).
    reflexivity. }
  split; [exact Hl |].
  destruct (transforms_keep_length_and_dims self actions Hl) as (_ & _ & Hn & Hd).
  split; [exact Hd | exact Hn].
Defined.

(** ** The lifting constants *)


(** ** The number of dyadic levels *)

Section Log2.

#[local] Open Scope R_scope.

Lemma ln_2_pos : 0 < ln 2.
Proof. rewrite <- ln_1. apply ln_increasing; lra. Qed.

Lemma std_log2_pow (k : nat) : std_log2 (2 ^ k) = INR k.
Proof.
  unfold std_log2. rewrite ln_pow by lra.
  field. pose proof ln_2_pos. lra.
Qed.

Lemma std_log2_le x y : 0 < x -> x <= y -> std_log2 x <= std_log2 y.
Proof.
  intros Hx Hxy. unfold std_log2.
  apply Rmult_le_compat_r.
  - left. apply Rinv_0_lt_compat, ln_2_pos.
  - destruct Hxy as [Hlt | ->]; [left; now apply ln_increasing | right; reflexivity].
Qed.

Lemma std_log2_lt x y : 0 < x -> x < y -> std_log2 x < std_log2 y.
Proof.
  intros Hx Hxy. unfold std_log2.
  apply Rmult_lt_compat_r.
  - apply Rinv_0_lt_compat, ln_2_pos.
  - now apply ln_increasing.
Qed.

Lemma std_log2_neg x : 0 < x < 1 -> std_log2 x < 0.
Proof.
  intros [H0 H1]. replace 0 with (std_log2 (2 ^ 0)).
  - apply std_log2_lt; simpl; lra.
  - rewrite std_log2_pow. reflexivity.
Qed.

(** Between two consecutive powers of two the integer part of the logarithm
    is the exponent of the smaller one. *)
Lemma Int_part_std_log2 x (k : nat) :
  2 ^ k <= x < 2 ^ S k -> Int_part (std_log2 x) = Z.of_nat k.
Proof.
  intros [Hlo Hhi].
  assert (Hp : 0 < 2 ^ k) by (apply pow_lt; lra).
  pose proof (std_log2_le _ _ Hp Hlo) as H1.
  pose proof (std_log2_lt x (2 ^ S k) ltac:(lra) Hhi) as H2.
  rewrite std_log2_pow in H1, H2. rewrite S_INR in H2.
  symmetry. apply Int_part_spec. rewrite <- INR_IZR_INZ. lra.
Qed.

End Log2.

(** On [8 * 2^k <= L < 8 * 2^(k+1)] the real quotient [L / 8] lies between
    [2^k] and [2^(k+1)]. *)
Lemma eighth_between (L : Z) (k : nat) :
  8 * 2 ^ Z.of_nat k <= L < 8 * 2 ^ Z.of_nat (S k) ->
  (2 ^ k <= IZR L / 8 < 2 ^ S k)%R.
Proof.
  intros [Hlo Hhi].
  apply IZR_le in Hlo. apply IZR_lt in Hhi.
  rewrite mult_IZR, <- pow_IZR in Hlo, Hhi.
  split; lra.
Qed.

Lemma log2_eighth (L : Z) :
  8 <= L ->
  8 * 2 ^ Z.of_nat (Z.to_nat (Z.log2 (L / 8))) <= L <
  8 * 2 ^ Z.of_nat (S (Z.to_nat (Z.log2 (L / 8)))).
Proof.
  intros HL.
  assert (Hq : 0 < L / 8) by (apply Z.div_str_pos; lia).
  pose proof (Z.log2_spec (L / 8) Hq) as [Hlo Hhi].
  pose proof (Z.log2_nonneg (L / 8)) as Hk.
  rewrite Nat2Z.inj_succ, Z2Nat.id by assumption.
  pose proof (Z.div_mod L 8 ltac:(lia)) as Hdm.
  pose proof (Z.mod_pos_bound L 8 ltac:(lia)) as Hm.
  lia.
Qed.

Lemma num_of_xforms_below (L : Z) :
  1 <= L < 8 -> num_of_xforms L = 0 /\ xforms_formula L = 0.
Proof.
  intros HL.
  assert (Hneg : (std_log2 (IZR L / 8) < 0)%R).
  { apply std_log2_neg.
    destruct HL as [H1 H8]. apply IZR_le in H1. apply IZR_lt in H8.
    split; lra. }
  unfold num_of_xforms, xforms_formula. split.
  - destruct (Rlt_dec (std_log2 (IZR L / 8)) 0); [reflexivity | contradiction].
  - destruct (base_Int_part (std_log2 (IZR L / 8))) as [Hip _].
    assert (Hlt : (IZR (Int_part (std_log2 (IZR L / 8))) < 0)%R) by lra.
    apply lt_IZR in Hlt. lia.
Qed.

Lemma num_of_xforms_above (L : Z) :
  8 <= L <= max_size ->
  num_of_xforms L = Z.min (Z.log2 (L / 8) + 1) 6 /\
  xforms_formula L = Z.min (Z.log2 (L / 8) + 1) 6.
Proof.
  intros [HL Hmax].
  pose proof (Z.log2_nonneg (L / 8)) as Hk.
  pose proof (Int_part_std_log2 _ _ (eighth_between L _ (log2_eighth L HL))) as Hip.
  rewrite Z2Nat.id in Hip by assumption.
  assert (Hk64 : Z.log2 (L / 8) < 64).
  { apply Z.log2_lt_pow2; [apply Z.div_str_pos; lia |].
    unfold max_size in Hmax.
    pose proof (Z.div_mod L 8 ltac:(lia)).
    pose proof (Z.mod_pos_bound L 8 ltac:(lia)). lia. }
  unfold num_of_xforms, xforms_formula. rewrite Hip. split; [| lia].
  assert (Hge : (0 <= std_log2 (IZR L / 8))%R).
  { destruct (base_Int_part (std_log2 (IZR L / 8))) as [Hb _].
    rewrite Hip in Hb. apply IZR_le in Hk. lra. }
  destruct (Rlt_dec (std_log2 (IZR L / 8)) 0) as [Hlt | _]; [lra |].
  unfold static_cast_size_t.
  destruct (Rle_dec 0 (std_log2 (IZR L / 8))) as [_ | Hn]; [| contradiction].
  rewrite Hip, wrap_small by (unfold is_size_t, max_size; lia).
  reflexivity.
Qed.

Lemma num_of_xforms_int_correct (L : Z) :
  1 <= L <= max_size -> num_of_xforms L = num_of_xforms_int L.
Proof.
  intros HL. unfold num_of_xforms_int.
  destruct (Z.ltb_spec L 8).
  - apply num_of_xforms_below. lia.
  - apply num_of_xforms_above. lia.
Qed.

(** Claim C2. For every axis length [L >= 1], [num_of_xforms L] equals
    [min (6, max (0, floor (log2 (L / 8)) + 1))]; it is 0 for every
    [L < 8] (for instance [L = 7]), it is 6 for every [L >= 256] (for
    instance [L = 10^6]), and it never exceeds 6. *)
Theorem num_of_xforms_formula (L : Z) :
  1 <= L <= max_size ->
  num_of_xforms L = xforms_formula L /\
  (L < 8 -> num_of_xforms L = 0) /\
  (256 <= L -> num_of_xforms L = 6) /\
  0 <= num_of_xforms L <= 6 /\
  num_of_xforms 7 = 0 /\
  num_of_xforms 1000000 = 6.
Proof.
  intros HL.
  assert (H7 : num_of_xforms 7 = 0).
  { rewrite num_of_xforms_int_correct by (unfold max_size; lia). reflexivity. }
  assert (HM : num_of_xforms 1000000 = 6).
  { rewrite num_of_xforms_int_correct by (unfold max_size; lia). reflexivity. }
  destruct (Z.ltb_spec L 8) as [Hlt | Hge].
  - destruct (num_of_xforms_below L ltac:(lia)) as [Hn Hf].
    rewrite Hn, Hf. repeat split; try assumption; lia.
  - destruct (num_of_xforms_above L ltac:(lia)) as [Hn Hf].
    rewrite Hn, Hf. pose proof (Z.log2_nonneg (L / 8)).
    repeat split; try assumption; try lia.
    intros H256.
    assert (5 <= Z.log2 (L / 8)).
    { apply Z.log2_le_pow2; [apply Z.div_str_pos; lia |].
      apply Z.div_le_lower_bound; lia. }
    lia.
Qed.

Lemma num_of_xforms_formula_witness :
  1 <= 100 <= max_size /\ num_of_xforms 100 = 4 /\ xforms_formula 100 = 4.
Proof.
  assert (H : 1 <= 100 <= max_size) by (unfold max_size; lia).
  destruct (num_of_xforms_formula 100 H) as [Heq _].
  assert (Hv : num_of_xforms 100 = 4).
  { rewrite num_of_xforms_int_correct by exact H. reflexivity. }
  split; [exact H | split; [exact Hv |]].
  rewrite <- Heq. exact Hv.
Defined.

(** ** Evaluation on concrete inputs *)

Example num_of_partitions_values :
  map num_of_partitions [0; 1; 2; 3; 4; 5; 8; 9; 1000000] = [0; 0; 1; 2; 2; 3; 3; 4; 20].
Proof. reflexivity. Qed.

Example calc_approx_detail_len_values :
  map (calc_approx_detail_len 17) [0; 1; 2; 3; 4; 5; 6] =
  [(17, 0); (9, 8); (5, 4); (3, 2); (2, 1); (1, 1); (1, 0)].
Proof. reflexivity. Qed.

Example num_of_xforms_values :
  map num_of_xforms_int [1; 7; 8; 15; 16; 255; 256; 1000000; max_size] =
  [0; 0; 1; 1; 2; 5; 6; 6; 6].
Proof. reflexivity. Qed.

Example gather_even_length :
  CDF97.gather [0; 1; 2; 3; 4; 5]%float = [0; 2; 4; 1; 3; 5]%float.
Proof. reflexivity. Qed.

(** On doubles one level of analysis followed by synthesis returns a
    constant run unchanged, but a ramp only up to rounding. *)
Example one_level_round_trip_constant :
  CDF97.m_idwt1d_one_level (CDF97.m_dwt1d_one_level (repeat 1%float 8)) =
  repeat 1%float 8.
Proof. vm_compute. reflexivity. Qed.

Example one_level_round_trip_rounds :
  CDF97.m_idwt1d_one_level (CDF97.m_dwt1d_one_level [1; 2; 3; 4; 5; 6; 7]%float) <>
  [1; 2; 3; 4; 5; 6; 7]%float.
Proof.
  intros H.
  apply (f_equal (fun l : list float => PrimFloat.eqb (l !!! 0%nat) 1)) in H.
  vm_compute in H. discriminate H.
Qed.

(* ===================================================================== *)
(** * Part III. Further properties of the helper functions               *)
(* ===================================================================== *)

(** ** Sub-band lengths in closed form *)

Lemma halve_mono a b : a <= b -> halve a <= halve b.
Proof.
  intros H. rewrite !halve_ceil. unfold ceil_half.
  apply Z.div_le_mono; lia.
Qed.

Lemma ceil_div_halve L m : 0 < m -> halve (ceil_div L m) = ceil_div L (2 * m).
Proof.
  intros Hm. rewrite halve_ceil. unfold ceil_half, ceil_div.
  replace (L + 2 * m - 1) with (L + m - 1 + 1 * m) by lia.
  rewrite (Z.mul_comm 2 m), <- Z.div_div by lia.
  now rewrite Z.div_add by lia.
Qed.

Lemma pow2_succ (n : nat) : 2 ^ Z.of_nat (S n) = 2 * 2 ^ Z.of_nat n.
Proof. rewrite Nat2Z.inj_succ, Z.pow_succ_r by lia. reflexivity. Qed.

Lemma pow2_pos (n : nat) : 0 < 2 ^ Z.of_nat n.
Proof. apply Z.pow_pos_nonneg; lia. Qed.

Lemma approx_len_closed L (n : nat) : approx_len L n = ceil_div L (2 ^ Z.of_nat n).
Proof.
  induction n as [|n IH].
  - unfold ceil_div. simpl. now rewrite Z.add_simpl_r, Z.div_1_r.
  - rewrite pow2_succ, <- ceil_div_halve by apply pow2_pos.
    rewrite <- IH. reflexivity.
Qed.

Lemma ceil_div_le_one L m : 0 < m -> 1 <= L -> (ceil_div L m <= 1 <-> L <= m).
Proof.
  intros Hm HL. unfold ceil_div. split; intros H.
  - destruct (Z_le_gt_dec L m) as [Hle|Hgt]; [assumption |].
    assert (2 <= (L + m - 1) / m) by (apply Z.div_le_lower_bound; lia). lia.
  - apply Z.lt_succ_r. apply Z.div_lt_upper_bound; lia.
Qed.

Lemma ceil_div_ge L m q : 0 < m -> m * q <= L -> q <= ceil_div L m.
Proof.
  intros Hm H. unfold ceil_div. apply Z.div_le_lower_bound; lia.
Qed.

Lemma approx_len_nonneg L n : 0 <= L -> 0 <= approx_len L n.
Proof.
  intros H. induction n as [|n IH]; [assumption |].
  simpl. pose proof (Z.div_mod (approx_len L n) 2 ltac:(lia)).
  pose proof (Z.mod_pos_bound (approx_len L n) 2 ltac:(lia)). lia.
Qed.

Lemma approx_len_step_le L n : 0 <= L -> approx_len L (S n) <= approx_len L n.
Proof.
  intros H. pose proof (approx_len_nonneg L n H). simpl.
  pose proof (Z.div_mod (approx_len L n) 2 ltac:(lia)).
  pose proof (Z.mod_pos_bound (approx_len L n) 2 ltac:(lia)). lia.
Qed.

Lemma approx_len_antitone L (n m : nat) :
  0 <= L -> (n <= m)%nat -> approx_len L m <= approx_len L n.
Proof.
  intros HL Hnm. induction Hnm as [|m Hnm IH]; [lia |].
  pose proof (approx_len_step_le L m HL). lia.
Qed.

Lemma approx_len_mono L L' n : L <= L' -> approx_len L n <= approx_len L' n.
Proof.
  intros H. induction n as [|n IH]; [assumption |].
  change (halve (approx_len L n) <= halve (approx_len L' n)).
  now apply halve_mono.
Qed.

Lemma approx_len_add L (j k : nat) :
  approx_len (approx_len L j) k = approx_len L (j + k).
Proof.
  induction k as [|k IH].
  - now rewrite Nat.add_0_r.
  - rewrite Nat.add_succ_r. simpl. now rewrite IH.
Qed.

Lemma detail_len_mono L L' n : L <= L' -> detail_len L n <= detail_len L' n.
Proof.
  intros H. destruct n as [|n]; simpl; [lia |].
  apply Z.div_le_mono; [lia | now apply approx_len_mono].
Qed.

(** X1. After [k] levels the low-pass part of an axis of length [L] has
    length [ceil (L / 2^k)], and the high-pass part split off last has
    length [floor (ceil (L / 2^(k-1)) / 2)] (0 when [k = 0]). *)
Theorem calc_approx_detail_len_closed_form (L k : Z) :
  is_size_t L -> 0 <= k ->
  calc_approx_detail_len L k =
  (ceil_div L (2 ^ k), if k =? 0 then 0 else ceil_div L (2 ^ (k - 1)) / 2).
Proof.
  intros HL Hk. rewrite calc_approx_detail_len_spec by assumption.
  rewrite approx_len_closed, Z2Nat.id by assumption. f_equal.
  destruct (Z.eqb_spec k 0) as [-> | Hne]; [reflexivity |].
  replace (Z.to_nat k) with (S (Z.to_nat (k - 1))) by lia.
  simpl. rewrite approx_len_closed, Z2Nat.id by lia. reflexivity.
Qed.

Lemma calc_approx_detail_len_closed_form_witness :
  is_size_t 1000 /\ calc_approx_detail_len 1000 4 = (63, 62).
Proof.
  assert (H : is_size_t 1000) by (unfold is_size_t, max_size; lia).
  split; [exact H |].
  rewrite (calc_approx_detail_len_closed_form 1000 4 H) by lia. reflexivity.
Defined.

(** X2. The lengths returned over the levels partition the axis: the
    low-pass length after [k] levels plus the high-pass lengths of levels
    [1 .. k] is the original length. *)
Theorem calc_approx_detail_len_partitions_axis (L : Z) (k : nat) :
  is_size_t L ->
  fst (calc_approx_detail_len L (Z.of_nat k)) + detail_total L k = L.
Proof.
  intros HL. induction k as [|k IH]; [simpl; lia |].
  cbn [detail_total].
  rewrite !calc_approx_detail_len_spec in * by assumption.
  rewrite !Nat2Z.id in *. cbn [fst snd detail_len approx_len] in *. lia.
Qed.

Lemma calc_approx_detail_len_partitions_axis_witness :
  is_size_t 17 /\
  detail_total 17 4 = 15 /\
  fst (calc_approx_detail_len 17 4) + detail_total 17 4 = 17.
Proof.
  assert (H : is_size_t 17) by (unfold is_size_t, max_size; lia).
  split; [exact H | split; [reflexivity |]].
  exact (calc_approx_detail_len_partitions_axis 17 4 H).
Defined.

(** X3. Every level splits the previous low-pass part into two parts whose
    lengths add up to it and differ by at most one, the low-pass part being
    the longer. *)
Theorem calc_approx_detail_len_balanced (L k : Z) :
  is_size_t L -> 0 <= k ->
  let prev := fst (calc_approx_detail_len L k) in
  let low := fst (calc_approx_detail_len L (k + 1)) in
  let high := snd (calc_approx_detail_len L (k + 1)) in
  low + high = prev /\ high <= low <= high + 1.
Proof.
  intros HL Hk. cbv zeta.
  rewrite !calc_approx_detail_len_spec by assumption.
  replace (Z.to_nat (k + 1)) with (S (Z.to_nat k)) by lia.
  cbn [fst snd detail_len approx_len].
  pose proof (approx_len_nonneg L (Z.to_nat k) ltac:(unfold is_size_t in HL; lia)).
  pose proof (Z.div_mod (approx_len L (Z.to_nat k)) 2 ltac:(lia)).
  pose proof (Z.mod_pos_bound (approx_len L (Z.to_nat k)) 2 ltac:(lia)). lia.
Qed.

Lemma calc_approx_detail_len_balanced_witness :
  is_size_t 9 /\
  fst (calc_approx_detail_len 9 1) + snd (calc_approx_detail_len 9 1) = 9.
Proof.
  assert (H : is_size_t 9) by (unfold is_size_t, max_size; lia).
  split; [exact H |].
  apply (calc_approx_detail_len_balanced 9 0 H). lia.
Defined.

(** X4. The returned lengths stay within the axis and never wrap around;
    the low-pass length shrinks with the level and both lengths grow with
    the axis length. *)
Theorem calc_approx_detail_len_monotone (L L' k k' : Z) :
  is_size_t L -> is_size_t L' -> 0 <= k -> L <= L' -> k <= k' ->
  0 <= snd (calc_approx_detail_len L k) <= fst (calc_approx_detail_len L k) /\
  fst (calc_approx_detail_len L k') <= fst (calc_approx_detail_len L k) <= L /\
  fst (calc_approx_detail_len L k) <= fst (calc_approx_detail_len L' k) /\
  snd (calc_approx_detail_len L k) <= snd (calc_approx_detail_len L' k).
Proof.
  intros HL HL' Hk HLL Hkk.
  assert (H0 : 0 <= L) by (unfold is_size_t in HL; lia).
  rewrite !calc_approx_detail_len_spec by assumption. cbn [fst snd].
  repeat split.
  - destruct (Z.to_nat k) as [|j]; simpl; [lia |].
    apply Z.div_pos; [apply approx_len_nonneg; lia | lia].
  - destruct (Z.to_nat k) as [|j]; cbn [detail_len approx_len]; [lia |].
    pose proof (approx_len_nonneg L j H0).
    pose proof (Z.div_mod (approx_len L j) 2 ltac:(lia)).
    pose proof (Z.mod_pos_bound (approx_len L j) 2 ltac:(lia)). lia.
  - apply approx_len_antitone; lia.
  - apply (approx_len_antitone L 0 (Z.to_nat k)); lia.
  - now apply approx_len_mono.
  - now apply detail_len_mono.
Qed.

Lemma calc_approx_detail_len_monotone_witness :
  fst (calc_approx_detail_len 100 5) <= fst (calc_approx_detail_len 100 2) <= 100.
Proof.
  assert (H : is_size_t 100) by (unfold is_size_t, max_size; lia).
  apply (calc_approx_detail_len_monotone 100 100 2 5 H H); lia.
Defined.

(** X5. Levels compose: [j] levels followed by [k] more on the low-pass
    part give the low-pass length of [j + k] levels, and for [k >= 1] the
    same pair. *)
Theorem calc_approx_detail_len_compose (L j k : Z) :
  is_size_t L -> 0 <= j -> 0 <= k ->
  let low_j := fst (calc_approx_detail_len L j) in
  fst (calc_approx_detail_len low_j k) = fst (calc_approx_detail_len L (j + k)) /\
  (1 <= k -> calc_approx_detail_len low_j k = calc_approx_detail_len L (j + k)).
Proof.
  intros HL Hj Hk. cbv zeta.
  rewrite (calc_approx_detail_len_spec L j) by assumption. cbn [fst].
  assert (Hs : is_size_t (approx_len L (Z.to_nat j))) by now apply approx_len_size.
  rewrite !calc_approx_detail_len_spec by assumption.
  replace (Z.to_nat (j + k)) with (Z.to_nat j + Z.to_nat k)%nat by lia.
  cbn [fst]. split; [apply approx_len_add |].
  intros H1. rewrite approx_len_add. f_equal.
  destruct (Z.to_nat k) as [|n] eqn:Hn; [lia |].
  rewrite Nat.add_succ_r. cbn [detail_len]. now rewrite approx_len_add.
Qed.

Lemma calc_approx_detail_len_compose_witness :
  calc_approx_detail_len (fst (calc_approx_detail_len 1000 3)) 2 =
  calc_approx_detail_len 1000 5.
Proof.
  assert (H : is_size_t 1000) by (unfold is_size_t, max_size; lia).
  apply (calc_approx_detail_len_compose 1000 3 2 H); lia.
Defined.

(** ** The partition count in closed form *)

(** The loop count is the least exponent [n] with [L <= 2^n]. *)
Lemma num_of_partitions_pow2_bounds (L : Z) :
  1 <= L <= max_size ->
  0 <= num_of_partitions L <= 64 /\
  L <= 2 ^ num_of_partitions L /\
  (forall m, 0 <= m < num_of_partitions L -> 2 ^ m < L).
Proof.
  intros HL. assert (Hsz : is_size_t L) by (unfold is_size_t; lia).
  destruct (num_of_partitions_spec L Hsz) as (n & Hn & Hrun & Hstop & Hbefore).
  rewrite Hrun. split; [lia | split].
  - rewrite <- approx_len_iter, approx_len_closed in Hstop.
    exact (proj1 (ceil_div_le_one L _ (pow2_pos n) ltac:(lia)) Hstop).
  - intros m Hm. specialize (Hbefore (Z.to_nat m) ltac:(lia)).
    rewrite <- approx_len_iter, approx_len_closed, Z2Nat.id in Hbefore by lia.
    destruct (Z_lt_le_dec (2 ^ m) L) as [Hlt | Hge]; [assumption |].
    assert (Hp : 0 < 2 ^ m) by (apply Z.pow_pos_nonneg; lia).
    pose proof (proj2 (ceil_div_le_one L _ Hp ltac:(lia)) Hge). lia.
Qed.

Lemma num_of_partitions_eq_log2_up (L : Z) :
  is_size_t L -> num_of_partitions L = Z.log2_up L.
Proof.
  intros Hsz. unfold is_size_t in Hsz.
  destruct (Z_le_gt_dec L 1) as [Hle | Hgt].
  - assert (HL : L = 0 \/ L = 1) by lia. destruct HL as [-> | ->]; reflexivity.
  - destruct (num_of_partitions_pow2_bounds L ltac:(lia)) as (Hb & Hup & Hlow).
    symmetry. destruct (Z_le_gt_dec (num_of_partitions L) 0) as [H0 | Hpos].
    + assert (Hz : num_of_partitions L = 0) by lia. rewrite Hz in Hup.
      simpl in Hup. lia.
    + apply Z.log2_up_unique; [lia |]. split; [| assumption].
      apply Hlow. lia.
Qed.

(** X6. [num_of_partitions L] is the base-2 logarithm of [L] rounded up:
    0 for [L <= 1], and otherwise the [n] with [2^(n-1) < L <= 2^n]. *)
Theorem num_of_partitions_log2_up (L : Z) :
  is_size_t L ->
  num_of_partitions L = Z.log2_up L /\
  (2 <= L ->
   2 ^ (num_of_partitions L - 1) < L <= 2 ^ num_of_partitions L).
Proof.
  intros Hsz. split; [now apply num_of_partitions_eq_log2_up |].
  intros H2. rewrite num_of_partitions_eq_log2_up by assumption.
  apply (Z.log2_up_spec L). lia.
Qed.

Lemma num_of_partitions_log2_up_witness :
  is_size_t 1000 /\ num_of_partitions 1000 = 10 /\ 2 ^ 9 < 1000 <= 2 ^ 10.
Proof.
  assert (H : is_size_t 1000) by (unfold is_size_t, max_size; lia).
  split; [exact H | split; [reflexivity |]].
  apply (num_of_partitions_log2_up 1000 H). lia.
Defined.

(** X7. [num_of_partitions] is monotone in the axis length and never
    exceeds 64, the width of [size_t]. *)
Theorem num_of_partitions_monotone (L L' : Z) :
  is_size_t L -> is_size_t L' -> L <= L' ->
  0 <= num_of_partitions L <= num_of_partitions L' /\
  num_of_partitions L' <= 64.
Proof.
  intros HL HL' Hle. rewrite !num_of_partitions_eq_log2_up by assumption.
  split; [split; [apply Z.log2_up_nonneg | now apply Z.log2_up_le_mono] |].
  unfold is_size_t, max_size in HL'.
  destruct (Z_le_gt_dec L' 0) as [H0 | Hpos].
  - assert (Hz : L' = 0) by lia. rewrite Hz. vm_compute. discriminate.
  - apply Z.log2_up_le_pow2; lia.
Qed.

Lemma num_of_partitions_monotone_witness :
  num_of_partitions 5 <= num_of_partitions 1000 /\ num_of_partitions max_size = 64.
Proof.
  assert (H5 : is_size_t 5) by (unfold is_size_t, max_size; lia).
  assert (H : is_size_t 1000) by (unfold is_size_t, max_size; lia).
  split; [apply (num_of_partitions_monotone 5 1000 H5 H); lia |].
  rewrite num_of_partitions_eq_log2_up by (unfold is_size_t, max_size; lia).
  reflexivity.
Defined.

(** X8. On a power of two the count is the exponent, and doubling the
    axis length adds exactly one partition. *)
Theorem num_of_partitions_doubling (L k : Z) :
  1 <= L -> 2 * L <= max_size -> 0 <= k <= 63 ->
  num_of_partitions (2 ^ k) = k /\
  num_of_partitions (2 * L) = num_of_partitions L + 1.
Proof.
  intros HL H2L Hk. split.
  - rewrite num_of_partitions_eq_log2_up; [now apply Z.log2_up_pow2 |].
    unfold is_size_t, max_size.
    assert (2 ^ k <= 2 ^ 63) by (apply Z.pow_le_mono_r; lia).
    assert (0 < 2 ^ k) by (apply Z.pow_pos_nonneg; lia). lia.
  - rewrite !num_of_partitions_eq_log2_up by (unfold is_size_t; lia).
    destruct (Z_le_gt_dec L 1) as [Hle | Hgt].
    + assert (HL1 : L = 1) by lia. rewrite HL1. reflexivity.
    + pose proof (Z.log2_up_spec L ltac:(lia)) as [Hlo Hhi].
      pose proof (Z.log2_up_pos L ltac:(lia)) as Hpos.
      apply Z.log2_up_unique; [lia |].
      replace (Z.pred (Z.log2_up L + 1)) with (Z.succ (Z.pred (Z.log2_up L))) by lia.
      rewrite Z.pow_succ_r by lia.
      rewrite Z.add_1_r, Z.pow_succ_r by lia. lia.
Qed.

Lemma num_of_partitions_doubling_witness :
  num_of_partitions (2 ^ 10) = 10 /\ num_of_partitions (2 * 12) = num_of_partitions 12 + 1.
Proof. apply (num_of_partitions_doubling 12 10); unfold max_size; lia. Defined.

(** X9. Levels past the partition count are idle: for an axis of length
    [L >= 1] the low-pass length is 1 exactly from level
    [num_of_partitions L] on, every earlier level still splits off a
    non-empty high-pass part, and every later level returns [(1, 0)]. *)
Theorem calc_approx_detail_len_idle_levels (L k : Z) :
  1 <= L <= max_size -> 0 <= k ->
  (fst (calc_approx_detail_len L k) = 1 <-> num_of_partitions L <= k) /\
  (k < num_of_partitions L -> 1 <= snd (calc_approx_detail_len L (k + 1))) /\
  (num_of_partitions L < k -> calc_approx_detail_len L k = (1, 0)).
Proof.
  intros HL Hk. assert (Hsz : is_size_t L) by (unfold is_size_t; lia).
  destruct (num_of_partitions_pow2_bounds L HL) as (Hb & Hup & Hlow).
  assert (Hone : forall j, 0 <= j ->
            (approx_len L (Z.to_nat j) = 1 <-> num_of_partitions L <= j)).
  { intros j Hj. pose proof (approx_len_pos L (Z.to_nat j) ltac:(lia)) as Hp.
    rewrite approx_len_closed, Z2Nat.id in * by assumption.
    assert (Hiff : ceil_div L (2 ^ j) <= 1 <-> L <= 2 ^ j)
      by (apply ceil_div_le_one; [apply Z.pow_pos_nonneg; lia | lia]).
    split; intros H.
    - destruct (Z_le_gt_dec (num_of_partitions L) j) as [|Hgt]; [assumption |].
      specialize (Hlow j ltac:(lia)). lia.
    - assert (2 ^ num_of_partitions L <= 2 ^ j) by (apply Z.pow_le_mono_r; lia).
      lia. }
  rewrite !calc_approx_detail_len_spec by assumption. cbn [fst snd].
  split; [now apply Hone | split].
  - intros Hlt. replace (Z.to_nat (k + 1)) with (S (Z.to_nat k)) by lia.
    cbn [detail_len].
    pose proof (approx_len_pos L (Z.to_nat k) ltac:(lia)) as Hp.
    assert (Hne : approx_len L (Z.to_nat k) <> 1).
    { intros Heq. apply Hone in Heq; lia. }
    apply Z.div_le_lower_bound; lia.
  - intros Hgt. f_equal; [apply Hone; lia |].
    replace (Z.to_nat k) with (S (Z.to_nat (k - 1))) by lia.
    cbn [detail_len].
    replace (approx_len L (Z.to_nat (k - 1))) with 1; [reflexivity |].
    symmetry. apply Hone; lia.
Qed.

Lemma calc_approx_detail_len_idle_levels_witness :
  num_of_partitions 5 = 3 /\ calc_approx_detail_len 5 4 = (1, 0).
Proof.
  split; [reflexivity |].
  apply (calc_approx_detail_len_idle_levels 5 4); [unfold max_size; lia | lia |].
  rewrite num_of_partitions_eq_log2_up by (unfold is_size_t, max_size; lia).
  vm_compute. reflexivity.
Defined.

(** ** Thresholds of the dyadic level count *)

Lemma pow2_split (k : Z) : 1 <= k -> 2 ^ (k + 2) = 8 * 2 ^ (k - 1).
Proof.
  intros Hk. replace (k + 2) with (3 + (k - 1)) by lia.
  rewrite Z.pow_add_r by lia. reflexivity.
Qed.

Lemma num_of_xforms_int_ge (L k : Z) :
  1 <= L -> 1 <= k <= 6 -> (k <= num_of_xforms_int L <-> 2 ^ (k + 2) <= L).
Proof.
  intros HL Hk. unfold num_of_xforms_int.
  rewrite pow2_split by lia.
  assert (Hp : 1 <= 2 ^ (k - 1)) by (apply (Z.pow_le_mono_r 2 0); lia).
  destruct (Z.ltb_spec L 8) as [Hlt | Hge]; [lia |].
  assert (Hq : 0 < L / 8) by (apply Z.div_str_pos; lia).
  pose proof (Z.log2_le_pow2 (L / 8) (k - 1) Hq) as Hlog.
  pose proof (Z.div_mod L 8 ltac:(lia)) as Hdm.
  pose proof (Z.mod_pos_bound L 8 ltac:(lia)) as Hm.
  split; intros H.
  - assert (2 ^ (k - 1) <= L / 8) by (apply Hlog; lia). lia.
  - assert (k - 1 <= Z.log2 (L / 8)) by (apply Hlog; lia). lia.
Qed.

Lemma num_of_xforms_int_range (L : Z) : 0 <= num_of_xforms_int L <= 6.
Proof.
  unfold num_of_xforms_int. destruct (L <? 8); [lia |].
  pose proof (Z.log2_nonneg (L / 8)). lia.
Qed.

Lemma num_of_xforms_int_mono (L L' : Z) :
  1 <= L -> L <= L' -> num_of_xforms_int L <= num_of_xforms_int L'.
Proof.
  intros HL Hle.
  pose proof (num_of_xforms_int_range L) as Hr.
  destruct (Z_le_gt_dec (num_of_xforms_int L) 0) as [H0 | Hpos].
  - pose proof (num_of_xforms_int_range L'). lia.
  - apply (num_of_xforms_int_ge L' (num_of_xforms_int L)); [lia | lia |].
    assert (2 ^ (num_of_xforms_int L + 2) <= L)
      by (apply (num_of_xforms_int_ge L (num_of_xforms_int L)); lia).
    lia.
Qed.

(** X10. The dyadic level count passes [k] exactly at the axis length
    [2^(k+2)]: for [1 <= k <= 6], [num_of_xforms L >= k] if and only if
    [L >= 8 * 2^(k-1)]. *)
Theorem num_of_xforms_thresholds (L k : Z) :
  1 <= L <= max_size -> 1 <= k <= 6 ->
  (k <= num_of_xforms L <-> 2 ^ (k + 2) <= L).
Proof.
  intros HL Hk. rewrite num_of_xforms_int_correct by assumption.
  apply num_of_xforms_int_ge; lia.
Qed.

Lemma num_of_xforms_thresholds_witness :
  (3 <= num_of_xforms 32 <-> 2 ^ (3 + 2) <= 32) /\ 3 <= num_of_xforms 32.
Proof.
  pose proof (num_of_xforms_thresholds 32 3 ltac:(unfold max_size; lia) ltac:(lia)) as H.
  split; [exact H | apply H; simpl; lia].
Defined.

(** X11. [num_of_xforms] is monotone in the axis length. *)
Theorem num_of_xforms_monotone (L L' : Z) :
  1 <= L -> L <= L' -> L' <= max_size ->
  num_of_xforms L <= num_of_xforms L'.
Proof.
  intros HL Hle Hmax. rewrite !num_of_xforms_int_correct by lia.
  now apply num_of_xforms_int_mono.
Qed.

Lemma num_of_xforms_monotone_witness : num_of_xforms 20 <= num_of_xforms 300.
Proof. apply (num_of_xforms_monotone 20 300); unfold max_size; lia. Defined.

(** X12. Eight is the minimal length on which a level is run: every level
    [lev < num_of_xforms L] of the dyadic schedule starts from a low-pass
    part of at least 8 samples, and what is left after the last level has
    at least 4. *)
Theorem num_of_xforms_min_run_length (L lev : Z) :
  1 <= L <= max_size -> 0 <= lev ->
  (lev < num_of_xforms L -> 8 <= fst (calc_approx_detail_len L lev)) /\
  (8 <= L -> 4 <= fst (calc_approx_detail_len L (num_of_xforms L))).
Proof.
  intros HL Hlev. assert (Hsz : is_size_t L) by (unfold is_size_t; lia).
  rewrite num_of_xforms_int_correct by assumption.
  pose proof (num_of_xforms_int_range L) as Hr.
  rewrite !calc_approx_detail_len_spec by assumption. cbn [fst].
  rewrite !approx_len_closed, !Z2Nat.id by lia.
  split.
  - intros Hlt.
    assert (Hth : 2 ^ (lev + 1 + 2) <= L)
      by (apply (num_of_xforms_int_ge L (lev + 1)); lia).
    apply ceil_div_ge; [apply Z.pow_pos_nonneg; lia |].
    replace (lev + 1 + 2) with (lev + 3) in Hth by lia.
    rewrite Z.pow_add_r in Hth by lia. change (2 ^ 3) with 8 in Hth. lia.
  - intros H8.
    assert (H1 : 1 <= num_of_xforms_int L)
      by (apply (num_of_xforms_int_ge L 1); [lia | lia | simpl; lia]).
    assert (Hth : 2 ^ (num_of_xforms_int L + 2) <= L)
      by (apply (num_of_xforms_int_ge L (num_of_xforms_int L)); lia).
    apply ceil_div_ge; [apply Z.pow_pos_nonneg; lia |].
    rewrite Z.pow_add_r in Hth by lia. change (2 ^ 2) with 4 in Hth. lia.
Qed.

Lemma num_of_xforms_min_run_length_witness :
  8 <= fst (calc_approx_detail_len 100 3) /\
  4 <= fst (calc_approx_detail_len 100 (num_of_xforms 100)).
Proof.
  assert (H : 1 <= 100 <= max_size) by (unfold max_size; lia).
  destruct (num_of_xforms_min_run_length 100 3 H ltac:(lia)) as [Hrun Hleft].
  split; [apply Hrun | apply Hleft; lia].
  rewrite num_of_xforms_int_correct by exact H. reflexivity.
Defined.

(** X13. The dyadic schedule is never deeper than the partition count, and
    an axis of at least 8 samples admits at least two more partitions than
    dyadic levels. *)
Theorem num_of_xforms_below_partitions (L : Z) :
  1 <= L <= max_size ->
  num_of_xforms L <= num_of_partitions L /\
  (8 <= L -> num_of_xforms L + 2 <= num_of_partitions L).
Proof.
  intros HL. assert (Hsz : is_size_t L) by (unfold is_size_t; lia).
  rewrite num_of_xforms_int_correct, num_of_partitions_eq_log2_up by assumption.
  pose proof (Z.log2_up_nonneg L) as Hnn.
  unfold num_of_xforms_int.
  destruct (Z.ltb_spec L 8) as [Hlt | Hge]; [repeat split; lia |].
  assert (Hq : 0 < L / 8) by (apply Z.div_str_pos; lia).
  pose proof (Z.log2_spec (L / 8) Hq) as [Hlo _].
  pose proof (Z.log2_nonneg (L / 8)) as Hj.
  pose proof (Z.div_mod L 8 ltac:(lia)) as Hdm.
  pose proof (Z.mod_pos_bound L 8 ltac:(lia)) as Hm.
  assert (Hlt : Z.log2 (L / 8) + 2 < Z.log2_up L).
  { apply Z.log2_up_lt_pow2; [lia |].
    rewrite Z.pow_add_r by lia. change (2 ^ 2) with 4. lia. }
  repeat split; lia.
Qed.

Lemma num_of_xforms_below_partitions_witness :
  num_of_xforms 100 + 2 <= num_of_partitions 100.
Proof.
  apply (num_of_xforms_below_partitions 100); [unfold max_size; lia | lia].
Defined.

(* ===================================================================== *)
(** * Part IV. Properties of the command-line driver                     *)
(* ===================================================================== *)

Section DriverProperties.

Context (scan_d scan_zu : string -> option Z).
Context (atof : string -> float).
Context (EB_STR : Cli.EB -> string).

#[local] Abbreviation parse_args := (Cli.parse_args scan_d scan_zu).
#[local] Abbreviation main := (Cli.main scan_d scan_zu atof EB_STR).

(** Case analysis on every [match] of a hypothesis, closing the branches
    that exit. *)
Ltac split_matches H :=
  repeat match type of H with
         | context [match ?x with _ => _ end] =>
             let E := fresh "E" in destruct x eqn:E; try discriminate H
         | context [if ?x then _ else _] =>
             let E := fresh "E" in destruct x eqn:E; try discriminate H
         end.

(** An invariant of the option loop: a property of the locals kept by the
    assignments the loop makes is kept by the loop.  The loop never assigns
    [delCmpPath] and assigns [dataType] one of the four supported types. *)
Lemma parse_args_invariant (P : Cli.locals -> Prop) :
  (forall x v st, P st -> P (Cli.setp x v st)) ->
  (forall x v st, x <> Cli.delCmpPath -> P st -> P (Cli.setb x v st)) ->
  (forall x v st, x <> Cli.dataType -> P st -> P (Cli.seti x v st)) ->
  (forall v st, Cli.supported v = true -> P st -> P (Cli.seti Cli.dataType v st)) ->
  forall args st st', P st -> parse_args args st = Cli.Continue st' -> P st'.
Proof.
  intros Hp Hb Hi Hd args.
  assert (Hlen : exists n, (List.length args <= n)%nat) by (exists (List.length args); lia).
  destruct Hlen as [n Hn]. revert args Hn.
  induction n as [|n IH]; intros args Hn st st' HP Hrun.
  - destruct args; [| simpl in Hn; lia]. simpl in Hrun. now injection Hrun as <-.
  - destruct args as [|arg rest]; [simpl in Hrun; now injection Hrun as <- |].
    simpl in Hn. cbn [Cli.parse_args] in Hrun.
    destruct (Cli.option_char arg) as [c | |]; try discriminate Hrun.
    destruct c as [b0 b1 b2 b3 b4 b5 b6 b7].
    destruct b0, b1, b2, b3, b4, b5, b6, b7; cbv iota beta in Hrun;
      try discriminate Hrun;
      split_matches Hrun;
      try (injection Hrun as <-);
      simpl in Hn;
      first
        [ solve [ repeat first [ assumption
                               | apply Hp | apply Hb; [discriminate |]
                               | apply Hi; [discriminate |]
                               | apply Hd; [reflexivity |] ] ]
        | (eapply IH; [| | exact Hrun];
           [ simpl; lia
           | repeat first [ assumption
                          | apply Hp | apply Hb; [discriminate |]
                          | apply Hi; [discriminate |]
                          | apply Hd; [reflexivity |] ] ]) ].
Qed.

(** The loop leaves a supported type in [dataType] and does not touch
    [delCmpPath]. *)
Lemma parse_args_supported args st :
  parse_args args Cli.initial = Cli.Continue st ->
  Cli.supported (Cli.ints st Cli.dataType) = true /\
  Cli.bools st Cli.delCmpPath = false.
Proof.
  apply (parse_args_invariant
           (fun st => Cli.supported (Cli.ints st Cli.dataType) = true /\
                      Cli.bools st Cli.delCmpPath = false)).
  - intros x v s H. exact H.
  - intros x v s Hx [H1 H2]. split; [exact H1 |].
    destruct x; simpl; try assumption. contradiction.
  - intros x v s Hx [H1 H2]. split; [| exact H2].
    destruct x; simpl; try assumption. contradiction.
  - intros v s Hv [H1 H2]. split; [exact Hv | exact H2].
  - split; reflexivity.
Qed.

(** What the mode decision guarantees when it lets the run go on. *)
Lemma decide_modes_spec st st' :
  Cli.decide_modes st = Cli.Continue st' ->
  Cli.ints st' = Cli.ints st /\
  Cli.ptrs st' Cli.errBoundMode = Cli.ptrs st Cli.errBoundMode /\
  Cli.ptrs st' Cli.inPath = Cli.ptrs st Cli.inPath /\
  (Cli.bools st' Cli.compression = true ->
   Cli.ptrs st' Cli.inPath <> None /\ Cli.ptrs st' Cli.errBoundMode <> None) /\
  (Cli.bools st' Cli.compression = true \/ Cli.bools st' Cli.decompression = true) /\
  (Cli.bools st Cli.delCmpPath = false ->
   Cli.bools st' Cli.delCmpPath = true ->
   Cli.bools st' Cli.decompression = true /\
   exists path,
     Cli.ptrs st' Cli.inPath = Some path /\
     Cli.ptrs st' Cli.cmpPath = Some (String.append path ".qoz.tmp")).
Proof.
  unfold Cli.decide_modes, Cli.is_null, Cli.usage. intros H.
  destruct (Cli.ptrs st Cli.inPath) as [ip|] eqn:Ei;
    destruct (Cli.ptrs st Cli.cmpPath) as [cp|] eqn:Ec;
    destruct (Cli.ptrs st Cli.decPath) as [dp|] eqn:Ed;
    destruct (Cli.ptrs st Cli.errBoundMode) as [em|] eqn:Em;
    destruct (Cli.bools st Cli.sz2mode) eqn:Es;
    destruct (Cli.bools st Cli.compression) eqn:Eco;
    destruct (Cli.bools st Cli.decompression) eqn:Ede;
    repeat (progress (cbn -[Cli.cmpPathTmp_overrun] in H;
                      rewrite ?Ei, ?Ec, ?Ed, ?Em, ?Es, ?Eco, ?Ede in H));
    try discriminate H;
    try (destruct (Cli.cmpPathTmp_overrun ip);
         repeat (progress (cbn in H; rewrite ?Ei, ?Ec, ?Ed, ?Em, ?Es, ?Eco, ?Ede in H));
         try discriminate H);
    first [injection H as <- | match type of H with ?t => idtac t end; fail 1];
    repeat (progress (cbn; rewrite ?Ei, ?Ec, ?Ed, ?Em, ?Es, ?Eco, ?Ede));
    repeat match goal with |- _ /\ _ => split end;
    try reflexivity; try (intros; discriminate); try (intros _; split; discriminate);
    try (left; reflexivity); try (right; reflexivity);
    try (intros Hd Hd'; rewrite Hd in Hd'; discriminate Hd');
    try (intros _ _; split; [reflexivity | eexists; split; reflexivity]).
Qed.

Lemma decide_modes_exit st t :
  Cli.decide_modes st = Cli.Exit0 t ->
  t = [Cli.ErrNoInput; Cli.UsageText] \/ t = [Cli.UsageText].
Proof.
  unfold Cli.decide_modes, Cli.is_null, Cli.usage. intros H.
  destruct (Cli.ptrs st Cli.inPath) as [ip|] eqn:Ei;
    destruct (Cli.ptrs st Cli.cmpPath) as [cp|] eqn:Ec;
    destruct (Cli.ptrs st Cli.decPath) as [dp|] eqn:Ed;
    destruct (Cli.ptrs st Cli.errBoundMode) as [em|] eqn:Em;
    destruct (Cli.bools st Cli.sz2mode) eqn:Es;
    destruct (Cli.bools st Cli.compression) eqn:Eco;
    destruct (Cli.bools st Cli.decompression) eqn:Ede;
    repeat (progress (cbn -[Cli.cmpPathTmp_overrun] in H;
                      rewrite ?Ei, ?Ec, ?Ed, ?Em, ?Es, ?Eco, ?Ede in H));
    try discriminate H;
    try (destruct (Cli.cmpPathTmp_overrun ip);
         repeat (progress (cbn in H; rewrite ?Ei, ?Ec, ?Ed, ?Em, ?Es, ?Eco, ?Ede in H));
         try discriminate H);
    injection H as <-; auto.
Qed.

Lemma set_error_bound_spec st conf conf' :
  Cli.set_error_bound atof EB_STR st conf = Cli.Continue conf' ->
  Cli.ptrs st Cli.errBoundMode <> None -> Cli.errorBoundMode conf' <> None.
Proof.
  unfold Cli.set_error_bound. intros H Hm.
  destruct (Cli.ptrs st Cli.errBoundMode) as [mode|]; [| contradiction].
  split_matches H; injection H as <-; discriminate.
Qed.

Lemma set_tuning_target_spec st conf conf' :
  Cli.set_tuning_target st conf = Cli.Continue conf' ->
  Cli.errorBoundMode conf' = Cli.errorBoundMode conf.
Proof.
  unfold Cli.set_tuning_target. intros H.
  split_matches H; injection H as <-; reflexivity.
Qed.

(** The dispatch once the type is known to be supported. *)
Lemma dispatch_supported st conf :
  Cli.supported (Cli.ints st Cli.dataType) = true ->
  let type := Cli.ints st Cli.dataType in
  let compress := Cli.Compress type (Cli.ptrs st Cli.inPath) (Cli.ptrs st Cli.cmpPath) conf in
  let decompress :=
    Cli.Decompress type (Cli.ptrs st Cli.inPath) (Cli.ptrs st Cli.cmpPath)
      (Cli.ptrs st Cli.decPath) conf (Cli.bools st Cli.binaryOutput)
      (Cli.ints st Cli.printCmpResults) in
  let done := if Cli.bools st Cli.compression then [compress] else [] in
  let removal :=
    if Cli.bools st Cli.delCmpPath then [Cli.Remove (Cli.ptrs st Cli.cmpPath)] else [] in
  Cli.dispatch st conf =
  if Cli.bools st Cli.decompression then
    if negb (Cli.ints st Cli.printCmpResults =? 0) && Cli.is_null Cli.inPath st
    then (done, Cli.Exited [Cli.ErrNeedOriginal])
    else (done ++ [decompress] ++ removal, Cli.Returned)
  else (done ++ removal, Cli.Returned).
Proof.
  intros Hs. cbv zeta. unfold Cli.dispatch. rewrite Hs.
  destruct (Cli.bools st Cli.compression); reflexivity.
Qed.

(** The loop exits only through the help texts or the version. *)
Lemma parse_args_exit_text : forall args st t,
  parse_args args st = Cli.Exit0 t ->
  t = [Cli.UsageText] \/ t = [Cli.UsageSz2Text] \/ t = [Cli.VersionText].
Proof.
  intros args.
  assert (Hlen : exists n, (List.length args <= n)%nat) by (exists (List.length args); lia).
  destruct Hlen as [n Hn]. revert args Hn.
  induction n as [|n IH]; intros args Hn st t Hrun.
  - destruct args; [| simpl in Hn; lia]. discriminate Hrun.
  - destruct args as [|arg rest]; [discriminate Hrun |].
    simpl in Hn. cbn [Cli.parse_args] in Hrun.
    destruct (Cli.option_char arg) as [c | t' |] eqn:Ec; try discriminate Hrun.
    + destruct c as [b0 b1 b2 b3 b4 b5 b6 b7].
      destruct b0, b1, b2, b3, b4, b5, b6, b7; cbv iota beta in Hrun;
        unfold Cli.usage in Hrun;
        try (injection Hrun as <-; auto; fail);
        split_matches Hrun;
        try (injection Hrun as <-; auto; fail);
        simpl in Hn;
        (eapply IH; [| exact Hrun]; simpl; lia).
    + injection Hrun as <-. unfold Cli.option_char, Cli.usage, Cli.usage_sz2 in Ec.
      split_matches Ec; injection Ec as <-; auto.
Qed.

(** A run that stops before the dispatch has called nothing, and what it
    printed is a help text, the version, or one of the three complaints
    about the arguments. *)
Lemma main_stops_early argv acts e :
  main argv = (acts, e) ->
  (acts = [] /\
   (e = Cli.Undefined \/
    exists t, e = Cli.Exited t /\
              ~ In Cli.ErrUnsupportedType t /\ ~ In Cli.ErrNeedOriginal t)) \/
  exists st0 st conf0 conf,
    parse_args (tl argv) Cli.initial = Cli.Continue st0 /\
    Cli.decide_modes st0 = Cli.Continue st /\
    Cli.set_error_bound atof EB_STR st (Cli.make_config st) = Cli.Continue conf0 /\
    Cli.set_tuning_target st conf0 = Cli.Continue conf /\
    Cli.dispatch st conf = (acts, e).
Proof.
  intros H.
  assert (Hclean : forall t : list Cli.text,
             t = [Cli.UsageText] \/ t = [Cli.UsageSz2Text] \/ t = [Cli.VersionText] \/
             t = [Cli.ErrNoInput; Cli.UsageText] \/
             t = [Cli.ErrWrongMode; Cli.UsageText] \/
             t = [Cli.ErrWrongTarget; Cli.UsageText] ->
             ~ In Cli.ErrUnsupportedType t /\ ~ In Cli.ErrNeedOriginal t).
  { intros t Ht.
    repeat (destruct Ht as [-> | Ht]); try subst t;
      split; simpl; intros Hin;
      repeat (destruct Hin as [Hin | Hin]; try discriminate Hin); assumption. }
  unfold Cli.main in H.
  assert (Hone : (exists a, argv = [a]) \/ ~ (exists a, argv = [a])).
  { destruct argv as [|a [|b l]]; [right | left | right]; try (now exists a);
      intros [x Hx]; discriminate Hx. }
  destruct Hone as [[a ->] | Hmany].
  { left. injection H as <- <-. split; [reflexivity | right].
    eexists. split; [reflexivity |]. apply Hclean. auto. }
  assert (Hgen :
    match parse_args (tl argv) Cli.initial with
    | Cli.UndefinedBehaviour => ([], Cli.Undefined)
    | Cli.Exit0 t => ([], Cli.Exited t)
    | Cli.Continue st =>
      match Cli.decide_modes st with
      | Cli.UndefinedBehaviour => ([], Cli.Undefined)
      | Cli.Exit0 t => ([], Cli.Exited t)
      | Cli.Continue st =>
        match Cli.set_error_bound atof EB_STR st (Cli.make_config st) with
        | Cli.UndefinedBehaviour => ([], Cli.Undefined)
        | Cli.Exit0 t => ([], Cli.Exited t)
        | Cli.Continue conf =>
          match Cli.set_tuning_target st conf with
          | Cli.UndefinedBehaviour => ([], Cli.Undefined)
          | Cli.Exit0 t => ([], Cli.Exited t)
          | Cli.Continue conf => Cli.dispatch st conf
          end
        end
      end
    end = (acts, e)).
  { destruct argv as [|a [|b l]]; [exact H | | exact H].
    exfalso. apply Hmany. now exists a. }
  clear H.
  destruct (parse_args (tl argv) Cli.initial) as [st0 | t |] eqn:Hp.
  2: { left. injection Hgen as <- <-. split; [reflexivity | right].
       exists t. split; [reflexivity |]. apply Hclean.
       apply parse_args_exit_text in Hp. tauto. }
  2: { left. injection Hgen as <- <-. split; [reflexivity | now left]. }
  destruct (Cli.decide_modes st0) as [st | t |] eqn:Hm.
  2: { left. injection Hgen as <- <-. split; [reflexivity | right].
       exists t. split; [reflexivity |]. apply Hclean.
       apply decide_modes_exit in Hm. tauto. }
  2: { left. injection Hgen as <- <-. split; [reflexivity | now left]. }
  destruct (Cli.set_error_bound atof EB_STR st (Cli.make_config st)) as [conf0 | t |] eqn:He.
  2: { left. injection Hgen as <- <-. split; [reflexivity | right].
       exists t. split; [reflexivity |]. apply Hclean.
       unfold Cli.set_error_bound in He.
       split_matches He; injection He as <-; auto 10. }
  2: { left. injection Hgen as <- <-. split; [reflexivity | now left]. }
  destruct (Cli.set_tuning_target st conf0) as [conf | t |] eqn:Ht.
  2: { left. injection Hgen as <- <-. split; [reflexivity | right].
       exists t. split; [reflexivity |]. apply Hclean.
       unfold Cli.set_tuning_target in Ht.
       split_matches Ht; injection Ht as <-; auto 10. }
  2: { left. injection Hgen as <- <-. split; [reflexivity | now left]. }
  right. exists st0, st, conf0, conf. repeat split; assumption.
Qed.

(** The facts available when [main] reaches the dispatch. *)
Lemma main_at_dispatch args st0 st :
  parse_args args Cli.initial = Cli.Continue st0 ->
  Cli.decide_modes st0 = Cli.Continue st ->
  Cli.supported (Cli.ints st Cli.dataType) = true /\
  (Cli.bools st Cli.compression = true ->
   Cli.ptrs st Cli.inPath <> None /\ Cli.ptrs st Cli.errBoundMode <> None) /\
  (Cli.bools st Cli.compression = true \/ Cli.bools st Cli.decompression = true) /\
  (Cli.bools st Cli.delCmpPath = true ->
   Cli.bools st Cli.decompression = true /\
   exists path,
     Cli.ptrs st Cli.inPath = Some path /\
     Cli.ptrs st Cli.cmpPath = Some (String.append path ".qoz.tmp")).
Proof.
  intros Hp Hm.
  destruct (parse_args_supported args st0 Hp) as [Hs Hd].
  destruct (decide_modes_spec st0 st Hm) as (Hi & _ & _ & Hc & Hw & Ht).
  rewrite Hi. repeat split; try assumption; try (apply Hc; assumption).
  - apply Ht; assumption.
  - apply Ht; assumption.
Qed.

Ltac at_dispatch H :=
  destruct H as (st0 & st & conf0 & conf & Hp & Hm & He & Ht & Hd);
  destruct (main_at_dispatch _ st0 st Hp Hm) as (Hs & Hc & Hw & Hr);
  rewrite (dispatch_supported st conf Hs) in Hd;
  destruct (Cli.bools st Cli.compression) eqn:Eco;
  destruct (Cli.bools st Cli.decompression) eqn:Ede;
  destruct (negb (Cli.ints st Cli.printCmpResults =? 0) && Cli.is_null Cli.inPath st)
    eqn:Eno;
  destruct (Cli.bools st Cli.delCmpPath) eqn:Edl;
  cbn [app] in Hd; injection Hd as <- <-.

(** X14. [main] never takes the "data type not supported" branch: the
    option loop only ever stores one of the four supported types in
    [dataType], so every call of [compress] and [decompress] is made at a
    supported type and the complaint is never printed. *)
Theorem main_type_always_supported (argv : list string) :
  (forall t, snd (main argv) = Cli.Exited t -> ~ In Cli.ErrUnsupportedType t) /\
  (forall type ip cp conf,
      In (Cli.Compress type ip cp conf) (fst (main argv)) ->
      Cli.supported type = true) /\
  (forall type ip cp dp conf bo pr,
      In (Cli.Decompress type ip cp dp conf bo pr) (fst (main argv)) ->
      Cli.supported type = true).
Proof.
  destruct (main argv) as [acts e] eqn:Hmain.
  apply main_stops_early in Hmain. cbn [fst snd].
  destruct Hmain as [[-> Hstop] | Hgo].
  - split; [| split; intros; contradiction].
    intros t ->. destruct Hstop as [Hu | (t' & [= <-] & Hn & _)];
      [discriminate Hu | exact Hn].
  - at_dispatch Hgo;
      (split; [intros t' Ht'; try discriminate Ht'; injection Ht' as <-;
               simpl; intros [Hx | []]; discriminate Hx |]);
      split; intros; simpl in *;
      repeat match goal with
             | H : _ \/ _ |- _ => destruct H
             | H : False |- _ => contradiction
             | H : Cli.Compress _ _ _ _ = Cli.Compress _ _ _ _ |- _ =>
                 injection H as <- <- <- <-
             | H : Cli.Decompress _ _ _ _ _ _ _ = Cli.Decompress _ _ _ _ _ _ _ |- _ =>
                 injection H as <- <- <- <- <- <- <-
             | H : _ = _ |- _ => discriminate H
             end; try assumption.
Qed.

(** The complaint about the missing original cannot follow a compression. *)
Lemma need_original_excludes_compress st :
  negb (Cli.ints st Cli.printCmpResults =? 0) && Cli.is_null Cli.inPath st = true ->
  Cli.ptrs st Cli.inPath <> None -> False.
Proof.
  intros H Hn. apply andb_true_iff in H. destruct H as [_ H].
  unfold Cli.is_null in H. destruct (Cli.ptrs st Cli.inPath); [discriminate H | now apply Hn].
Qed.

(** X15. [compress] is called only when an input path and an error-bound
    mode were given: its input path is never null, the configuration it
    receives carries the mode that [-M] named, and it is the first call
    [main] makes. *)
Theorem main_compress_needs_input_and_mode (argv : list string) type ip cp cf :
  In (Cli.Compress type ip cp cf) (fst (main argv)) ->
  (exists path, ip = Some path) /\
  (exists eb, Cli.errorBoundMode cf = Some eb) /\
  (exists rest, fst (main argv) = Cli.Compress type ip cp cf :: rest).
Proof.
  destruct (main argv) as [acts e] eqn:Hmain.
  apply main_stops_early in Hmain. cbn [fst].
  destruct Hmain as [[-> _] | Hgo]; [intros [] |].
  assert (Hmode : forall st' c0 c1,
             Cli.set_error_bound atof EB_STR st' (Cli.make_config st') = Cli.Continue c0 ->
             Cli.set_tuning_target st' c0 = Cli.Continue c1 ->
             Cli.ptrs st' Cli.errBoundMode <> None ->
             exists eb, Cli.errorBoundMode c1 = Some eb).
  { intros st' c0 c1 H0 H1 Hn. apply set_tuning_target_spec in H1.
    pose proof (set_error_bound_spec _ _ _ H0 Hn) as Hne. rewrite <- H1 in Hne.
    destruct (Cli.errorBoundMode c1) as [eb|]; [now exists eb | contradiction]. }
  at_dispatch Hgo; simpl; intros Hin;
    repeat (destruct Hin as [Hin | Hin]; try discriminate Hin); try contradiction;
    injection Hin as <- <- <- <-;
    destruct (Hc eq_refl) as [Hin' Hmo];
    (split; [destruct (Cli.ptrs st Cli.inPath) as [path|];
             [now exists path | contradiction] |]);
    (split; [now apply (Hmode st conf0 conf) | eexists; reflexivity]).
Qed.

(** X16. Every call is made on a run that returns normally: when [main]
    exits through [exit(0)] or runs into undefined behaviour, it has called
    neither [compress], [decompress] nor [remove]. *)
Theorem main_early_exit_does_nothing (argv : list string) :
  snd (main argv) <> Cli.Returned -> fst (main argv) = [].
Proof.
  destruct (main argv) as [acts e] eqn:Hmain.
  apply main_stops_early in Hmain. cbn [fst snd].
  destruct Hmain as [[-> _] | Hgo]; [reflexivity |].
  at_dispatch Hgo; intros Hne; try reflexivity; try (now contradiction Hne);
    try (destruct (Hc eq_refl) as [Hin _];
         now destruct (need_original_excludes_compress st Eno Hin)).
Qed.

(** X17. A run that returns normally has done some work: its first call is
    [compress] or [decompress]. *)
Theorem main_returns_after_work (argv : list string) :
  snd (main argv) = Cli.Returned ->
  exists a rest,
    fst (main argv) = a :: rest /\
    match a with Cli.Remove _ => False | _ => True end.
Proof.
  destruct (main argv) as [acts e] eqn:Hmain.
  apply main_stops_early in Hmain. cbn [fst snd].
  destruct Hmain as [[-> Hstop] | Hgo].
  - intros ->. destruct Hstop as [Hu | (t & Ht & _)]; discriminate.
  - at_dispatch Hgo; intros Hret; try discriminate Hret;
      try (destruct Hw as [Hw | Hw]; discriminate Hw);
      simpl; eexists; eexists; (split; [reflexivity | exact I]).
Qed.

(** X18. The only file [main] removes is the temporary file it introduced
    itself: the path is the input path followed by [.qoz.tmp], the removal
    is the last call, and it comes right after the decompression of that
    file. *)
Theorem main_removes_only_its_temp (argv : list string) p :
  In (Cli.Remove p) (fst (main argv)) ->
  exists path type dp conf bo pr before,
    p = Some (String.append path ".qoz.tmp") /\
    fst (main argv) =
      before ++ [Cli.Decompress type (Some path) p dp conf bo pr; Cli.Remove p] /\
    (before = [] \/ before = [Cli.Compress type (Some path) p conf]).
Proof.
  destruct (main argv) as [acts e] eqn:Hmain.
  apply main_stops_early in Hmain. cbn [fst].
  destruct Hmain as [[-> _] | Hgo]; [intros [] |].
  at_dispatch Hgo; simpl; intros Hin;
    repeat (destruct Hin as [Hin | Hin]; try discriminate Hin); try contradiction;
    destruct (Hr eq_refl) as (Hde & path & Hip & Hcp);
    try discriminate Hde;
    try (destruct (Hc eq_refl) as [Hin' _];
         now destruct (need_original_excludes_compress st Eno Hin'));
    injection Hin as <-; rewrite Hip, Hcp;
    exists path; do 5 eexists;
    [ exists [Cli.Compress (Cli.ints st Cli.dataType) (Some path)
                (Some (String.append path ".qoz.tmp")) conf]
    | exists [] ];
    (split; [reflexivity | split; [reflexivity | auto]]).
Qed.

(** The head-of-loop test on a C string. *)
Lemma option_char_cases (arg : string) :
  Cli.c_string arg = true ->
  match arg with
  | EmptyString => Cli.option_char arg = Cli.UndefinedBehaviour
  | String a0 EmptyString =>
      Cli.option_char arg =
      if Ascii.eqb a0 "-" then Cli.UndefinedBehaviour else Cli.usage
  | String a0 (String a1 EmptyString) =>
      Cli.option_char arg =
      if Ascii.eqb a0 "-" then Cli.Continue a1 else Cli.usage
  | String a0 (String a1 (String a2 _)) =>
      Cli.option_char arg =
      if Ascii.eqb a1 "h" && Ascii.eqb a2 "2" then Cli.usage_sz2 else Cli.usage
  end.
Proof.
  intros Hc. destruct arg as [|a0 [|a1 [|a2 rest]]]; [reflexivity | | |].
  - unfold Cli.option_char, Cli.no_dash. cbn.
    destruct (Ascii.eqb a0 "-"); reflexivity.
  - unfold Cli.option_char, Cli.no_dash. cbn.
    destruct (Ascii.eqb a0 "-"); cbn; [reflexivity |].
    cbn in Hc. apply andb_true_iff in Hc. destruct Hc as [_ Hc].
    apply andb_true_iff in Hc. destruct Hc as [H1 _].
    destruct (Ascii.eqb a1 "h"); reflexivity.
  - cbn in Hc. apply andb_true_iff in Hc. destruct Hc as [_ Hc].
    apply andb_true_iff in Hc. destruct Hc as [_ Hc].
    apply andb_true_iff in Hc. destruct Hc as [H2 _].
    unfold Cli.option_char, Cli.no_dash. cbn.
    destruct (Ascii.eqb a2 zero); [discriminate H2 |].
    destruct (Ascii.eqb a0 "-"), (Ascii.eqb a1 "h"), (Ascii.eqb a2 "2"); reflexivity.
Qed.

(** X19. The option loop accepts an argument in option position exactly
    when it is a dash followed by one character.  The empty string and a
    lone dash make it read past the end of the string; a second character
    [h] followed by [2] prints the SZ2 help, anything else the help; and
    when [main] returns normally its first argument had the accepted
    shape. *)
Theorem option_char_accepts (arg : string) :
  Cli.c_string arg = true ->
  (forall c, Cli.option_char arg = Cli.Continue c <->
             arg = String "-" (String c EmptyString)) /\
  (Cli.option_char arg = Cli.UndefinedBehaviour <->
   arg = EmptyString \/ arg = String "-" EmptyString) /\
  (Cli.option_char arg = Cli.usage_sz2 <->
   exists a0 rest, arg = String a0 (String "h" (String "2" rest))) /\
  (Cli.option_char arg = Cli.usage <->
   (forall c, arg <> String "-" (String c EmptyString)) /\
   arg <> EmptyString /\
   arg <> String "-" EmptyString /\
   ~ (exists a0 rest, arg = String a0 (String "h" (String "2" rest)))) /\
  (forall prog rest,
      snd (main (prog :: arg :: rest)) = Cli.Returned ->
      exists c, arg = String "-" (String c EmptyString)).
Proof.
  intros Hc. pose proof (option_char_cases arg Hc) as Hcases.
  assert (Hacc : forall c, Cli.option_char arg = Cli.Continue c <->
                           arg = String "-" (String c EmptyString)).
  { intros c. destruct arg as [|a0 [|a1 [|a2 rest]]]; rewrite Hcases.
    - split; discriminate.
    - unfold Cli.usage. destruct (Ascii.eqb a0 "-"); split; discriminate.
    - unfold Cli.usage. destruct (Ascii.eqb_spec a0 "-") as [-> | Hne].
      + split; [intros [= ->]; reflexivity | intros [= ->]; reflexivity].
      + split; [discriminate | intros [= -> ->]; contradiction].
    - unfold Cli.usage, Cli.usage_sz2.
      destruct (Ascii.eqb a1 "h" && Ascii.eqb a2 "2"); split; discriminate. }
  split; [exact Hacc | split; [| split; [| split]]].
  - destruct arg as [|a0 [|a1 [|a2 rest]]]; rewrite Hcases.
    + split; [now left | reflexivity].
    + unfold Cli.usage. destruct (Ascii.eqb_spec a0 "-") as [-> | Hne].
      * split; [now right | reflexivity].
      * split; [discriminate | intros [H | [= ->]]; [discriminate H | contradiction]].
    + unfold Cli.usage. destruct (Ascii.eqb a0 "-");
        (split; [discriminate | intros [H | H]; discriminate H]).
    + unfold Cli.usage, Cli.usage_sz2.
      destruct (Ascii.eqb a1 "h" && Ascii.eqb a2 "2");
        (split; [discriminate | intros [H | H]; discriminate H]).
  - destruct arg as [|a0 [|a1 [|a2 rest]]]; rewrite Hcases.
    + split; [discriminate | intros (x & r & H); discriminate H].
    + unfold Cli.usage, Cli.usage_sz2. destruct (Ascii.eqb a0 "-");
        (split; [discriminate | intros (x & r & H); discriminate H]).
    + unfold Cli.usage, Cli.usage_sz2. destruct (Ascii.eqb a0 "-");
        (split; [discriminate | intros (x & r & H); discriminate H]).
    + unfold Cli.usage, Cli.usage_sz2.
      destruct (Ascii.eqb_spec a1 "h") as [E1 | H1];
        destruct (Ascii.eqb_spec a2 "2") as [E2 | H2]; cbn;
        (split;
         [ intros H; try discriminate H; subst; now exists a0, rest
         | intros (x & r & H); try reflexivity;
           injection H as _ Ha Hb _; contradiction ]).
  - destruct arg as [|a0 [|a1 [|a2 rest]]]; rewrite Hcases.
    + split; [discriminate | intros (_ & Hne & _); now contradiction Hne].
    + unfold Cli.usage. destruct (Ascii.eqb_spec a0 "-") as [-> | Hne].
      * split; [discriminate | intros (_ & _ & Hd & _); now contradiction Hd].
      * split; [| reflexivity]. intros _.
        repeat split; try discriminate.
        -- intros [= ->]. contradiction.
        -- intros (x & r & H). discriminate H.
    + unfold Cli.usage. destruct (Ascii.eqb_spec a0 "-") as [-> | Hne].
      * split; [discriminate | intros (Hd & _); now contradiction (Hd a1)].
      * split; [| reflexivity]. intros _.
        repeat split; try discriminate.
        -- intros c [= -> _]. contradiction.
        -- intros (x & r & H). discriminate H.
    + unfold Cli.usage, Cli.usage_sz2.
      destruct (Ascii.eqb_spec a1 "h") as [E1 | H1];
        destruct (Ascii.eqb_spec a2 "2") as [E2 | H2]; cbn;
        try (split; [discriminate |]; intros (_ & _ & _ & Hd); subst;
             exfalso; apply Hd; now exists a0, rest);
        (split; [| reflexivity]; intros _;
         repeat split; try discriminate;
         intros (x & r & H); injection H as _ Ha Hb _; contradiction).
  - intros prog rest Hret.
    destruct (main (prog :: arg :: rest)) as [acts e] eqn:Hmain.
    cbn [snd] in Hret. subst e.
    apply main_stops_early in Hmain.
    destruct Hmain as [[_ [Hu | (t & Ht & _)]] | Hgo]; try discriminate.
    destruct Hgo as (st0 & _ & _ & _ & Hp & _).
    cbn [tl Cli.parse_args] in Hp.
    destruct (Cli.option_char arg) as [c | |] eqn:Eo; try discriminate Hp.
    exists c. now apply Hacc.
Qed.

End DriverProperties.



Lemma main_type_always_supported_witness :
  fst (Cli.main (fun _ => Some 64) (fun _ => Some 8) (fun _ => 0%float) (fun _ => "ABS"%string)
         ["qoz"; "-I"; "64"; "-i"; "in.dat"; "-z"; "out.qoz"; "-M"; "ABS"]%string) <> [] /\
  forall type ip cp conf,
    In (Cli.Compress type ip cp conf)
      (fst (Cli.main (fun _ => Some 64) (fun _ => Some 8) (fun _ => 0%float)
              (fun _ => "ABS"%string)
              ["qoz"; "-I"; "64"; "-i"; "in.dat"; "-z"; "out.qoz"; "-M"; "ABS"]%string)) ->
    Cli.supported type = true.
Proof.
  split; [vm_compute; discriminate |].
  apply (main_type_always_supported (fun _ => Some 64) (fun _ => Some 8)
           (fun _ => 0%float) (fun _ => "ABS"%string)).
Defined.


(** ** The sample counts of [super_resolution] *)

Lemma lr_num_fold dims : forall acc,
  fold_left (fun n d => wrap (n + d)) dims (wrap acc) =
  wrap (acc + fold_right Z.add 0 dims).
Proof.
  induction dims as [|d dims IH]; intros acc; simpl.
  - now rewrite Z.add_0_r.
  - assert (Hw : wrap (wrap acc + d) = wrap (acc + d))
      by (unfold wrap; apply Zplus_mod_idemp_l).
    rewrite Hw, IH. f_equal. lia.
Qed.

Lemma static_cast_size_t_IZR z : 0 <= z -> static_cast_size_t (IZR z) = z.
Proof.
  intros Hz. unfold static_cast_size_t.
  destruct (Rle_dec 0 (IZR z)) as [_ | Hn]; [| exfalso; apply Hn; now apply IZR_le].
  symmetry. apply Int_part_spec. lra.
Qed.

(** X20. [super_resolution] writes [1 + (sum of lr_dims)] samples, reduced
    modulo [2^64]: the loop adds the dimensions to 1, it does not multiply
    them.  It reads back that count times [scale^N], as long as the product
    is in the range where a [double] holds every integer. *)
Theorem super_resolution_sample_counts (lr_dims : list Z) (scale : Z) :
  let total := 1 + fold_right Z.add 0 lr_dims in
  lr_num lr_dims = wrap total /\
  (0 <= total <= max_size -> lr_num lr_dims = total) /\
  (0 <= total -> 0 <= scale ->
   total * scale ^ Z.of_nat (List.length lr_dims) < 2 ^ 53 ->
   hr_num lr_dims scale = total * scale ^ Z.of_nat (List.length lr_dims)).
Proof.
  cbv zeta.
  assert (Hfold : lr_num lr_dims = wrap (1 + fold_right Z.add 0 lr_dims)).
  { unfold lr_num. change 1 with (wrap 1) at 1. apply lr_num_fold. }
  assert (Hsmall : 0 <= 1 + fold_right Z.add 0 lr_dims <= max_size ->
                   lr_num lr_dims = 1 + fold_right Z.add 0 lr_dims).
  { intros H. rewrite Hfold. now apply wrap_small. }
  split; [exact Hfold | split; [exact Hsmall |]].
  intros Ht Hs Hp. unfold hr_num.
  destruct (Z.eq_dec (scale ^ Z.of_nat (List.length lr_dims)) 0) as [H0 | Hne].
  - rewrite pow_IZR, H0, Rmult_0_r, Z.mul_0_r.
    now apply static_cast_size_t_IZR.
  - assert (Hpos : 1 <= scale ^ Z.of_nat (List.length lr_dims)).
    { pose proof (Z.pow_nonneg scale (Z.of_nat (List.length lr_dims)) Hs). lia. }
    assert (Hle : 1 + fold_right Z.add 0 lr_dims <=
                  (1 + fold_right Z.add 0 lr_dims) *
                  scale ^ Z.of_nat (List.length lr_dims)) by nia.
    assert (Hbig : 2 ^ 53 < max_size) by (vm_compute; reflexivity).
    rewrite Hsmall by lia.
    rewrite pow_IZR, <- mult_IZR. apply static_cast_size_t_IZR. lia.
Qed.

Lemma super_resolution_sample_counts_witness :
  lr_num [8; 8] = 17 /\ hr_num [8; 8] 2 = 68.
Proof.
  destruct (super_resolution_sample_counts [8; 8] 2) as (_ & Hl & Hh).
  split; [apply Hl; unfold max_size; simpl; lia |].
  apply Hh; simpl; lia.
Defined.

(** ** The driver on concrete command lines *)

Lemma main_compress_needs_input_and_mode_witness :
  exists type ip cp cf,
    In (Cli.Compress type ip cp cf)
      (fst (Cli.main Cli.sample_scan Cli.sample_scan (fun _ => 0%float) Cli.sample_EB_STR
              ["qoz"; "-i"; "in.dat"; "-z"; "out.qoz"; "-M"; "ABS"]%string)) /\
    ip = Some "in.dat"%string /\
    exists eb, Cli.errorBoundMode cf = Some eb.
Proof.
  do 4 eexists. split; [left; reflexivity | split; [reflexivity |]].
  eapply (main_compress_needs_input_and_mode Cli.sample_scan Cli.sample_scan
            (fun _ => 0%float) Cli.sample_EB_STR
            ["qoz"; "-i"; "in.dat"; "-z"; "out.qoz"; "-M"; "ABS"]%string).
  left. reflexivity.
Defined.

Lemma main_early_exit_does_nothing_witness :
  snd (Cli.main Cli.sample_scan Cli.sample_scan (fun _ => 0%float) Cli.sample_EB_STR
         ["qoz"; "-i"; "in.dat"; "-z"; "out.qoz"; "-M"; "BOGUS"]%string) =
  Cli.Exited [Cli.ErrWrongMode; Cli.UsageText] /\
  fst (Cli.main Cli.sample_scan Cli.sample_scan (fun _ => 0%float) Cli.sample_EB_STR
         ["qoz"; "-i"; "in.dat"; "-z"; "out.qoz"; "-M"; "BOGUS"]%string) = [].
Proof.
  split; [reflexivity |].
  apply (main_early_exit_does_nothing Cli.sample_scan Cli.sample_scan
           (fun _ => 0%float) Cli.sample_EB_STR).
  discriminate.
Defined.

Lemma main_returns_after_work_witness :
  exists a rest,
    fst (Cli.main Cli.sample_scan Cli.sample_scan (fun _ => 0%float) Cli.sample_EB_STR
           ["qoz"; "-z"; "out.qoz"; "-o"; "out.dat"; "-3"; "8"; "8"; "128"]%string) =
    a :: rest /\
    match a with Cli.Remove _ => False | _ => True end.
Proof.
  apply (main_returns_after_work Cli.sample_scan Cli.sample_scan
           (fun _ => 0%float) Cli.sample_EB_STR).
  reflexivity.
Defined.

Lemma main_removes_only_its_temp_witness :
  exists path type dp conf bo pr before,
    Some "in.dat.qoz.tmp"%string = Some (String.append path ".qoz.tmp") /\
    fst (Cli.main Cli.sample_scan Cli.sample_scan (fun _ => 0%float) Cli.sample_EB_STR
           ["qoz"; "-i"; "in.dat"; "-o"; "out.dat"; "-M"; "REL"; "1e-3"]%string) =
      before ++ [Cli.Decompress type (Some path) (Some "in.dat.qoz.tmp"%string)
                   dp conf bo pr;
                 Cli.Remove (Some "in.dat.qoz.tmp"%string)] /\
    (before = [] \/
     before = [Cli.Compress type (Some path) (Some "in.dat.qoz.tmp"%string) conf]).
Proof.
  apply (main_removes_only_its_temp Cli.sample_scan Cli.sample_scan
           (fun _ => 0%float) Cli.sample_EB_STR
           ["qoz"; "-i"; "in.dat"; "-o"; "out.dat"; "-M"; "REL"; "1e-3"]%string).
  right. right. left. reflexivity.
Defined.

Lemma option_char_accepts_witness :
  Cli.c_string "-h2" = true /\
  Cli.option_char "-h2" = Cli.usage_sz2 /\
  Cli.option_char "-z" = Cli.Continue "z"%char /\
  Cli.c_string "--help" = true /\
  Cli.option_char "--help" = Cli.usage.
Proof.
  split; [reflexivity | split; [| split; [| split; [reflexivity |]]]].
  - apply (option_char_accepts (fun _ => None) (fun _ => None) (fun _ => 0%float)
             Cli.sample_EB_STR "-h2" eq_refl).
    exists "-"%char, EmptyString. reflexivity.
  - apply (option_char_accepts (fun _ => None) (fun _ => None) (fun _ => 0%float)
             Cli.sample_EB_STR "-z" eq_refl).
    reflexivity.
  - apply (proj1 (proj2 (proj2 (proj2
             (option_char_accepts (fun _ => None) (fun _ => None) (fun _ => 0%float)
                Cli.sample_EB_STR "--help" eq_refl))))).
    repeat split; try discriminate.
    intros (a0 & rest & H). discriminate H.
Defined.

(** The first two command lines of the help text. *)
Example main_compresses (atof : string -> float) :
  Cli.main Cli.sample_scan Cli.sample_scan atof Cli.sample_EB_STR
    ["qoz"; "-f"; "-i"; "test.dat"; "-z"; "test.dat.qoz"; "-3"; "8"; "8"; "128";
     "-M"; "ABS"; "1e-3"]%string =
  ([Cli.Compress Cli.SZ_FLOAT (Some "test.dat"%string) (Some "test.dat.qoz"%string)
      (Cli.mk_Config [128; 8; 8] None None None None (Some (atof "1e-3"%string))
         None None (Some Cli.EB_ABS) None)],
   Cli.Returned).
Proof. reflexivity. Qed.

Example main_decompresses (atof : string -> float) :
  Cli.main Cli.sample_scan Cli.sample_scan atof Cli.sample_EB_STR
    ["qoz"; "-f"; "-z"; "test.dat.qoz"; "-o"; "test.dat.qoz.out"; "-3"; "8"; "8"; "128";
     "-M"; "REL"; "1e-3"; "-a"]%string =
  ([], Cli.Exited [Cli.ErrNeedOriginal]).
Proof. reflexivity. Qed.

(* ===================================================================== *)
(** * Part V. Perfect reconstruction                                      *)
(* ===================================================================== *)

(** ** The code is the scheme on doubles *)

(** What a transform of [CDF97] does to the data buffer is what the scheme
    does at the binary64 operations. *)
Lemma binary64_perform a self :
  CDF97.m_data_buf (CDF97.perform a self) =
  Scheme.perform binary64 a (CDF97.m_dims self) (CDF97.m_data_buf self).
Proof.
  destruct self as [buf [[dx dy] dz] q s]. destruct a; reflexivity.
Qed.

(** ** Loops that store into a list *)

Section Sweeps.

Context {D : Type} `{!Inhabited D}.

#[local] Open Scope nat_scope.

Lemma list_eq_total (l1 l2 : list D) :
  length l1 = length l2 ->
  (forall j, j < length l1 -> l1 !!! j = l2 !!! j) ->
  l1 = l2.
Proof.
  intros Hlen H.
  apply (list_eq_same_length _ _ (length l1)); [congruence | reflexivity |].
  intros j x y Hj Hx Hy.
  apply list_lookup_total_correct in Hx, Hy. rewrite <- Hx, <- Hy. now apply H.
Qed.

Lemma lookup_total_insert_same (l l' : list D) i v :
  length l = length l' -> <[i := v]> l !!! i = <[i := v]> l' !!! i.
Proof.
  intros Hlen. destruct (Nat.lt_ge_cases i (length l)) as [Hlt|Hge].
  - rewrite !list_lookup_total_insert_eq by lia. reflexivity.
  - rewrite !list_insert_ge by lia.
    rewrite !list_lookup_total_alt, !lookup_ge_None_2 by lia. reflexivity.
Qed.

Lemma sweep_cons w g a l (s : list D) :
  sweep w g (a :: l) s = sweep w g l (<[w a := g s a]> s).
Proof. reflexivity. Qed.

Lemma sweep_length w g l : forall s : list D, length (sweep w g l s) = length s.
Proof.
  induction l as [|a l IH]; intros s; [reflexivity |].
  rewrite sweep_cons, IH. apply length_insert.
Qed.

Lemma sweep_miss w g l j : forall s : list D,
  (forall i, i ∈ l -> j <> w i) -> sweep w g l s !!! j = s !!! j.
Proof.
  induction l as [|a l IH]; intros s Hj; [reflexivity |].
  rewrite sweep_cons, IH.
  - apply list_lookup_total_insert_ne. intros E. apply (Hj a); [left | now symmetry].
  - intros i Hi. apply Hj. now right.
Qed.

Lemma sweep_hit w g l i : forall s : list D,
  NoDup (w <$> l) -> i ∈ l -> w i < length s ->
  (forall s', length s' = length s ->
              (forall j, (forall i', i' ∈ l -> i' <> i -> j <> w i') -> s' !!! j = s !!! j) ->
              g s' i = g s i) ->
  sweep w g l s !!! w i = g s i.
Proof.
  induction l as [|a l IH]; intros s Hnd Hi Hlt Hg.
  - inversion Hi.
  - rewrite fmap_cons in Hnd. apply NoDup_cons in Hnd. destruct Hnd as [Hna Hnd].
    rewrite sweep_cons.
    apply elem_of_cons in Hi. destruct Hi as [->|Hi].
    + rewrite sweep_miss.
      * now apply list_lookup_total_insert_eq.
      * intros i Hi E. apply Hna. rewrite E. now apply list_elem_of_fmap_2.
    + assert (Hne : w i <> w a).
      { intros E. apply Hna. rewrite <- E. now apply list_elem_of_fmap_2. }
      assert (Hia : i <> a) by (intros ->; now apply Hne).
      assert (Hstep : g (<[w a := g s a]> s) i = g s i).
      { apply Hg; [apply length_insert |].
        intros j Hj. apply list_lookup_total_insert_ne.
        intros E. apply (Hj a); [left | now symmetry | now symmetry]. }
      rewrite IH; [exact Hstep | exact Hnd | exact Hi | now rewrite length_insert |].
      intros s' Hlen Hs'. rewrite Hstep. apply Hg; [now rewrite Hlen, length_insert |].
      intros j Hj.
      rewrite Hs'.
      * apply list_lookup_total_insert_ne. intros E. apply (Hj a); [left | | now symmetry].
        now apply not_eq_sym.
      * intros i' Hi' Hne'. apply Hj; [now right | exact Hne'].
Qed.

Lemma NoDup_fmap_seq (w : nat -> nat) a n :
  (forall i i', w i = w i' -> i = i') -> NoDup (w <$> seq a n).
Proof.
  intros Hinj. apply NoDup_fmap_2_strong; [| apply NoDup_seq].
  intros x y _ _. apply Hinj.
Qed.

End Sweeps.

(** ** The lifting steps in closed form *)

Section Lifting.

Context {D : Type} `{!Inhabited D} (A : Scheme.arithmetic D).

#[local] Open Scope nat_scope.

Lemma predict_inner_sweep c k (s : list D) :
  Scheme.predict_inner A c k s =
  sweep (fun i => 2 * i + 1)
    (fun s i => Scheme.add A (s !!! (2 * i + 1))
                  (Scheme.mul A c (Scheme.add A (s !!! (2 * i)) (s !!! (2 * i + 2)))))
    (seq 0 k) s.
Proof. reflexivity. Qed.

Lemma update_inner_sweep c k (s : list D) :
  Scheme.update_inner A c k s =
  sweep (fun i => 2 * i)
    (fun s i => Scheme.add A (s !!! (2 * i))
                  (Scheme.mul A c (Scheme.add A (s !!! (2 * i - 1)) (s !!! (2 * i + 1)))))
    (seq 1 k) s.
Proof. reflexivity. Qed.

Lemma scale_sweep a b n (s : list D) :
  Scheme.scale A a b n s =
  sweep (fun i => i) (fun s i => Scheme.mul A (s !!! i) (if Nat.even i then a else b))
    (seq 0 n) s.
Proof. reflexivity. Qed.

Lemma length_predict_inner c k (s : list D) : length (Scheme.predict_inner A c k s) = length s.
Proof. rewrite predict_inner_sweep. apply sweep_length. Qed.

Lemma length_update_inner c k (s : list D) : length (Scheme.update_inner A c k s) = length s.
Proof. rewrite update_inner_sweep. apply sweep_length. Qed.

Lemma length_mirror c i j (s : list D) : length (Scheme.mirror A c i j s) = length s.
Proof. apply length_insert. Qed.

Lemma length_scale a b n (s : list D) : length (Scheme.scale A a b n s) = length s.
Proof. rewrite scale_sweep. apply sweep_length. Qed.

Lemma length_predict_even c n (s : list D) : length (Scheme.predict_even A c n s) = length s.
Proof. unfold Scheme.predict_even. now rewrite length_mirror, length_predict_inner. Qed.

Lemma length_update_even c n (s : list D) : length (Scheme.update_even A c n s) = length s.
Proof. unfold Scheme.update_even. now rewrite length_update_inner, length_mirror. Qed.

Lemma length_predict_odd c n (s : list D) : length (Scheme.predict_odd A c n s) = length s.
Proof. apply length_predict_inner. Qed.

Lemma length_update_odd c n (s : list D) : length (Scheme.update_odd A c n s) = length s.
Proof.
  unfold Scheme.update_odd. now rewrite length_mirror, length_update_inner, length_mirror.
Qed.

Lemma predict_inner_odd c k (s : list D) i :
  i < k -> 2 * i + 1 < length s ->
  Scheme.predict_inner A c k s !!! (2 * i + 1) =
  Scheme.add A (s !!! (2 * i + 1))
    (Scheme.mul A c (Scheme.add A (s !!! (2 * i)) (s !!! (2 * i + 2)))).
Proof.
  intros Hi Hlen. rewrite predict_inner_sweep.
  apply (sweep_hit (fun i => 2 * i + 1)
           (fun s i => Scheme.add A (s !!! (2 * i + 1))
                         (Scheme.mul A c (Scheme.add A (s !!! (2 * i)) (s !!! (2 * i + 2)))))).
  - apply NoDup_fmap_seq. intros; lia.
  - apply elem_of_seq. lia.
  - exact Hlen.
  - intros s' _ Hs'. rewrite !Hs'; [reflexivity | | |]; intros i' _ Hne; lia.
Qed.

Lemma predict_inner_odd_out c k (s : list D) i :
  k <= i -> Scheme.predict_inner A c k s !!! (2 * i + 1) = s !!! (2 * i + 1).
Proof.
  intros Hi. rewrite predict_inner_sweep. apply sweep_miss.
  intros i' Hi'. apply elem_of_seq in Hi'. lia.
Qed.

Lemma predict_inner_even c k (s : list D) i :
  Scheme.predict_inner A c k s !!! (2 * i) = s !!! (2 * i).
Proof.
  rewrite predict_inner_sweep. apply sweep_miss. intros i' _. lia.
Qed.

Lemma update_inner_even c k (s : list D) i :
  1 <= i <= k -> 2 * i < length s ->
  Scheme.update_inner A c k s !!! (2 * i) =
  Scheme.add A (s !!! (2 * i))
    (Scheme.mul A c (Scheme.add A (s !!! (2 * i - 1)) (s !!! (2 * i + 1)))).
Proof.
  intros Hi Hlen. rewrite update_inner_sweep.
  apply (sweep_hit (fun i => 2 * i)
           (fun s i => Scheme.add A (s !!! (2 * i))
                         (Scheme.mul A c (Scheme.add A (s !!! (2 * i - 1)) (s !!! (2 * i + 1)))))).
  - apply NoDup_fmap_seq. intros; lia.
  - apply elem_of_seq. lia.
  - exact Hlen.
  - intros s' _ Hs'. rewrite !Hs'; [reflexivity | | |]; intros i' _ Hne; lia.
Qed.

Lemma update_inner_even_out c k (s : list D) i :
  i = 0 \/ k < i -> Scheme.update_inner A c k s !!! (2 * i) = s !!! (2 * i).
Proof.
  intros Hi. rewrite update_inner_sweep. apply sweep_miss.
  intros i' Hi'. apply elem_of_seq in Hi'. lia.
Qed.

Lemma update_inner_odd c k (s : list D) i :
  Scheme.update_inner A c k s !!! (2 * i + 1) = s !!! (2 * i + 1).
Proof.
  rewrite update_inner_sweep. apply sweep_miss. intros i' _. lia.
Qed.

Lemma scale_in a b n (s : list D) j :
  j < n -> j < length s ->
  Scheme.scale A a b n s !!! j = Scheme.mul A (s !!! j) (if Nat.even j then a else b).
Proof.
  intros Hj Hlen. rewrite scale_sweep.
  apply (sweep_hit (fun i => i)
           (fun s i => Scheme.mul A (s !!! i) (if Nat.even i then a else b))).
  - apply NoDup_fmap_seq. intros; lia.
  - apply elem_of_seq. lia.
  - exact Hlen.
  - intros s' _ Hs'. rewrite Hs'; [reflexivity |]. intros i' _ Hne. lia.
Qed.

Lemma mirror_at c i j (s : list D) :
  i < length s ->
  Scheme.mirror A c i j s !!! i =
  Scheme.add A (s !!! i) (Scheme.mul A (Scheme.mul A (Scheme.two A) c) (s !!! j)).
Proof. intros Hi. unfold Scheme.mirror. now apply list_lookup_total_insert_eq. Qed.

Lemma mirror_off c i j (s : list D) q :
  q <> i -> Scheme.mirror A c i j s !!! q = s !!! q.
Proof.
  intros Hq. unfold Scheme.mirror. apply list_lookup_total_insert_ne. now apply not_eq_sym.
Qed.

(** The four stencils are one lifting step each, on the odd positions
    (prediction) or on the even ones (update). *)

Ltac by_parity j i :=
  let E := fresh "E" in
  let Hj := fresh "Hj" in
  unfold lifted, Nat.odd;
  destruct (Nat.even j) eqn:E;
  [pose proof (even_half j E) as Hj | pose proof (odd_half j E) as Hj];
  set (i := j / 2) in *; clearbody i; subst j; cbn [negb Bool.eqb].

Lemma predict_even_lifted c m (s : list D) j :
  1 <= m -> length s = 2 * m -> j < 2 * m ->
  Scheme.predict_even A c (2 * m) s !!! j = lifted A true c (2 * m) s j.
Proof.
  intros Hm Hlen Hjm. unfold Scheme.predict_even. rewrite half_double.
  by_parity j i.
  - rewrite mirror_off by lia. apply predict_inner_even.
  - unfold stencil.
    replace (2 * i + 1 =? 0) with false by (symmetry; apply Nat.eqb_neq; lia).
    destruct (Nat.eqb_spec (2 * i + 1) (2 * m - 1)) as [Hlast|Hin].
    + rewrite Hlast. rewrite mirror_at by (rewrite length_predict_inner; lia).
      replace (2 * m - 1) with (2 * (m - 1) + 1) by lia.
      rewrite predict_inner_odd_out by lia.
      replace (2 * m - 2) with (2 * (m - 1)) by lia.
      now rewrite predict_inner_even.
    + rewrite mirror_off by lia.
      rewrite predict_inner_odd by lia.
      now replace (2 * i + 1 - 1) with (2 * i) by lia;
        replace (2 * i + 1 + 1) with (2 * i + 2) by lia.
Qed.

Lemma update_even_lifted c m (s : list D) j :
  1 <= m -> length s = 2 * m -> j < 2 * m ->
  Scheme.update_even A c (2 * m) s !!! j = lifted A false c (2 * m) s j.
Proof.
  intros Hm Hlen Hjm. unfold Scheme.update_even. rewrite half_double.
  by_parity j i.
  - unfold stencil.
    destruct (Nat.eqb_spec (2 * i) 0) as [Hz|Hnz].
    + replace i with 0 by lia.
      rewrite update_inner_even_out by lia.
      change (2 * 0) with 0. now rewrite mirror_at by lia.
    + replace (2 * i =? 2 * m - 1) with false by (symmetry; apply Nat.eqb_neq; lia).
      rewrite update_inner_even by (rewrite ?length_mirror; lia).
      now rewrite !mirror_off by lia.
  - rewrite update_inner_odd. apply mirror_off. lia.
Qed.

Lemma predict_odd_lifted c m (s : list D) j :
  1 <= m -> length s = 2 * m + 1 -> j < 2 * m + 1 ->
  Scheme.predict_odd A c (2 * m + 1) s !!! j = lifted A true c (2 * m + 1) s j.
Proof.
  intros Hm Hlen Hjm. unfold Scheme.predict_odd. rewrite half_double_succ.
  by_parity j i.
  - apply predict_inner_even.
  - unfold stencil.
    replace (2 * i + 1 =? 0) with false by (symmetry; apply Nat.eqb_neq; lia).
    replace (2 * i + 1 =? 2 * m + 1 - 1) with false by (symmetry; apply Nat.eqb_neq; lia).
    rewrite predict_inner_odd by lia.
    now replace (2 * i + 1 - 1) with (2 * i) by lia;
      replace (2 * i + 1 + 1) with (2 * i + 2) by lia.
Qed.

Lemma update_odd_lifted c m (s : list D) j :
  1 <= m -> length s = 2 * m + 1 -> j < 2 * m + 1 ->
  Scheme.update_odd A c (2 * m + 1) s !!! j = lifted A false c (2 * m + 1) s j.
Proof.
  intros Hm Hlen Hjm. unfold Scheme.update_odd. rewrite half_double_succ.
  by_parity j i.
  - unfold stencil.
    destruct (Nat.eqb_spec (2 * i) 0) as [Hz|Hnz].
    + replace i with 0 by lia.
      rewrite mirror_off by lia.
      rewrite update_inner_even_out by lia.
      change (2 * 0) with 0. now rewrite mirror_at by lia.
    + destruct (Nat.eqb_spec (2 * i) (2 * m + 1 - 1)) as [Hlast|Hin].
      * replace i with m by lia.
        rewrite mirror_at by (rewrite length_update_inner, length_mirror; lia).
        rewrite update_inner_even_out by lia.
        replace (2 * m - 1) with (2 * (m - 1) + 1) by lia.
        rewrite update_inner_odd.
        rewrite !mirror_off by lia.
        now replace (2 * m + 1 - 2) with (2 * (m - 1) + 1) by lia.
      * rewrite mirror_off by lia.
        rewrite update_inner_even by (rewrite ?length_mirror; lia).
        now rewrite !mirror_off by lia.
  - rewrite mirror_off by lia. rewrite update_inner_odd. apply mirror_off. lia.
Qed.


(** A lifting step is undone by the step with the negated constant, the
    scaling by the scaling with the inverted factors. *)

Context (HA : reversible A).

Lemma lifted_inverse odd c n (s s1 s2 : list D) :
  2 <= n -> length s = n -> length s1 = n -> length s2 = n ->
  (forall j, j < n -> s1 !!! j = lifted A odd c n s j) ->
  (forall j, j < n -> s2 !!! j = lifted A odd (Scheme.opp A c) n s1 j) ->
  s2 = s.
Proof.
  intros Hn Hs Hs1 Hs2 H1 H2. destruct HA as (Hlift & Hmirror & _ & _).
  assert (Hkeep : forall q, q < n -> Nat.odd q = negb odd -> s1 !!! q = s !!! q).
  { intros q Hq Hp. rewrite H1 by assumption. unfold lifted. rewrite Hp.
    now destruct odd. }
  apply list_eq_total; [congruence |].
  intros j Hj. rewrite Hs2 in Hj. rewrite H2 by assumption.
  unfold lifted at 1. destruct (Bool.eqb (Nat.odd j) odd) eqn:Hp.
  - apply Bool.eqb_prop in Hp.
    assert (Hnext : Nat.odd (j + 1) = negb odd).
    { rewrite Nat.add_1_r, Nat.odd_succ, <- Nat.negb_odd. now rewrite Hp. }
    assert (Hprev : 1 <= j -> Nat.odd (j - 1) = negb odd).
    { intros Hj1. rewrite <- Hp. replace j with (S (j - 1)) at 2 by lia.
      rewrite Nat.odd_succ, <- Nat.negb_odd. now rewrite Bool.negb_involutive. }
    rewrite (H1 j Hj). unfold lifted. rewrite Hp, Bool.eqb_reflx. unfold stencil.
    destruct (Nat.eqb_spec j 0) as [Hz|Hnz].
    + rewrite Hkeep; [apply Hmirror | lia |].
      subst j. now rewrite <- Hnext.
    + destruct (Nat.eqb_spec j (n - 1)) as [Hlast|Hin].
      * rewrite Hkeep; [apply Hmirror | lia |].
        replace (n - 2) with (j - 1) by lia. apply Hprev. lia.
      * rewrite !Hkeep; [apply Hlift | lia | exact Hnext | lia | apply Hprev; lia].
  - rewrite H1 by assumption. unfold lifted. now rewrite Hp.
Qed.

Lemma predict_even_inverse c m (s : list D) :
  1 <= m -> length s = 2 * m ->
  Scheme.predict_even A (Scheme.opp A c) (2 * m) (Scheme.predict_even A c (2 * m) s) = s.
Proof.
  intros Hm Hlen.
  apply (lifted_inverse true c (2 * m) s (Scheme.predict_even A c (2 * m) s));
    rewrite ?length_predict_even; try lia.
  - intros j Hj. now apply predict_even_lifted.
  - intros j Hj. apply predict_even_lifted; rewrite ?length_predict_even; lia.
Qed.

Lemma update_even_inverse c m (s : list D) :
  1 <= m -> length s = 2 * m ->
  Scheme.update_even A (Scheme.opp A c) (2 * m) (Scheme.update_even A c (2 * m) s) = s.
Proof.
  intros Hm Hlen.
  apply (lifted_inverse false c (2 * m) s (Scheme.update_even A c (2 * m) s));
    rewrite ?length_update_even; try lia.
  - intros j Hj. now apply update_even_lifted.
  - intros j Hj. apply update_even_lifted; rewrite ?length_update_even; lia.
Qed.

Lemma predict_odd_inverse c m (s : list D) :
  1 <= m -> length s = 2 * m + 1 ->
  Scheme.predict_odd A (Scheme.opp A c) (2 * m + 1) (Scheme.predict_odd A c (2 * m + 1) s) = s.
Proof.
  intros Hm Hlen.
  apply (lifted_inverse true c (2 * m + 1) s (Scheme.predict_odd A c (2 * m + 1) s));
    rewrite ?length_predict_odd; try lia.
  - intros j Hj. now apply predict_odd_lifted.
  - intros j Hj. apply predict_odd_lifted; rewrite ?length_predict_odd; lia.
Qed.

Lemma update_odd_inverse c m (s : list D) :
  1 <= m -> length s = 2 * m + 1 ->
  Scheme.update_odd A (Scheme.opp A c) (2 * m + 1) (Scheme.update_odd A c (2 * m + 1) s) = s.
Proof.
  intros Hm Hlen.
  apply (lifted_inverse false c (2 * m + 1) s (Scheme.update_odd A c (2 * m + 1) s));
    rewrite ?length_update_odd; try lia.
  - intros j Hj. now apply update_odd_lifted.
  - intros j Hj. apply update_odd_lifted; rewrite ?length_update_odd; lia.
Qed.

Lemma scale_inverse n (s : list D) :
  length s = n ->
  Scheme.scale A (Scheme.EPSILON A) (Scheme.opp A (Scheme.INV_EPSILON A)) n
    (Scheme.scale A (Scheme.INV_EPSILON A) (Scheme.opp A (Scheme.EPSILON A)) n s) = s.
Proof.
  intros Hlen. destruct HA as (_ & _ & Heven & Hodd).
  apply list_eq_total; [now rewrite !length_scale |].
  intros j Hj. rewrite !length_scale in Hj.
  rewrite !scale_in by (rewrite ?length_scale; lia).
  destruct (Nat.even j); [apply Heven | apply Hodd].
Qed.

(** ** The kernels *)

Ltac kernel_lengths :=
  repeat first
    [ rewrite length_scale | rewrite length_update_even | rewrite length_predict_even
    | rewrite length_update_odd | rewrite length_predict_odd ].

Lemma length_analysis_even (s : list D) n :
  length (Scheme.QccWAVCDF97AnalysisSymmetricEvenEven A s n) = length s.
Proof. unfold Scheme.QccWAVCDF97AnalysisSymmetricEvenEven. now kernel_lengths. Qed.

Lemma length_analysis_odd (s : list D) n :
  length (Scheme.QccWAVCDF97AnalysisSymmetricOddEven A s n) = length s.
Proof. unfold Scheme.QccWAVCDF97AnalysisSymmetricOddEven. now kernel_lengths. Qed.

Lemma length_synthesis_even (s : list D) n :
  length (Scheme.QccWAVCDF97SynthesisSymmetricEvenEven A s n) = length s.
Proof. unfold Scheme.QccWAVCDF97SynthesisSymmetricEvenEven. now kernel_lengths. Qed.

Lemma length_synthesis_odd (s : list D) n :
  length (Scheme.QccWAVCDF97SynthesisSymmetricOddEven A s n) = length s.
Proof. unfold Scheme.QccWAVCDF97SynthesisSymmetricOddEven. now kernel_lengths. Qed.

Lemma synthesis_analysis_even m (s : list D) :
  1 <= m -> length s = 2 * m ->
  Scheme.QccWAVCDF97SynthesisSymmetricEvenEven A
    (Scheme.QccWAVCDF97AnalysisSymmetricEvenEven A s (2 * m)) (2 * m) = s.
Proof.
  intros Hm Hlen.
  unfold Scheme.QccWAVCDF97SynthesisSymmetricEvenEven,
    Scheme.QccWAVCDF97AnalysisSymmetricEvenEven.
  cbv zeta.
  rewrite scale_inverse by (kernel_lengths; lia).
  rewrite update_even_inverse by (kernel_lengths; lia).
  rewrite predict_even_inverse by (kernel_lengths; lia).
  rewrite update_even_inverse by (kernel_lengths; lia).
  now apply predict_even_inverse.
Qed.

Lemma synthesis_analysis_odd m (s : list D) :
  1 <= m -> length s = 2 * m + 1 ->
  Scheme.QccWAVCDF97SynthesisSymmetricOddEven A
    (Scheme.QccWAVCDF97AnalysisSymmetricOddEven A s (2 * m + 1)) (2 * m + 1) = s.
Proof.
  intros Hm Hlen.
  unfold Scheme.QccWAVCDF97SynthesisSymmetricOddEven,
    Scheme.QccWAVCDF97AnalysisSymmetricOddEven.
  cbv zeta.
  rewrite scale_inverse by (kernel_lengths; lia).
  rewrite update_odd_inverse by (kernel_lengths; lia).
  rewrite predict_odd_inverse by (kernel_lengths; lia).
  rewrite update_odd_inverse by (kernel_lengths; lia).
  now apply predict_odd_inverse.
Qed.

(** ** Gather, scatter and one level on a run *)

Lemma length_scheme_gather_split low high (src : list D) :
  length (Scheme.gather_split low high src) = low + high.
Proof.
  unfold Scheme.gather_split.
  now rewrite length_app, !length_fmap, !length_seq.
Qed.

Lemma length_scheme_scatter_split low high (src : list D) :
  length (Scheme.scatter_split low high src) = low + high.
Proof. unfold Scheme.scatter_split. now rewrite length_fmap, length_seq. Qed.

Lemma scheme_gather_low low high (src : list D) i :
  i < low -> Scheme.gather_split low high src !!! i = src !!! (2 * i).
Proof.
  intros Hi. apply list_lookup_total_correct. unfold Scheme.gather_split.
  rewrite lookup_app_l by (now rewrite length_fmap, length_seq).
  rewrite list_lookup_fmap, lookup_seq_lt by assumption. reflexivity.
Qed.

Lemma scheme_gather_high low high (src : list D) i :
  i < high -> Scheme.gather_split low high src !!! (low + i) = src !!! (2 * i + 1).
Proof.
  intros Hi. apply list_lookup_total_correct. unfold Scheme.gather_split.
  rewrite lookup_app_r by (rewrite length_fmap, length_seq; lia).
  rewrite length_fmap, length_seq.
  replace (low + i - low) with i by lia.
  rewrite list_lookup_fmap, lookup_seq_lt by assumption. reflexivity.
Qed.

Lemma scheme_scatter_at low high (src : list D) j :
  j < low + high ->
  Scheme.scatter_split low high src !!! j =
  if Nat.even j then src !!! (j / 2) else src !!! (low + j / 2).
Proof.
  intros Hj. apply list_lookup_total_correct. unfold Scheme.scatter_split.
  rewrite list_lookup_fmap, lookup_seq_lt by assumption. reflexivity.
Qed.

Lemma scheme_scatter_gather_split low high (src : list D) :
  low = (length src + 1) / 2 -> high = length src / 2 ->
  Scheme.scatter_split low high (Scheme.gather_split low high src) = src.
Proof.
  intros Hlow Hhigh. pose proof (split_point (length src)) as Hn.
  pose proof (split_point_near (length src)) as Hnear.
  apply list_eq_total; [rewrite length_scheme_scatter_split; lia |].
  intros j Hj. rewrite length_scheme_scatter_split in Hj.
  rewrite scheme_scatter_at by lia.
  destruct (Nat.even j) eqn:He.
  - pose proof (even_half j He) as Hh.
    rewrite scheme_gather_low by lia. now rewrite Hh.
  - pose proof (odd_half j He) as Hh.
    rewrite scheme_gather_high by lia. now rewrite Hh.
Qed.

Lemma length_scheme_m_dwt1d_one_level (a : list D) :
  length (Scheme.m_dwt1d_one_level A a) = length a.
Proof.
  unfold Scheme.m_dwt1d_one_level. cbv zeta.
  destruct (length a <? 2); [reflexivity |].
  destruct (Nat.even (length a)) eqn:He.
  - unfold Scheme.m_gather_even. cbv zeta.
    rewrite length_scheme_gather_split, length_analysis_even.
    pose proof (even_half _ He). lia.
  - unfold Scheme.m_gather_odd. cbv zeta.
    rewrite length_scheme_gather_split, length_analysis_odd.
    pose proof (odd_half _ He). lia.
Qed.

Lemma length_scheme_m_idwt1d_one_level (a : list D) :
  length (Scheme.m_idwt1d_one_level A a) = length a.
Proof.
  unfold Scheme.m_idwt1d_one_level. cbv zeta.
  destruct (length a <? 2); [reflexivity |].
  destruct (Nat.even (length a)) eqn:He.
  - rewrite length_synthesis_even. unfold Scheme.m_scatter_even. cbv zeta.
    rewrite length_scheme_scatter_split. pose proof (even_half _ He). lia.
  - rewrite length_synthesis_odd. unfold Scheme.m_scatter_odd. cbv zeta.
    rewrite length_scheme_scatter_split. pose proof (odd_half _ He). lia.
Qed.

(** One level of synthesis undoes one level of analysis on every run. *)
Lemma scheme_one_level_inverse (a : list D) :
  Scheme.m_idwt1d_one_level A (Scheme.m_dwt1d_one_level A a) = a.
Proof.
  pose proof (length_scheme_m_dwt1d_one_level a) as Hlen.
  unfold Scheme.m_idwt1d_one_level. cbv zeta. rewrite Hlen.
  unfold Scheme.m_dwt1d_one_level. cbv zeta.
  destruct (length a <? 2) eqn:Hshort; [reflexivity |].
  apply Nat.ltb_ge in Hshort.
  destruct (Nat.even (length a)) eqn:He.
  - pose proof (even_half _ He) as Hn.
    unfold Scheme.m_scatter_even, Scheme.m_gather_even. cbv zeta.
    rewrite length_scheme_gather_split, length_analysis_even.
    replace (length a / 2 + length a / 2) with (length a) by lia.
    rewrite scheme_scatter_gather_split
      by (rewrite length_analysis_even; first [reflexivity | now rewrite split_point_even]).
    rewrite <- Hn at 1 2. apply synthesis_analysis_even; lia.
  - pose proof (odd_half _ He) as Hn.
    unfold Scheme.m_scatter_odd, Scheme.m_gather_odd. cbv zeta.
    rewrite length_scheme_gather_split, length_analysis_odd.
    replace (length a / 2 + 1 + length a / 2) with (length a) by lia.
    rewrite scheme_scatter_gather_split
      by (rewrite length_analysis_odd; first [reflexivity | now rewrite split_point_odd]).
    rewrite <- Hn at 1 2. apply synthesis_analysis_odd; lia.
Qed.

End Lifting.

(** ** Runs of the flat buffer *)

Section Runs.

Context {D : Type} `{!Inhabited D}.

#[local] Open Scope nat_scope.

Lemma write_run_sweep (buf : list D) start stride run :
  Scheme.write_run buf start stride run =
  sweep (fun i => start + i * stride) (fun _ i => run !!! i) (seq 0 (length run)) buf.
Proof. reflexivity. Qed.

Lemma length_scheme_write_run (buf : list D) start stride run :
  length (Scheme.write_run buf start stride run) = length buf.
Proof. rewrite write_run_sweep. apply sweep_length. Qed.

Lemma length_scheme_on_run pass start stride n (buf : list D) :
  length (Scheme.on_run pass start stride n buf) = length buf.
Proof. apply length_scheme_write_run. Qed.

Lemma length_read_run (buf : list D) start stride n :
  length (Scheme.read_run buf start stride n) = n.
Proof. unfold Scheme.read_run. now rewrite length_fmap, length_seq. Qed.

Lemma read_run_at (buf : list D) start stride n i :
  i < n -> Scheme.read_run buf start stride n !!! i = buf !!! (start + i * stride).
Proof.
  intros Hi. apply list_lookup_total_correct. unfold Scheme.read_run.
  rewrite list_lookup_fmap, lookup_seq_lt by assumption. reflexivity.
Qed.

Lemma write_run_off (buf : list D) start stride run j :
  ~ in_run start stride (length run) j ->
  Scheme.write_run buf start stride run !!! j = buf !!! j.
Proof.
  intros Hj. rewrite write_run_sweep. apply sweep_miss.
  intros i Hi E. apply elem_of_seq in Hi. apply Hj. exists i. split; [lia | exact E].
Qed.

Lemma write_run_at (buf : list D) start stride run i :
  1 <= stride -> i < length run -> start + i * stride < length buf ->
  Scheme.write_run buf start stride run !!! (start + i * stride) = run !!! i.
Proof.
  intros Hsd Hi Hlen. rewrite write_run_sweep.
  apply (sweep_hit (fun i => start + i * stride) (fun _ i => run !!! i)).
  - apply NoDup_fmap_seq. intros a b E. nia.
  - apply elem_of_seq. lia.
  - exact Hlen.
  - reflexivity.
Qed.

Lemma sweep_same (w : nat -> nat) (v : nat -> D) l j : forall x x' : list D,
  length x = length x' -> j ∈ w <$> l ->
  sweep w (fun _ i => v i) l x !!! j = sweep w (fun _ i => v i) l x' !!! j.
Proof.
  induction l as [|a l IH]; intros x x' Hlen Hj.
  - inversion Hj.
  - rewrite !sweep_cons.
    destruct (decide (j ∈ w <$> l)) as [Hin|Hout].
    + apply IH; [now rewrite !length_insert | exact Hin].
    + rewrite fmap_cons in Hj. apply elem_of_cons in Hj.
      destruct Hj as [->|Hj]; [| contradiction].
      rewrite !sweep_miss.
      * now apply lookup_total_insert_same.
      * intros i Hi E. apply Hout. rewrite E. now apply list_elem_of_fmap_2.
      * intros i Hi E. apply Hout. rewrite E. now apply list_elem_of_fmap_2.
Qed.

Lemma write_run_same (x x' : list D) start stride run j :
  length x = length x' -> in_run start stride (length run) j ->
  Scheme.write_run x start stride run !!! j = Scheme.write_run x' start stride run !!! j.
Proof.
  intros Hlen (i & Hi & ->). rewrite !write_run_sweep.
  apply (sweep_same (fun i => start + i * stride) (fun i => run !!! i)); [exact Hlen |].
  apply (list_elem_of_fmap_2 (fun i => start + i * stride)). apply elem_of_seq. lia.
Qed.

Lemma in_run_dec start stride n j :
  in_run start stride n j \/ ~ in_run start stride n j.
Proof.
  induction n as [|n IH].
  - right. intros (i & Hi & _). lia.
  - destruct IH as [(i & Hi & E)|Hno].
    + left. exists i. split; [lia | exact E].
    + destruct (Nat.eq_dec j (start + n * stride)) as [E|Hne].
      * left. exists n. split; [lia | exact E].
      * right. intros (i & Hi & E). destruct (Nat.eq_dec i n) as [->|Hin]; [contradiction |].
        apply Hno. exists i. split; [lia | exact E].
Qed.

(** A pass on a run is local to the run. *)
Lemma on_run_local pass start stride n :
  (forall r : list D, length (pass r) = length r) ->
  local (in_run start stride n) (Scheme.on_run pass start stride n).
Proof.
  intros Hpass. split; [| split].
  - intros x. apply length_scheme_on_run.
  - intros x j Hj. unfold Scheme.on_run. apply write_run_off.
    now rewrite Hpass, length_read_run.
  - intros x x' j Hlen Hagree Hj. unfold Scheme.on_run.
    assert (Hread : Scheme.read_run x start stride n = Scheme.read_run x' start stride n).
    { apply list_eq_total; [now rewrite !length_read_run |].
      intros i Hi. rewrite length_read_run in Hi. rewrite !read_run_at by assumption.
      apply Hagree. now exists i. }
    rewrite Hread. apply write_run_same; [exact Hlen |].
    now rewrite Hpass, length_read_run.
Qed.

(** On a run that lies inside the buffer, a pass followed by its inverse
    restores the buffer. *)
Lemma on_run_inverse f g start stride n (x : list D) :
  (forall r, length (f r) = length r) ->
  (forall r, length r = n -> g (f r) = r) ->
  1 <= stride ->
  (forall i, i < n -> start + i * stride < length x) ->
  Scheme.on_run g start stride n (Scheme.on_run f start stride n x) = x.
Proof.
  intros Hf Hgf Hsd Hin. unfold Scheme.on_run.
  set (r := Scheme.read_run x start stride n).
  assert (Hr : length r = n) by apply length_read_run.
  set (x1 := Scheme.write_run x start stride (f r)).
  assert (Hx1 : length x1 = length x) by apply length_scheme_write_run.
  assert (Hread : Scheme.read_run x1 start stride n = f r).
  { apply list_eq_total; [now rewrite length_read_run, Hf |].
    intros i Hi. rewrite length_read_run in Hi. rewrite read_run_at by assumption.
    apply write_run_at; [exact Hsd | rewrite Hf; lia | now apply Hin]. }
  rewrite Hread, Hgf by exact Hr.
  apply list_eq_total; [now rewrite length_scheme_write_run |].
  intros j _. destruct (in_run_dec start stride n j) as [(i & Hi & ->)|Hout].
  - rewrite write_run_at by (rewrite ?Hr, ?Hx1; auto).
    unfold r. now apply read_run_at.
  - rewrite write_run_off by now rewrite Hr.
    unfold x1. apply write_run_off. now rewrite Hf, Hr.
Qed.

(** ** Passes on disjoint parts of the buffer *)

Lemma local_weaken (P Q : nat -> Prop) (h : list D -> list D) :
  (forall j, P j -> Q j) -> local P h -> local Q h.
Proof.
  intros Hsub (Hlen & Hoff & Hin). split; [exact Hlen | split].
  - intros x j Hj. apply Hoff. intros HP. apply Hj. now apply Hsub.
  - intros x x' j Hxx Hagree Hj.
    destruct (Classical_Prop.classic (P j)) as [HP|HP].
    + apply Hin; [exact Hxx | | exact HP]. intros i Hi. apply Hagree. now apply Hsub.
    + rewrite !Hoff by exact HP. now apply Hagree.
Qed.

Lemma local_commute (P1 P2 : nat -> Prop) (h1 h2 : list D -> list D) :
  local P1 h1 -> local P2 h2 -> (forall j, P1 j -> P2 j -> False) ->
  forall x, h1 (h2 x) = h2 (h1 x).
Proof.
  intros (Hlen1 & Hoff1 & Hin1) (Hlen2 & Hoff2 & Hin2) Hdisj x.
  apply list_eq_total; [now rewrite Hlen1, !Hlen2, Hlen1 |].
  intros j _.
  destruct (Classical_Prop.classic (P1 j)) as [H1|H1].
  - rewrite (Hoff2 (h1 x) j) by (intros H2; exact (Hdisj j H1 H2)).
    apply Hin1; [apply Hlen2 | | exact H1].
    intros i Hi. apply Hoff2. intros H2. exact (Hdisj i Hi H2).
  - rewrite (Hoff1 (h2 x) j) by exact H1.
    destruct (Classical_Prop.classic (P2 j)) as [H2|H2].
    + symmetry. apply Hin2; [apply Hlen1 | | exact H2].
      intros i Hi. apply Hoff1. intros Hi1. exact (Hdisj i Hi1 Hi).
    + rewrite !Hoff2 by exact H2. now rewrite Hoff1.
Qed.

Lemma for_each_succ n (body : nat -> list D -> list D) x :
  Scheme.for_each (S n) body x = body n (Scheme.for_each n body x).
Proof.
  unfold Scheme.for_each. rewrite seq_S, fold_left_app. reflexivity.
Qed.

Lemma local_for_each (P : nat -> Prop) n (body : nat -> list D -> list D) :
  (forall y, y < n -> local P (body y)) -> local P (Scheme.for_each n body).
Proof.
  induction n as [|n IH]; intros Hbody.
  - split; [| split]; intros; reflexivity || (cbn; auto).
  - destruct (IH (fun y Hy => Hbody y (Nat.lt_lt_succ_r _ _ Hy))) as (Hlen & Hoff & Hin).
    destruct (Hbody n (Nat.lt_succ_diag_r n)) as (Hlen' & Hoff' & Hin').
    split; [| split].
    + intros x. now rewrite for_each_succ, Hlen', Hlen.
    + intros x j Hj. now rewrite for_each_succ, Hoff', Hoff.
    + intros x x' j Hxx Hagree Hj. rewrite !for_each_succ.
      apply Hin'; [now rewrite !Hlen | | exact Hj].
      intros i Hi. now apply Hin.
Qed.

Lemma for_each_commute n (body : nat -> list D -> list D) (h : list D -> list D) :
  (forall y z, y < n -> body y (h z) = h (body y z)) ->
  forall z, Scheme.for_each n body (h z) = h (Scheme.for_each n body z).
Proof.
  induction n as [|n IH]; intros Hc z; [reflexivity |].
  rewrite !for_each_succ, IH by (intros; apply Hc; lia).
  apply Hc. lia.
Qed.

(** A loop of passes on pairwise disjoint parts is undone by the loop of
    the inverse passes, in the same order. *)
Lemma for_each_inverse n (P : nat -> nat -> Prop) (F G : nat -> list D -> list D) N :
  (forall y, y < n -> local (P y) (F y)) ->
  (forall y, y < n -> local (P y) (G y)) ->
  (forall y y' j, y < n -> y' < n -> y <> y' -> P y j -> P y' j -> False) ->
  (forall y x, y < n -> length x = N -> G y (F y x) = x) ->
  forall x, length x = N ->
            Scheme.for_each n G (Scheme.for_each n F x) = x.
Proof.
  induction n as [|n IH]; intros HF HG Hdisj Hinv x Hx; [reflexivity |].
  rewrite !for_each_succ.
  rewrite (for_each_commute n G (F n)).
  - rewrite IH; auto.
    intros y y' j Hy Hy'. apply Hdisj; lia.
  - intros y z Hy.
    apply (local_commute (P y) (P n)); [apply HG; lia | apply HF; lia |].
    intros j. apply Hdisj; lia.
Qed.

End Runs.

(** ** Positions in a volume *)

Section Positions.

#[local] Open Scope nat_scope.

Lemma block_unique m a r a' r' :
  r < m -> r' < m -> a * m + r = a' * m + r' -> a = a' /\ r = r'.
Proof.
  intros Hr Hr' E.
  assert (Ha : a = a').
  { destruct (Nat.lt_trichotomy a a') as [Hlt|[Heq|Hgt]]; [| exact Heq |].
    - assert ((a + 1) * m <= a' * m) by (apply Nat.mul_le_mono_r; lia). lia.
    - assert ((a' + 1) * m <= a * m) by (apply Nat.mul_le_mono_r; lia). lia. }
  subst a'. split; [reflexivity | lia].
Qed.

Lemma block_below m n a r : r < m -> a < n -> a * m + r < n * m.
Proof.
  intros Hr Ha.
  assert ((a + 1) * m <= n * m) by (apply Nat.mul_le_mono_r; lia). lia.
Qed.

Lemma voxel_unique dx dy x y z x' y' z' :
  x < dx -> x' < dx -> y < dy -> y' < dy ->
  z * (dx * dy) + y * dx + x = z' * (dx * dy) + y' * dx + x' ->
  z = z' /\ y = y' /\ x = x'.
Proof.
  intros Hx Hx' Hy Hy' E.
  destruct (block_unique dx (z * dy + y) x (z' * dy + y') x' Hx Hx') as [E1 E2]; [lia |].
  destruct (block_unique dy z y z' y' Hy Hy' E1) as [E3 E4]. auto.
Qed.

Lemma voxel_below dx dy dz x y z :
  x < dx -> y < dy -> z < dz -> z * (dx * dy) + y * dx + x < dx * dy * dz.
Proof.
  intros Hx Hy Hz.
  pose proof (block_below dx dy y x Hx Hy).
  pose proof (block_below (dy * dx) dz z (y * dx + x) ltac:(lia) Hz). lia.
Qed.

Lemma volume_ge_plane a b c : 1 <= c -> a * b <= a * b * c.
Proof.
  intros Hc. assert (a * b * 1 <= a * b * c) by (apply Nat.mul_le_mono_l; lia). lia.
Qed.

Lemma volume_ge_row a b c : 1 <= b -> 1 <= c -> a <= a * b * c.
Proof.
  intros Hb Hc. pose proof (volume_ge_plane a b c Hc).
  assert (a * 1 <= a * b) by (apply Nat.mul_le_mono_l; lia). lia.
Qed.

End Positions.

(** ** Loops of 1D passes *)

Section Reconstruction.

Context {D : Type} `{!Inhabited D} (A : Scheme.arithmetic D) (HA : reversible A).

#[local] Open Scope nat_scope.

Lemma length_scheme_for_each n (body : nat -> list D -> list D) :
  (forall y x, length (body y x) = length x) ->
  forall x, length (Scheme.for_each n body x) = length x.
Proof.
  intros Hbody. induction n as [|n IH]; intros x; [reflexivity |].
  now rewrite for_each_succ, Hbody.
Qed.

Lemma run_loop_inverse n (start : nat -> nat) stride len N (x : list D) :
  1 <= stride ->
  (forall a i, a < n -> i < len -> start a + i * stride < N) ->
  (forall a a' i i', a < n -> a' < n -> i < len -> i' < len ->
                     start a + i * stride = start a' + i' * stride -> a = a') ->
  length x = N ->
  Scheme.for_each n (fun a => Scheme.on_run (Scheme.m_idwt1d_one_level A) (start a) stride len)
    (Scheme.for_each n
       (fun a => Scheme.on_run (Scheme.m_dwt1d_one_level A) (start a) stride len) x) = x.
Proof.
  intros Hsd Hin Hinj Hx.
  apply (for_each_inverse n (fun a => in_run (start a) stride len)
           (fun a => Scheme.on_run (Scheme.m_dwt1d_one_level A) (start a) stride len)
           (fun a => Scheme.on_run (Scheme.m_idwt1d_one_level A) (start a) stride len) N).
  - intros a _. apply on_run_local. apply length_scheme_m_dwt1d_one_level.
  - intros a _. apply on_run_local. apply length_scheme_m_idwt1d_one_level.
  - intros a a' j Ha Ha' Hne (i & Hi & E) (i' & Hi' & E').
    apply Hne. apply (Hinj a a' i i'); auto. congruence.
  - intros a z Ha Hz. apply on_run_inverse.
    + apply length_scheme_m_dwt1d_one_level.
    + intros r _. now apply scheme_one_level_inverse.
    + exact Hsd.
    + intros i Hi. rewrite Hz. now apply Hin.
  - exact Hx.
Qed.

Lemma double_loop_inverse n1 n2 (start : nat -> nat -> nat) stride len N (x : list D) :
  1 <= stride ->
  (forall a b i, a < n1 -> b < n2 -> i < len -> start a b + i * stride < N) ->
  (forall a b a' b' i i', a < n1 -> b < n2 -> a' < n1 -> b' < n2 -> i < len -> i' < len ->
                          start a b + i * stride = start a' b' + i' * stride ->
                          a = a' /\ b = b') ->
  length x = N ->
  Scheme.for_each n1
    (fun a => Scheme.for_each n2
                (fun b => Scheme.on_run (Scheme.m_idwt1d_one_level A) (start a b) stride len))
    (Scheme.for_each n1
       (fun a => Scheme.for_each n2
                   (fun b => Scheme.on_run (Scheme.m_dwt1d_one_level A) (start a b) stride len))
       x) = x.
Proof.
  intros Hsd Hin Hinj Hx.
  apply (for_each_inverse n1
           (fun a j => exists b, b < n2 /\ in_run (start a b) stride len j)
           (fun a => Scheme.for_each n2
                       (fun b => Scheme.on_run (Scheme.m_dwt1d_one_level A)
                                   (start a b) stride len))
           (fun a => Scheme.for_each n2
                       (fun b => Scheme.on_run (Scheme.m_idwt1d_one_level A)
                                   (start a b) stride len)) N).
  - intros a _. apply local_for_each. intros b Hb.
    apply (local_weaken (in_run (start a b) stride len)); [intros j Hj; now exists b |].
    apply on_run_local. apply length_scheme_m_dwt1d_one_level.
  - intros a _. apply local_for_each. intros b Hb.
    apply (local_weaken (in_run (start a b) stride len)); [intros j Hj; now exists b |].
    apply on_run_local. apply length_scheme_m_idwt1d_one_level.
  - intros a a' j Ha Ha' Hne (b & Hb & i & Hi & E) (b' & Hb' & i' & Hi' & E').
    apply Hne. apply (Hinj a b a' b' i i'); auto. congruence.
  - intros a z Ha Hz. apply run_loop_inverse with (N := N); auto.
    intros b b' i i' Hb Hb' Hi Hi' E. now apply (Hinj a b a b' i i').
  - exact Hx.
Qed.

(** ** One level on a plane and on a volume *)

Lemma length_scheme_m_dwt2d_one_level dx plane len_xy (x : list D) :
  length (Scheme.m_dwt2d_one_level A dx plane len_xy x) = length x.
Proof.
  destruct len_xy as [lx ly]. unfold Scheme.m_dwt2d_one_level.
  rewrite !length_scheme_for_each; auto; intros; apply length_scheme_on_run.
Qed.

Lemma scheme_2d_one_level_inverse dx dy N lx ly (x : list D) :
  1 <= dx -> lx <= dx -> ly <= dy -> dx * dy <= N -> length x = N ->
  Scheme.m_idwt2d_one_level A dx 0 (lx, ly) (Scheme.m_dwt2d_one_level A dx 0 (lx, ly) x) = x.
Proof.
  intros Hdx Hlx Hly HN Hx.
  unfold Scheme.m_idwt2d_one_level, Scheme.m_dwt2d_one_level.
  rewrite (run_loop_inverse lx (fun a => 0 + a) dx ly N).
  - apply (run_loop_inverse ly (fun a => 0 + a * dx) 1 lx N); auto.
    + intros a i Ha Hi. pose proof (block_below dx dy a i ltac:(lia) ltac:(lia)). lia.
    + intros a a' i i' Ha Ha' Hi Hi' E.
      apply (block_unique dx a i a' i'); lia.
  - exact Hdx.
  - intros a i Ha Hi. pose proof (block_below dx dy i a ltac:(lia) ltac:(lia)). lia.
  - intros a a' i i' Ha Ha' Hi Hi' E.
    apply (block_unique dx i a i' a'); lia.
  - rewrite length_scheme_for_each; auto. intros; apply length_scheme_on_run.
Qed.

Lemma length_along_x_scheme pass dx dy corner (x : list D) :
  length (Scheme.along_x pass dx dy corner x) = length x.
Proof.
  destruct corner as [[lx ly] lz]. unfold Scheme.along_x.
  apply length_scheme_for_each. intros. apply length_scheme_for_each.
  intros. apply length_scheme_on_run.
Qed.

Lemma length_along_y_scheme pass dx dy corner (x : list D) :
  length (Scheme.along_y pass dx dy corner x) = length x.
Proof.
  destruct corner as [[lx ly] lz]. unfold Scheme.along_y.
  apply length_scheme_for_each. intros. apply length_scheme_for_each.
  intros. apply length_scheme_on_run.
Qed.

Lemma length_along_z_scheme pass dx dy corner (x : list D) :
  length (Scheme.along_z pass dx dy corner x) = length x.
Proof.
  destruct corner as [[lx ly] lz]. unfold Scheme.along_z.
  apply length_scheme_for_each. intros. apply length_scheme_for_each.
  intros. apply length_scheme_on_run.
Qed.

Lemma length_scheme_m_dwt3d_one_level dx dy corner (x : list D) :
  length (Scheme.m_dwt3d_one_level A dx dy corner x) = length x.
Proof.
  unfold Scheme.m_dwt3d_one_level.
  now rewrite length_along_z_scheme, length_along_y_scheme, length_along_x_scheme.
Qed.

Section Axes.

Context (dx dy dz lx ly lz : nat).
Context (Hdx : 1 <= dx) (Hdy : 1 <= dy).
Context (Hlx : lx <= dx) (Hly : ly <= dy) (Hlz : lz <= dz).

Lemma along_x_inverse (x : list D) :
  length x = dx * dy * dz ->
  Scheme.along_x (Scheme.m_idwt1d_one_level A) dx dy (lx, ly, lz)
    (Scheme.along_x (Scheme.m_dwt1d_one_level A) dx dy (lx, ly, lz) x) = x.
Proof.
  intros Hx. unfold Scheme.along_x.
  apply (double_loop_inverse lz ly (fun z y => z * (dx * dy) + y * dx) 1 lx (dx * dy * dz));
    auto.
  - intros z y i Hz Hy Hi.
    pose proof (voxel_below dx dy dz i y z ltac:(lia) ltac:(lia) ltac:(lia)). lia.
  - intros z y z' y' i i' Hz Hy Hz' Hy' Hi Hi' E.
    destruct (voxel_unique dx dy i y z i' y' z') as (? & ? & ?); auto; lia.
Qed.

Lemma along_y_inverse (x : list D) :
  length x = dx * dy * dz ->
  Scheme.along_y (Scheme.m_idwt1d_one_level A) dx dy (lx, ly, lz)
    (Scheme.along_y (Scheme.m_dwt1d_one_level A) dx dy (lx, ly, lz) x) = x.
Proof.
  intros Hx. unfold Scheme.along_y.
  apply (double_loop_inverse lz lx (fun z a => z * (dx * dy) + a) dx ly (dx * dy * dz));
    auto.
  - intros z a i Hz Ha Hi.
    pose proof (voxel_below dx dy dz a i z ltac:(lia) ltac:(lia) ltac:(lia)). lia.
  - intros z a z' a' i i' Hz Ha Hz' Ha' Hi Hi' E.
    destruct (voxel_unique dx dy a i z a' i' z') as (? & ? & ?); auto; lia.
Qed.

Lemma along_z_inverse (x : list D) :
  length x = dx * dy * dz ->
  Scheme.along_z (Scheme.m_idwt1d_one_level A) dx dy (lx, ly, lz)
    (Scheme.along_z (Scheme.m_dwt1d_one_level A) dx dy (lx, ly, lz) x) = x.
Proof.
  intros Hx. unfold Scheme.along_z.
  apply (double_loop_inverse ly lx (fun y a => y * dx + a) (dx * dy) lz (dx * dy * dz));
    auto.
  - nia.
  - intros y a i Hy Ha Hi.
    pose proof (voxel_below dx dy dz a y i ltac:(lia) ltac:(lia) ltac:(lia)). lia.
  - intros y a y' a' i i' Hy Ha Hy' Ha' Hi Hi' E.
    destruct (voxel_unique dx dy a y i a' y' i') as (? & ? & ?); auto; lia.
Qed.

Lemma scheme_3d_one_level_inverse (x : list D) :
  length x = dx * dy * dz ->
  Scheme.m_idwt3d_one_level A dx dy (lx, ly, lz)
    (Scheme.m_dwt3d_one_level A dx dy (lx, ly, lz) x) = x.
Proof.
  intros Hx. unfold Scheme.m_idwt3d_one_level, Scheme.m_dwt3d_one_level. cbv zeta.
  rewrite along_z_inverse by now rewrite length_along_y_scheme, length_along_x_scheme.
  rewrite along_y_inverse by now rewrite length_along_x_scheme.
  now apply along_x_inverse.
Qed.

End Axes.

(** ** The level schedules *)

Lemma levels_inverse (step undo : nat -> list D -> list D) N :
  (forall lev x, length (step lev x) = length x) ->
  (forall lev x, length x = N -> undo lev (step lev x) = x) ->
  forall levels x, length x = N ->
    fold_left (fun b lev => undo lev b) (rev levels)
      (fold_left (fun b lev => step lev b) levels x) = x.
Proof.
  intros Hlen Hundo levels. induction levels as [|lev levels IH]; intros x Hx.
  - reflexivity.
  - cbn [fold_left rev]. rewrite fold_left_app. cbn [fold_left].
    rewrite IH by now rewrite Hlen.
    now apply Hundo.
Qed.

Lemma approx_at_le L lev :
  is_size_t L -> CDF97.approx_at L lev <= Z.to_nat L.
Proof.
  intros HL. unfold CDF97.approx_at.
  rewrite calc_approx_detail_len_spec by exact HL. cbn [fst]. rewrite Nat2Z.id.
  pose proof (approx_len_antitone L 0 lev ltac:(unfold is_size_t in HL; lia) ltac:(lia)).
  cbn [approx_len] in H. lia.
Qed.


Lemma valid_shape_sizes dx dy dz (buf : list D) :
  Scheme.valid_shape (dx, dy, dz) ->
  Z.of_nat (length buf) = CDF97.volume (dx, dy, dz) ->
  1 <= Z.to_nat dx /\ 1 <= Z.to_nat dy /\ 1 <= Z.to_nat dz /\
  length buf = Z.to_nat dx * Z.to_nat dy * Z.to_nat dz.
Proof.
  intros (Hx & Hy & Hz) Hlen. cbn [CDF97.volume] in Hlen.
  repeat split; first [lia | rewrite <- !Z2Nat.inj_mul by lia; lia].
Qed.

Lemma scheme_1d_inverse dx levels N (x : list D) :
  is_size_t dx -> Z.to_nat dx <= N -> length x = N ->
  Scheme.m_idwt1d A 0 dx levels (Scheme.m_dwt1d A 0 dx levels x) = x.
Proof.
  intros Hdx HN Hx. unfold Scheme.m_idwt1d, Scheme.m_dwt1d, CDF97.synthesis_levels.
  apply (levels_inverse
           (fun lev => Scheme.on_run (Scheme.m_dwt1d_one_level A) 0 1 (CDF97.approx_at dx lev))
           (fun lev => Scheme.on_run (Scheme.m_idwt1d_one_level A) 0 1 (CDF97.approx_at dx lev))
           N); [| | exact Hx].
  - intros lev z. apply length_scheme_on_run.
  - intros lev z Hz. apply on_run_inverse.
    + apply length_scheme_m_dwt1d_one_level.
    + intros r _. now apply scheme_one_level_inverse.
    + lia.
    + intros i Hi. pose proof (approx_at_le dx lev Hdx). lia.
Qed.

Lemma scheme_2d_inverse dx dy levels N (x : list D) :
  is_size_t dx -> is_size_t dy -> 1 <= Z.to_nat dx ->
  Z.to_nat dx * Z.to_nat dy <= N -> length x = N ->
  Scheme.m_idwt2d A (Z.to_nat dx) 0 (dx, dy) levels
    (Scheme.m_dwt2d A (Z.to_nat dx) 0 (dx, dy) levels x) = x.
Proof.
  intros Hdx Hdy Hpos HN Hx. unfold Scheme.m_idwt2d, Scheme.m_dwt2d, CDF97.synthesis_levels.
  cbn [fst snd].
  apply (levels_inverse
           (fun lev => Scheme.m_dwt2d_one_level A (Z.to_nat dx) 0
                         (CDF97.approx_at dx lev, CDF97.approx_at dy lev))
           (fun lev => Scheme.m_idwt2d_one_level A (Z.to_nat dx) 0
                         (CDF97.approx_at dx lev, CDF97.approx_at dy lev))
           N); [| | exact Hx].
  - intros lev z. apply length_scheme_m_dwt2d_one_level.
  - intros lev z Hz.
    apply (scheme_2d_one_level_inverse (Z.to_nat dx) (Z.to_nat dy) N); auto.
    + now apply approx_at_le.
    + now apply approx_at_le.
Qed.

Lemma scheme_3d_inverse dx dy dz levels (x : list D) :
  is_size_t dx -> is_size_t dy -> is_size_t dz ->
  1 <= Z.to_nat dx -> 1 <= Z.to_nat dy ->
  length x = Z.to_nat dx * Z.to_nat dy * Z.to_nat dz ->
  Scheme.idwt3d_levels A (dx, dy, dz) levels
    (Scheme.dwt3d_levels A (dx, dy, dz) levels x) = x.
Proof.
  intros Hdx Hdy Hdz Hx1 Hy1 Hx.
  unfold Scheme.idwt3d_levels, Scheme.dwt3d_levels, CDF97.synthesis_levels, CDF97.corner.
  apply (levels_inverse
           (fun lev => Scheme.m_dwt3d_one_level A (Z.to_nat dx) (Z.to_nat dy)
                         (CDF97.approx_at dx lev, CDF97.approx_at dy lev,
                          CDF97.approx_at dz lev))
           (fun lev => Scheme.m_idwt3d_one_level A (Z.to_nat dx) (Z.to_nat dy)
                         (CDF97.approx_at dx lev, CDF97.approx_at dy lev,
                          CDF97.approx_at dz lev))
           (Z.to_nat dx * Z.to_nat dy * Z.to_nat dz)); [| | exact Hx].
  - intros lev z. apply length_scheme_m_dwt3d_one_level.
  - intros lev z Hz.
    apply (scheme_3d_one_level_inverse (Z.to_nat dx) (Z.to_nat dy) (Z.to_nat dz));
      auto using approx_at_le.
Qed.

(** In a reversible arithmetic the inverse transform of every mode undoes
    the forward transform on every valid shape. *)
Lemma scheme_perform_inverse (m : Scheme.mode) dims (buf : list D) :
  Scheme.valid_shape dims ->
  Z.of_nat (length buf) = CDF97.volume dims ->
  Scheme.perform A (Scheme.inverse m) dims (Scheme.perform A (Scheme.forward m) dims buf) = buf.
Proof.
  destruct dims as [[dx dy] dz]. intros Hshape Hlen.
  destruct (valid_shape_sizes dx dy dz buf Hshape Hlen) as (Hx & Hy & Hz & HN).
  destruct Hshape as (Sx & Sy & Sz).
  assert (Hsx : is_size_t dx) by (unfold is_size_t; lia).
  assert (Hsy : is_size_t dy) by (unfold is_size_t; lia).
  assert (Hsz : is_size_t dz) by (unfold is_size_t; lia).
  destruct m; cbn [Scheme.perform Scheme.forward Scheme.inverse].
  - apply (scheme_1d_inverse dx _ (length buf)); auto. rewrite HN.
    now apply volume_ge_row.
  - apply (scheme_2d_inverse dx dy _ (length buf)); auto. rewrite HN.
    now apply volume_ge_plane.
  - now apply scheme_3d_inverse.
  - now apply scheme_3d_inverse.
Qed.

End Reconstruction.

(** ** Exact arithmetic is reversible *)

Lemma exact_t0 : Exact.t0 = 0.812893066116%R.
Proof. unfold Exact.t0, Exact.h_at, Exact.h. cbn. lra. Qed.

Lemma exact_reversible : reversible Exact.arithmetic.
Proof.
  assert (He : Exact.EPSILON <> 0%R).
  { unfold Exact.EPSILON. rewrite exact_t0.
    pose proof sqrt2_neq_0. apply Rmult_integral_contrapositive_currified; [assumption | lra]. }
  unfold reversible. cbn [Scheme.add Scheme.mul Scheme.opp Scheme.two Scheme.EPSILON
                            Scheme.INV_EPSILON Exact.arithmetic].
  repeat split; intros.
  - ring.
  - ring.
  - unfold Exact.INV_EPSILON. now field.
  - unfold Exact.INV_EPSILON. now field.
Qed.

(** ** Perfect reconstruction *)

(** On doubles the tolerance of the design document does not hold: in a row
    of eight samples that mixes magnitudes, the sample [0] comes back from
    [dwt1d] and [idwt1d] as [-4.66e-10], more than [1e-10] away. *)
Lemma reconstruction_exceeds_tolerance :
  let self :=
    CDF97.mk [0.001; 1000000; -1000000; 3; 1000000; 0; 1000000; 2]%float (8, 1, 1)
      (CDF97.lift_scratch (8, 1, 1)) [] in
  CDF97.take_data [0.001; 1000000; -1000000; 3; 1000000; 0; 1000000; 2]%float (8, 1, 1)
    CDF97.fresh = (Good, self) /\
  Scheme.valid_shape (CDF97.get_dims self) /\
  CDF97.view_data self !! 5%nat = Some 0%float /\
  CDF97.view_data (CDF97.idwt1d (CDF97.dwt1d self)) !! 5%nat =
    Some (-4.6566128730773926e-10)%float /\
  within_tolerance 0 (-4.6566128730773926e-10) = false /\
  ~ reconstructs_within_tolerance Scheme.OneD self.
Proof.
  intros self.
  assert (Hout : CDF97.view_data (CDF97.idwt1d (CDF97.dwt1d self)) !! 5%nat =
                 Some (-4.6566128730773926e-10)%float).
  { unfold CDF97.view_data, CDF97.idwt1d, CDF97.dwt1d, CDF97.with_data, self.
    cbn [CDF97.m_dims CDF97.m_data_buf].
    rewrite (num_of_xforms_int_correct 8) by (unfold max_size; lia).
    vm_compute. reflexivity. }
  split; [reflexivity |].
  split; [unfold Scheme.valid_shape, max_size; cbn; lia |].
  split; [reflexivity |].
  split; [exact Hout |].
  split; [vm_compute; reflexivity |].
  intros Hall. unfold reconstructs_within_tolerance in Hall.
  cbn [Scheme.forward Scheme.inverse CDF97.perform] in Hall.
  pose proof (Forall2_lookup_lr _ _ _ 5%nat 0%float (-4.6566128730773926e-10)%float
                Hall eq_refl Hout) as Hfive.
  vm_compute in Hfive. discriminate Hfive.
Qed.

(** Claim C1. For every decomposition mode (1D, 2D, 3D dyadic, 3D wavelet
    packet) and every valid shape [(dx, dy, dz)] with a buffer of
    [dx * dy * dz] samples, the forward transform followed by the inverse
    transform of the same mode restores every sample exactly when the
    passes are carried out in exact (real) arithmetic; the transforms of
    [CDF97] are these passes carried out on doubles, where every operation
    rounds and the tolerance [1e-10 * max (|x|, 1)] per sample is not
    kept. *)
Theorem perfect_reconstruction_exact (m : Scheme.mode) (dims : Z * Z * Z) (buf : list R) :
  Scheme.valid_shape dims ->
  Z.of_nat (length buf) = CDF97.volume dims ->
  Scheme.perform Exact.arithmetic (Scheme.inverse m) dims
    (Scheme.perform Exact.arithmetic (Scheme.forward m) dims buf) = buf /\
  (forall self : CDF97.t,
      CDF97.view_data
        (CDF97.perform (Scheme.inverse m) (CDF97.perform (Scheme.forward m) self)) =
      Scheme.perform binary64 (Scheme.inverse m) (CDF97.get_dims self)
        (Scheme.perform binary64 (Scheme.forward m) (CDF97.get_dims self)
           (CDF97.view_data self))).
Proof.
  intros Hshape Hlen. split.
  - now apply scheme_perform_inverse; [apply exact_reversible | |].
  - intros self. unfold CDF97.view_data, CDF97.get_dims.
    rewrite !binary64_perform.
    destruct (perform_preserves (Scheme.forward m) self) as [Hd _].
    unfold CDF97.get_dims in Hd. now rewrite Hd.
Qed.

Lemma perfect_reconstruction_exact_witness :
  let buf := [0.001; 1000000; -1000000; 3; 1000000; 0; 1000000; 2]%R in
  Scheme.perform Exact.arithmetic CDF97.Idwt1d (8, 1, 1)
    (Scheme.perform Exact.arithmetic CDF97.Dwt1d (8, 1, 1) buf) = buf.
Proof.
  intros buf.
  apply (perfect_reconstruction_exact Scheme.OneD (8, 1, 1) buf).
  - unfold Scheme.valid_shape, max_size. lia.
  - reflexivity.
Defined.
